(** * nano-node: wire codec, peer list and chain reassembly

    A shallow embedding of [node_modules/nano-node/index.js]: the message
    renderer and parser, the block field tables, the keepalive peer
    packing, the peer list kept by the UDP handler and the reassembly of
    block chains received over TCP.

    Buffers are lists of bytes, JavaScript strings are [string], the block
    object of a publish message is a finite map from property names to
    hex strings, and a thrown exception is the [Err] case of [result]. *)

From Stdlib Require Import ZArith NArith List String Ascii Lia.
From Stdlib.Strings Require Import Byte.
From Stdlib Require Import DecimalString HexadecimalString DecimalN.
From stdpp Require Import gmap strings list.
From Equations Require Import Equations.

Local Open Scope string_scope.
Local Open Scope list_scope.
Local Open Scope nat_scope.

(** ** Exceptions *)

(** [ParseError] is the class of the module; the three others are the
    exceptions the runtime itself raises (a bad argument to a [Buffer]
    function, an out-of-range read or write, an unbound identifier). *)
Inductive Error : Type :=
| ParseError (msg : string)
| TypeError
| RangeError
| ReferenceError (name : string).

Inductive result (A : Type) : Type :=
| Ok (a : A)
| Err (e : Error).
Arguments Ok {A} a.
Arguments Err {A} e.

Definition rbind {A B} (r : result A) (f : A -> result B) : result B :=
  match r with
  | Ok a => f a
  | Err e => Err e
  end.

Notation "'do' x <- r ; k" := (rbind r (fun x => k))
  (at level 10, x name, r at level 100, k at level 200).
Notation "'do' ' p <- r ; k" := (rbind r (fun p => k))
  (at level 10, p pattern, r at level 100, k at level 200).
Notation "'check' c 'else' e ; k" := (if c then k else Err e)
  (at level 10, c at level 100, e at level 100, k at level 200).

(** Left-to-right iteration that stops at the first exception, the shape
    of [Array.prototype.forEach] and [map] with a throwing callback. *)
Fixpoint foldM {A S} (f : S -> A -> result S) (l : list A) (s : S) : result S :=
  match l with
  | [] => Ok s
  | x :: l' => do s' <- f s x; foldM f l' s'
  end.

Fixpoint mapM {A B} (f : A -> result B) (l : list A) : result (list B) :=
  match l with
  | [] => Ok []
  | x :: l' => do y <- f x; do ys <- mapM f l'; Ok (y :: ys)
  end.

(** ** Buffers *)

Abbreviation Buffer := (list byte).

#[global] Instance byte_eq_decision : EqDecision byte := Byte.byte_eq_dec.

(** [buf.slice(start, end)], both ends clamped to the buffer. *)
Definition slice (start stop : nat) (buf : Buffer) : Buffer :=
  take (stop - start) (drop start buf).

(** [Buffer.alloc(n)] *)
Definition alloc (n : nat) : Buffer := replicate n x00.

(** Storing a number in a byte cell keeps it modulo 256. *)
Definition byte_of_Z (z : Z) : byte :=
  match Byte.of_N (Z.to_N (z mod 256)) with
  | Some b => b
  | None => x00
  end.

Definition Z_of_byte (b : byte) : Z := Z.of_N (Byte.to_N b).

(** [buf.readUInt16BE(off)] and [buf.readUInt16LE(off)] *)
Definition readUInt16BE (off : nat) (buf : Buffer) : result Z :=
  match buf !! off, buf !! S off with
  | Some hi, Some lo => Ok (Z_of_byte hi * 256 + Z_of_byte lo)%Z
  | _, _ => Err RangeError
  end.

Definition readUInt16LE (off : nat) (buf : Buffer) : result Z :=
  match buf !! off, buf !! S off with
  | Some lo, Some hi => Ok (Z_of_byte hi * 256 + Z_of_byte lo)%Z
  | _, _ => Err RangeError
  end.

(** [buf.writeUInt16LE(val, off)] *)
Definition writeUInt16LE (val : Z) (off : nat) (buf : Buffer) : result Buffer :=
  if (negb ((0 <=? val) && (val <=? 65535)))%Z then Err RangeError
  else if negb (S off <? length buf) then Err RangeError
  else Ok (<[S off := byte_of_Z (val / 256)]> (<[off := byte_of_Z val]> buf)).

(** [buf.writeInt16BE(val, off)], two's complement. *)
Definition writeInt16BE (val : Z) (off : nat) (buf : Buffer) : result Buffer :=
  if (negb ((-32768 <=? val) && (val <=? 32767)))%Z then Err RangeError
  else if negb (S off <? length buf) then Err RangeError
  else Ok (<[S off := byte_of_Z val]> (<[off := byte_of_Z (val / 256)]> buf)).

(** ** Hexadecimal strings *)

Definition hex_digit (n : N) : ascii :=
  match n with
  | 0 => "0" | 1 => "1" | 2 => "2" | 3 => "3" | 4 => "4" | 5 => "5"
  | 6 => "6" | 7 => "7" | 8 => "8" | 9 => "9" | 10 => "a" | 11 => "b"
  | 12 => "c" | 13 => "d" | 14 => "e" | _ => "f"
  end%N%char.

Definition unhex (c : ascii) : option N :=
  let n := N_of_ascii c in
  if ((48 <=? n) && (n <=? 57))%N then Some (n - 48)%N
  else if ((97 <=? n) && (n <=? 102))%N then Some (n - 87)%N
  else if ((65 <=? n) && (n <=? 70))%N then Some (n - 55)%N
  else None.

(** [buf.toString('hex')]: two lower-case digits per byte. *)
Fixpoint toHex (buf : Buffer) : string :=
  match buf with
  | [] => EmptyString
  | b :: buf' =>
      let n := Byte.to_N b in
      String (hex_digit (n / 16)) (String (hex_digit (n mod 16)) (toHex buf'))
  end.

(** [Buffer.from(str, 'hex')]: pairs of digits are decoded until the first
    pair that is not hexadecimal; a trailing single character is dropped. *)
Fixpoint fromHex (s : string) : Buffer :=
  match s with
  | String c1 (String c2 s') =>
      match unhex c1, unhex c2 with
      | Some h, Some l => byte_of_Z (Z.of_N (h * 16 + l)) :: fromHex s'
      | _, _ => []
      end
  | _ => []
  end.

(** ** Regular expressions

    The regular expressions of the module, matched the way the language
    matches them: leftmost start, alternatives in order, greedy
    repetition with backtracking. *)

Inductive regex : Type :=
| RChar (c : ascii)
| RClass (ranges : list (ascii * ascii))
| RBol
| REol
| RSeq (r1 r2 : regex)
| RAlt (r1 r2 : regex)
| RStar (r : regex)
| RRepeat (lo hi : nat) (r : regex)
| RGroup (g : nat) (r : regex).

Definition RPlus (r : regex) : regex := RSeq r (RStar r).

Definition in_range (c : ascii) (rg : ascii * ascii) : bool :=
  ((N_of_ascii (fst rg) <=? N_of_ascii c) && (N_of_ascii c <=? N_of_ascii (snd rg)))%N.

Definition in_class (ranges : list (ascii * ascii)) (c : ascii) : bool :=
  existsb (in_range c) ranges.

(** Capture groups: group number, start and end index. *)
Definition captures : Type := list (nat * (nat * nat)).

Definition or_else {A} (a b : option A) : option A :=
  match a with
  | Some x => Some x
  | None => b
  end.

(** [rmatch r i rest caps k]: match [r] at index [i], where [rest] is the
    input from [i] on, and hand the end position to the continuation [k];
    [None] makes the enclosing choice point try its next alternative. An
    iteration of a star must consume input, and no more than
    [length rest] iterations can. *)
Fixpoint rmatch {A} (r : regex) (i : nat) (rest : list ascii) (caps : captures)
    (k : nat -> list ascii -> captures -> option A) : option A :=
  match r with
  | RChar c =>
      match rest with
      | x :: rest' => if Ascii.eqb x c then k (S i) rest' caps else None
      | [] => None
      end
  | RClass ranges =>
      match rest with
      | x :: rest' => if in_class ranges x then k (S i) rest' caps else None
      | [] => None
      end
  | RBol => if i =? 0 then k i rest caps else None
  | REol => match rest with [] => k i rest caps | _ :: _ => None end
  | RSeq r1 r2 =>
      rmatch r1 i rest caps (fun i' rest' caps' => rmatch r2 i' rest' caps' k)
  | RAlt r1 r2 =>
      or_else (rmatch r1 i rest caps k) (rmatch r2 i rest caps k)
  | RStar r1 =>
      (fix star (n : nat) (i : nat) (rest : list ascii) (caps : captures) : option A :=
         match n with
         | 0 => k i rest caps
         | S n' =>
             or_else
               (rmatch r1 i rest caps (fun i' rest' caps' =>
                  if i <? i' then star n' i' rest' caps' else None))
               (k i rest caps)
         end) (S (length rest)) i rest caps
  | RRepeat lo hi r1 =>
      let optional :=
        fix optional (n : nat) (i : nat) (rest : list ascii) (caps : captures) : option A :=
          match n with
          | 0 => k i rest caps
          | S n' =>
              or_else (rmatch r1 i rest caps (fun i' rest' caps' => optional n' i' rest' caps'))
                      (k i rest caps)
          end in
      (fix mandatory (n : nat) (i : nat) (rest : list ascii) (caps : captures) : option A :=
         match n with
         | 0 => optional (hi - lo) i rest caps
         | S n' => rmatch r1 i rest caps (fun i' rest' caps' => mandatory n' i' rest' caps')
         end) lo i rest caps
  | RGroup g r1 =>
      rmatch r1 i rest caps (fun i' rest' caps' => k i' rest' ((g, (i, i')) :: caps'))
  end.

(** The leftmost match: start index, end index and captures. *)
Fixpoint rsearch (r : regex) (i : nat) (rest : list ascii) : option (nat * nat * captures) :=
  or_else (rmatch r i rest [] (fun e _ caps => Some (i, e, caps)))
          (match rest with
           | [] => None
           | _ :: rest' => rsearch r (S i) rest'
           end).

Definition chars (s : string) : list ascii := list_ascii_of_string s.
Definition str (l : list ascii) : string := string_of_list_ascii l.

(** [re.test(s)] *)
Definition test (r : regex) (s : string) : bool :=
  match rsearch r 0 (chars s) with
  | Some _ => true
  | None => false
  end.

(** A replacement template: literal text and [$n] references. *)
Inductive piece : Type :=
| Lit (s : string)
| Ref (g : nat).

Fixpoint capture (g : nat) (caps : captures) : option (nat * nat) :=
  match caps with
  | [] => None
  | (g', se) :: caps' => if g =? g' then Some se else capture g caps'
  end.

Definition expand (input : list ascii) (caps : captures) (p : piece) : list ascii :=
  match p with
  | Lit s => chars s
  | Ref g =>
      match capture g caps with
      | Some (s, e) => take (e - s) (drop s input)
      | None => []
      end
  end.

(** [s.replace(re, template)] for a regular expression without the [g]
    flag: the first match only. *)
Definition replace (r : regex) (template : list piece) (s : string) : string :=
  let input := chars s in
  match rsearch r 0 input with
  | Some (b, e, caps) =>
      str (take b input ++ concat (map (expand input caps) template) ++ drop e input)
  | None => s
  end.

(** [s.split(re)] for a regular expression without capture groups: at
    each index the expression is tried at that index only; a non-empty
    match ends the current piece and the scan resumes after it. *)
Fixpoint split_from (r : regex) (q : nat) (rest : list ascii) (skip : nat)
    (cur : list ascii) : list string :=
  match rest with
  | [] => [str (rev cur)]
  | c :: rest' =>
      match skip with
      | S skip' => split_from r (S q) rest' skip' cur
      | 0 =>
          match rmatch r q rest [] (fun e _ _ => Some e) with
          | Some e =>
              if q <? e then str (rev cur) :: split_from r (S q) rest' (e - q - 1) []
              else split_from r (S q) rest' 0 (c :: cur)
          | None => split_from r (S q) rest' 0 (c :: cur)
          end
      end
  end.

Definition split (r : regex) (s : string) : list string :=
  split_from r 0 (chars s) 0 [].

(** [arr.join(sep)] *)
Fixpoint join (sep : string) (l : list string) : string :=
  match l with
  | [] => ""
  | [x] => x
  | x :: l' => x +:+ sep +:+ join sep l'
  end.

(** ** Numbers and strings *)

Definition is_digit (c : ascii) : bool :=
  ((48 <=? N_of_ascii c) && (N_of_ascii c <=? 57))%N.

Definition is_space (c : ascii) : bool :=
  let n := N_of_ascii c in
  ((n =? 32) || ((9 <=? n) && (n <=? 13)))%N.

Fixpoint digits_value (acc : Z) (l : list ascii) : Z :=
  match l with
  | c :: l' =>
      if is_digit c then digits_value (acc * 10 + Z.of_N (N_of_ascii c - 48)) l' else acc
  | [] => acc
  end.

Fixpoint skip_spaces (l : list ascii) : list ascii :=
  match l with
  | c :: l' => if is_space c then skip_spaces l' else l
  | [] => []
  end.

(** [parseInt(s, 10)]: leading white space, an optional sign, then the
    longest run of decimal digits; [None] is [NaN]. The value is exact
    (the language rounds above 2^53). *)
Definition parseInt (s : string) : option Z :=
  let l := skip_spaces (chars s) in
  let '(sign, l) :=
    match l with
    | "-"%char :: l' => ((-1)%Z, l')
    | "+"%char :: l' => (1%Z, l')
    | _ => (1%Z, l)
    end in
  match l with
  | c :: _ => if is_digit c then Some (sign * digits_value 0 l)%Z else None
  | [] => None
  end.

(** Decimal and hexadecimal rendering of a non-negative integer, as
    string concatenation and [toString(16)] produce it. *)
Definition dec (z : Z) : string := DecimalString.NilZero.string_of_uint (N.to_uint (Z.to_N z)).
Definition hex (z : Z) : string :=
  HexadecimalString.NilZero.string_of_uint (N.to_hex_uint (Z.to_N z)).

(** ** Constants and tables of the module *)

(** [arr.indexOf(x)]; [None] is the language's -1. *)
Fixpoint indexOf {A} `{EqDecision A} (x : A) (l : list A) : option nat :=
  match l with
  | [] => None
  | y :: l' => if decide (y = x) then Some 0 else S <$> indexOf x l'
  end.

(** Lookup of an own property in an object literal, in declaration order. *)
Fixpoint prop {V} (name : string) (obj : list (string * V)) : option V :=
  match obj with
  | [] => None
  | (k, v) :: obj' => if String.eqb k name then Some v else prop name obj'
  end.

(** The properties every object literal inherits from [Object.prototype]. *)
Definition object_prototype : list string :=
  [ "constructor"; "__defineGetter__"; "__defineSetter__"; "hasOwnProperty";
    "__lookupGetter__"; "__lookupSetter__"; "isPrototypeOf";
    "propertyIsEnumerable"; "toString"; "valueOf"; "__proto__"; "toLocaleString" ].

(** [name in obj] for an object literal: own or inherited. *)
Definition has_property {V} (name : string) (obj : list (string * V)) : bool :=
  existsb (String.eqb name) (map fst obj ++ object_prototype).

Definition IPV4MASK : Buffer := fromHex "00000000000000000000ffff".

(** [/^\[[A-Fa-f0-9:]+\]:[0-9]+$/] *)
Definition IPV6_PATTERN : regex :=
  RSeq RBol
    (RSeq (RChar "[")
       (RSeq (RPlus (RClass [("A", "F"); ("a", "f"); ("0", "9"); (":", ":")]%char))
          (RSeq (RChar "]")
             (RSeq (RChar ":")
                (RSeq (RPlus (RClass [("0", "9")]%char)) REol))))).

(** [/^[A-F-a-f0-9]{64}$/]: in the class, the ranges [A-F], [a-f] and
    [0-9], and the hyphen that stands between the first two. *)
Definition HEX64CHAR_PATTERN : regex :=
  RSeq RBol
    (RSeq (RRepeat 64 64 (RClass [("A", "F"); ("-", "-"); ("a", "f"); ("0", "9")]%char))
       REol).

Definition BULK_PULL_PREFIX : Buffer := fromHex "52430505010300".
Definition DEFAULT_FRONTIER_REQ : Buffer := alloc 32 ++ fromHex "ffffffff".

Definition MESSAGE_TYPES : list string :=
  [ "invalid"; "not_a_type"; "keepalive"; "publish"; "confirm_req";
    "confirm_ack"; "bulk_pull"; "bulk_push"; "frontier_req" ].

Definition BLOCK_TYPES : list (string * N) :=
  [ ("invalid", 0); ("not_a_block", 1); ("send", 2); ("receive", 3);
    ("open", 4); ("change", 5); ("state", 6) ]%N.

Definition BLOCK_TYPES_INDEX : list string :=
  [ "invalid"; "not_a_block"; "send"; "receive"; "open"; "change"; "state" ].

Definition BLOCK_LENGTHS : list nat := [ 0; 0; 80; 64; 96; 64; 144 ].

Record field_spec : Type := { types : list N; length_ : nat }.

(** Listed in the order in which the fields are hashed. *)
Definition REQUIRED_FIELDS : list (string * field_spec) :=
  [ ("previous", {| types := [2; 3; 5; 6]; length_ := 32 |});
    ("destination", {| types := [2]; length_ := 32 |});
    ("balance", {| types := [2; 6]; length_ := 16 |});
    ("source", {| types := [3; 4]; length_ := 32 |});
    ("representative", {| types := [4; 5; 6]; length_ := 32 |});
    ("account", {| types := [4; 6]; length_ := 32 |});
    ("link", {| types := [6]; length_ := 32 |}) ]%N.

Definition SPECIAL_ORDERING : list (string * list string) :=
  [ ("state", [ "account"; "previous"; "representative"; "balance"; "link" ]) ].

Definition BIG_ENDIAN_WORK : list string := [ "state" ].

(** ** The hash and signature libraries

    [./blake2b] and [./nacl] are required by the module and are not part
    of it: their functions are the operations of this class. A hashing
    context collects what it is fed; [blake2b n data] is the [n]-byte
    digest of everything fed. *)
Class Crypto : Type := {
  blake2b : nat -> Buffer -> Buffer;
  sign_detached : Buffer -> Buffer -> Buffer;
  sign_detached_verify : Buffer -> Buffer -> Buffer -> bool
}.

Record blake2b_context : Type := { outlen : nat; fed : Buffer }.

Definition blake2bInit (n : nat) : blake2b_context := {| outlen := n; fed := [] |}.
Definition blake2bUpdate (ctx : blake2b_context) (data : Buffer) : blake2b_context :=
  {| outlen := outlen ctx; fed := fed ctx ++ data |}.
Definition blake2bFinal `{Crypto} (ctx : blake2b_context) : Buffer :=
  blake2b (outlen ctx) (fed ctx).

(** [Buffer.concat(list)]: an element that is not a buffer ([None]: the
    value [undefined] or [null]) is a [TypeError]. *)
Fixpoint Buffer_concat (l : list (option Buffer)) : result Buffer :=
  match l with
  | [] => Ok []
  | None :: _ => Err TypeError
  | Some b :: l' => do rest <- Buffer_concat l'; Ok (b ++ rest)
  end.

(** ** Block fields *)

(** [blockFields(blockType)]. [None] is a result that is not an array: the
    value of a property of [SPECIAL_ORDERING] inherited from
    [Object.prototype]. *)
Definition blockFields (blockType : string) : option (list string) :=
  if has_property blockType SPECIAL_ORDERING then prop blockType SPECIAL_ORDERING
  else
    Some (fold_left
            (fun out param =>
               match prop blockType BLOCK_TYPES with
               | Some t =>
                   match indexOf t (types (snd param)) with
                   | Some _ => out ++ [fst param]
                   | None => out
                   end
               | None => out
               end)
            REQUIRED_FIELDS []).

(** ** Rendering *)

(** The value of [msg.body]. A block is an object whose properties hold
    hex strings; an array holds peer address strings. *)
Inductive Body : Type :=
| BAbsent
| BBuffer (b : Buffer)
| BString (s : string)
| BArray (l : list string)
| BObject (o : gmap string string)
| BPrimitive (truthy : bool).

(** The argument of [renderMessage]; [None] is a property that is not
    [in] the object. *)
Record Msg : Type := {
  msg_type : option string;
  msg_mainnet : option bool;
  msg_versionMax : option Z;
  msg_versionUsing : option Z;
  msg_versionMin : option Z;
  msg_extensions : option Z;
  msg_body : Body
}.

(** [{ message, hash }]; [None] is [undefined] for the message and [null]
    for the hash. *)
Record Rendered : Type := { message : option Buffer; hash : option string }.

Definition truthy (b : Body) : bool :=
  match b with
  | BAbsent => false
  | BString s => negb (String.eqb s "")
  | BPrimitive t => t
  | BBuffer _ | BArray _ | BObject _ => true
  end.

(** The body of [msg.body.forEach((address, index) => ...)] in the
    keepalive branch; [hl] is [header.length]. *)
Definition put_peer (hl : nat) (message : Buffer) (entry : nat * string) : result Buffer :=
  let '(index, address) := entry in
  check negb (test IPV6_PATTERN address) else ParseError "ipv6_not_supported";
  let parts := split (RClass [(".", "."); (":", ":")]%char) address in
  check (length parts =? 5) else ParseError "invalid_address";
  let message := <[hl + 16 * index + 10 := xff]> message in
  let message := <[hl + 16 * index + 11 := xff]> message in
  foldM (fun message '(i, val) =>
           let pos := hl + 16 * index + 12 + i in
           match parseInt val with
           | None => Err (ParseError "invalid_address")
           | Some val =>
               if i =? 4 then writeUInt16LE val pos message
               else Ok (<[pos := byte_of_Z val]> message)
           end)
        (imap (fun i val => (i, val)) parts) message.

Definition or_default (o : option Z) (d : Z) : Z :=
  match o with
  | Some z => z
  | None => d
  end.

Section Render.
Context `{Crypto}.

(** The callback of [fields.map(field => ...)]: the bytes of one field. *)
Definition field_value (body : gmap string string) (field : string) : result Buffer :=
  match body !! field with
  | None => Err (ParseError ("missing_field_" +:+ field))
  | Some v =>
      let value := fromHex v in
      match prop field REQUIRED_FIELDS with
      | None => Err TypeError
      | Some spec =>
          check (length value =? length_ spec)
            else ParseError ("length_mismatch_" +:+ field);
          Ok value
      end
  end.

(** The publish / confirm_req branch, for a body that is an object. *)
Definition render_block (header : Buffer) (body : gmap string string)
    (accountKey : option string) : result Rendered :=
  match body !! "type" with
  | None => Err (ParseError "invalid_block_type")
  | Some ty =>
      check has_property ty BLOCK_TYPES else ParseError "invalid_block_type";
      do header <- writeInt16BE
                     (match indexOf ty BLOCK_TYPES_INDEX with
                      | Some i => Z.of_nat i
                      | None => -1
                      end) 6 header;
      match blockFields ty with
      | None => Err TypeError
      | Some fields =>
          do values <- mapM (field_value body) fields;
          let context := blake2bInit 32 in
          let context := blake2bUpdate context (concat values) in
          let hash := blake2bFinal context in
          do signature <-
            match body !! "signature" with
            | Some s => Ok (Some (fromHex s))
            | None =>
                match accountKey with
                | Some key =>
                    if String.eqb key "" then Ok None
                    else
                      let accountKeyBuf := fromHex key in
                      check (length accountKeyBuf =? 32)
                        else ParseError "length_mismatch_private_key";
                      Ok (Some (sign_detached hash accountKeyBuf))
                | None => Ok None
                end
            end;
          do work <- match body !! "work" with
                     | Some w => Ok (fromHex w)
                     | None => Err TypeError
                     end;
          let work := match indexOf ty BIG_ENDIAN_WORK with
                      | None => rev work
                      | Some _ => work
                      end in
          check (length work =? 8) else ParseError "length_mismatch_work";
          do message <- Buffer_concat ([Some header] ++ map Some values
                                         ++ [signature; Some work]);
          Ok {| message := Some message; hash := Some (toHex hash) |}
      end
  end.

(** [NanoNode.renderMessage(msg, accountKey)] *)
Definition renderMessage (msg : Msg) (accountKey : option string) : result Rendered :=
  match msg_type msg ≫= (fun t => indexOf t MESSAGE_TYPES) with
  | None => Err (ParseError "invalid_type")
  | Some type =>
      let header : Buffer :=
        [ x52;
          match msg_mainnet msg with
          | None | Some true => x43
          | Some false => x41
          end;
          byte_of_Z (or_default (msg_versionMax msg) 7);
          byte_of_Z (or_default (msg_versionUsing msg) 7);
          byte_of_Z (or_default (msg_versionMin msg) 1);
          byte_of_Z (Z.of_nat type);
          x00; x00 ] in
      do header <- match msg_extensions msg with
                   | Some e => writeInt16BE e 6 header
                   | None => Ok header
                   end;
      let type_is t := bool_decide (msg_type msg = Some t) in
      match msg_body msg with
      | BBuffer b => Ok {| message := Some (header ++ b); hash := None |}
      | body =>
          if truthy body && (type_is "publish" || type_is "confirm_req") then
            match body with
            | BObject o => render_block header o accountKey
            | BArray _ => Err (ParseError "invalid_block_type")
            | _ => Err TypeError
            end
          else if type_is "keepalive" then
            let message := header ++ alloc 144 in
            match body with
            | BArray l =>
                check (length l <=? 8) else ParseError "too_many_peers";
                do message <- foldM (put_peer (length header)) (imap (fun i a => (i, a)) l) message;
                Ok {| message := Some message; hash := None |}
            | _ => Ok {| message := Some message; hash := None |}
            end
          else if type_is "frontier_req" then
            Ok {| message := Some DEFAULT_FRONTIER_REQ; hash := None |}
          else if truthy body && type_is "bulk_pull" then
            match body with
            | BString s =>
                if test HEX64CHAR_PATTERN s then
                  Ok {| message := Some (header ++ fromHex s ++ fromHex s); hash := None |}
                else Err (ParseError "invalid_account")
            | _ => Err (ParseError "invalid_account")
            end
          else Ok {| message := None; hash := None |}
      end
  end.
End Render.

(** ** Parsing *)

(** [/(^|:)0(:0)*:0(:|$)/] and [/:{3,4}/] *)
Definition ZERO_RUN : regex :=
  RSeq (RGroup 1 (RAlt RBol (RChar ":")))
    (RSeq (RChar "0")
       (RSeq (RStar (RGroup 2 (RSeq (RChar ":") (RChar "0"))))
          (RSeq (RChar ":") (RSeq (RChar "0") (RGroup 3 (RAlt (RChar ":") REol)))))).

Definition COLONS : regex := RRepeat 3 4 (RChar ":").

(** [parseIp(buf, offset)] for a buffer: the textual form of the 16-byte
    address and the 2-byte port that follows it. *)
Definition parseIp (buf : Buffer) (offset : nat) : result string :=
  if bool_decide (slice offset (offset + 12) buf = IPV4MASK) then
    let result := map (fun i => match buf !! i with
                                | Some b => dec (Z_of_byte b)
                                | None => ""
                                end) (seq (offset + 12) 4) in
    do port <- readUInt16LE (offset + 16) buf;
    Ok (join "." result +:+ ":" +:+ dec port)
  else
    do result <- mapM (fun j => do g <- readUInt16BE (offset + 2 * j) buf; Ok (hex g)) (seq 0 8);
    do port <- readUInt16LE (offset + 16) buf;
    Ok ("[" +:+ replace COLONS [Lit "::"]
                  (replace ZERO_RUN [Ref 1; Lit "::"; Ref 3] (join ":" result))
            +:+ "]:" +:+ dec port).

(** The value of [message.body] after parsing; [PNone] when the property
    is never assigned. *)
Inductive ParsedBody : Type :=
| PPeers (peers : list string)
| PBlock (block : gmap string string)
| PBytes (bytes : Buffer)
| PNone.

Record Message : Type := {
  mainnet : bool;
  versionMax : byte;
  versionUsing : byte;
  versionMin : byte;
  type : string;
  extensions : Z;
  body : ParsedBody;
  account : option string;
  signature : option string;
  sequence : option string;
  block : option (gmap string string)
}.

(** The identifiers bound where the body of [parseMessage] runs: its
    parameters and local declarations, the declarations of the module and
    of the module wrapper, and the globals the module uses. The function
    is an anonymous function expression stored in the property
    [NanoNode.parseMessage]; that gives no identifier of that name. *)
Definition parseMessage_locals : list string :=
  [ "buf"; "minimalConfirmAck"; "message"; "peers"; "block"; "fields"; "pos";
    "context"; "work"; "account"; "signature"; "sequence"; "msgCopy";
    "blockParsed"; "msgCtx"; "msgHash" ].

Definition module_bindings : list string :=
  [ "EventEmitter"; "dgram"; "net"; "blake2bInit"; "blake2bUpdate"; "blake2bFinal";
    "nacl"; "functions"; "IPV4MASK"; "IPV6_PATTERN"; "HEX64CHAR_PATTERN";
    "BULK_PULL_PREFIX"; "DEFAULT_FRONTIER_REQ"; "MESSAGE_TYPES"; "BLOCK_TYPES";
    "BLOCK_TYPES_INDEX"; "BLOCK_LENGTHS"; "REQUIRED_FIELDS"; "SPECIAL_ORDERING";
    "BIG_ENDIAN_WORK"; "InvalidMessage"; "ParseError"; "NanoNode"; "blockFields";
    "parseIp"; "pullStats";
    "exports"; "require"; "module"; "__filename"; "__dirname";
    "Buffer"; "Object"; "Error"; "parseInt"; "isNaN"; "setTimeout" ].

Definition in_scope (name : string) : bool :=
  existsb (String.eqb name) (parseMessage_locals ++ module_bindings).

Section Parse.
Context `{Crypto}.

(** The body of the loop over [fields]: one field sliced out of the
    buffer at [pos]. *)
Definition read_field (buf : Buffer) (st : gmap string string * nat) (field : string)
    : result (gmap string string * nat) :=
  let '(block, pos) := st in
  match prop field REQUIRED_FIELDS with
  | None => Err TypeError
  | Some spec =>
      let length := length_ spec in
      Ok (<[field := toHex (slice pos (pos + length) buf)]> block, pos + length)
  end.

(** The publish / confirm_req case of the switch. *)
Definition parse_block (buf : Buffer) (extensions : Z) : result (gmap string string) :=
  match BLOCK_TYPES_INDEX !! Z.to_nat extensions with
  | None => Err (ParseError "invalid_block_type")
  | Some ty =>
      match blockFields ty with
      | None => Err TypeError
      | Some fields =>
          do '(block, pos) <- foldM (read_field buf) fields ({["type" := ty]}, 8);
          check (length buf =? pos + 72) else ParseError "invalid_block_length";
          let context := blake2bInit 32 in
          let context := blake2bUpdate context (slice 8 pos buf) in
          let block := <["hash" := toHex (blake2bFinal context)]> block in
          let block := <["signature" := toHex (slice pos (pos + 64) buf)]> block in
          let work := slice (pos + 64) (pos + 72) buf in
          let work := match indexOf ty BIG_ENDIAN_WORK with
                      | None => rev work
                      | Some _ => work
                      end in
          Ok (<["work" := toHex work]> block)
      end
  end.

(** The keepalive case: the loop [for(let i=8; i<152; i+=18)]. *)
Definition parse_peers (buf : Buffer) : result (list string) :=
  foldM (fun peers n =>
           do peer <- parseIp buf (8 + 18 * n);
           if String.eqb peer "[::]:0" then Ok peers else Ok (peers ++ [peer]))
        (seq 0 8) [].

(** The body of [NanoNode.parseMessage]; [self] is what a call through
    the bare identifier [parseMessage] would run if that identifier were
    bound. *)
Definition parseMessage_body (self : Buffer -> result Message)
    (buf : Buffer) (minimalConfirmAck : bool) : result Message :=
  check bool_decide (buf !! 0 = Some x52) else ParseError "magic_number";
  do mainnet <-
    (if bool_decide (buf !! 1 = Some x43) then Ok true
     else if bool_decide (buf !! 1 = Some x41) then Ok false
     else Err (ParseError "invalid_network"));
  let byte_at i := default x00 (buf !! i) in
  let tag := match buf !! 5 with
             | Some t => N.to_nat (Byte.to_N t)
             | None => 0
             end in
  check negb (length MESSAGE_TYPES <=? tag) else ParseError "invalid_type";
  do extensions <- readUInt16BE 6 buf;
  let type := default "" (MESSAGE_TYPES !! tag) in
  let message body account signature sequence block :=
    {| mainnet := mainnet; versionMax := byte_at 2; versionUsing := byte_at 3;
       versionMin := byte_at 4; type := type; extensions := extensions;
       body := body; account := account; signature := signature;
       sequence := sequence; block := block |} in
  if String.eqb type "keepalive" then
    check (length buf =? 152) else ParseError "invalid_block_length";
    do peers <- parse_peers buf;
    Ok (message (PPeers peers) None None None None)
  else if String.eqb type "publish" || String.eqb type "confirm_req" then
    do block <- parse_block buf extensions;
    Ok (message (PBlock block) None None None None)
  else if String.eqb type "confirm_ack" then
    let account := slice 8 40 buf in
    if minimalConfirmAck then
      Ok (message (PBytes (slice 8 (length buf) buf)) (Some (toHex account)) None None None)
    else
      let signature := slice 40 104 buf in
      let sequence := slice 104 112 buf in
      let msgCopy := slice 0 8 buf ++ slice 112 (length buf) buf in
      let msgCopy := <[5 := x03]> msgCopy in
      do blockParsed <- (if in_scope "parseMessage" then self msgCopy
                         else Err (ReferenceError "parseMessage"));
      match body blockParsed with
      | PBlock parsed =>
          match parsed !! "hash" with
          | Some h =>
              let msgCtx := blake2bInit 32 in
              let msgCtx := blake2bUpdate msgCtx (fromHex h) in
              let msgCtx := blake2bUpdate msgCtx sequence in
              let msgHash := blake2bFinal msgCtx in
              if sign_detached_verify msgHash signature account then
                Ok (message PNone (Some (toHex account)) (Some (toHex signature))
                      (Some (toHex sequence)) (Some parsed))
              else if in_scope "msg" then Err (ParseError "signature_invalid")
              else Err (ReferenceError "msg")
          | None => Err TypeError
          end
      | _ => Err TypeError
      end
  else
    Ok (message (PBytes (slice 8 (length buf) buf)) None None None None).

(** [NanoNode.parseMessage(buf, minimalConfirmAck)] *)
Definition parseMessage (buf : Buffer) (minimalConfirmAck : bool) : result Message :=
  parseMessage_body (fun _ => Err (ReferenceError "parseMessage")) buf minimalConfirmAck.
End Parse.

(** ** Chain reassembly *)

Definition inspect {A} (a : A) : {b : A | a = b} := exist _ a eq_refl.

Section Chain.
Context `{Crypto}.

(** The [while(buf.length > offset)] loop of [NanoNode.parseChain]. A
    [remaining] of [None] is [null]. The length of a block whose type
    byte is not an index of [BLOCK_LENGTHS] is [NaN]: the comparison with
    the buffer length is then false, the slice up to [NaN] is empty, and
    adding [NaN] to [offset] ends the loop. *)
Equations? parseChain_loop (buf : Buffer) (offset : nat) (remaining : option Buffer)
    (output : list ParsedBody) : result (list ParsedBody * option Buffer)
    by wf (length buf - offset) lt :=
  parseChain_loop buf offset remaining output with inspect (buf !! offset) := {
    | exist _ None _ => Ok (output, remaining)
    | exist _ (Some blockType) Hget with BLOCK_LENGTHS !! N.to_nat (Byte.to_N blockType) := {
        | None with parseMessage (BULK_PULL_PREFIX ++ slice offset 0 buf) false := {
            | Err e => Err e
            | Ok msg => Ok (output ++ [body msg], remaining) }
        | Some len with bool_decide (blockType = x01) := {
            | true => parseChain_loop buf (offset + (len + 1)) None output
            | false with length buf <? offset + (len + 1 + 64 + 8) := {
                | true =>
                    parseChain_loop buf (offset + (len + 1 + 64 + 8))
                      (Some (slice offset (length buf) buf)) output
                | false with parseMessage
                               (BULK_PULL_PREFIX
                                  ++ slice offset (offset + (len + 1 + 64 + 8)) buf) false := {
                    | Err e => Err e
                    | Ok msg =>
                        parseChain_loop buf (offset + (len + 1 + 64 + 8)) remaining
                          (output ++ [body msg]) } } } } }.
Proof.
  all: apply lookup_lt_Some in Hget; lia.
Qed.

(** [NanoNode.parseChain(buf)] *)
Definition parseChain (buf : Buffer) : result (list ParsedBody * option Buffer) :=
  parseChain_loop buf 0 (Some []) [].

(** One connection of [fetchAccount]: the blocks collected so far, the
    bytes held back for the next packet, and what the connection has
    pushed to [responses]. *)
Record pull : Type := {
  blocks : list ParsedBody;
  remaining : option Buffer;
  responses : list (list ParsedBody)
}.

Definition pull_start : pull :=
  {| blocks := []; remaining := Some (alloc 0); responses := [] |}.

(** The handler of the socket's [data] event. *)
Definition on_data (st : pull) (data : Buffer) : result pull :=
  do buf <- Buffer_concat [remaining st; Some data];
  do parsed <- parseChain buf;
  let remaining := snd parsed in
  let blocks := blocks st ++ fst parsed in
  Ok {| blocks := blocks;
        remaining := remaining;
        responses := match remaining with
                     | None => responses st ++ [blocks]
                     | Some _ => responses st
                     end |}.

(** The packets of a connection, in order of arrival. *)
Definition feed (st : pull) (packets : list Buffer) : result pull :=
  foldM on_data packets st.
End Chain.

(** ** The peer list *)

Record NanoNode : Type := {
  peers : list string;
  maxPeers : nat;
  minimalConfirmAck : bool
}.

(** The state the constructor sets up. *)
Definition new_node : NanoNode :=
  {| peers := ["rai.raiblocks.net:7075"]; maxPeers := 200; minimalConfirmAck := true |}.

(** "Add this responding peer to list": [indexOf], [splice], [unshift]
    and [pop] on [this.peers]. *)
Definition observe (node : NanoNode) (peerAddress : string) : NanoNode :=
  let peers := match indexOf peerAddress (peers node) with
               | Some peerIndex => delete peerIndex (peers node)
               | None => peers node
               end in
  let peers := peerAddress :: peers in
  let peers := if maxPeers node <? length peers then removelast peers else peers in
  {| peers := peers; maxPeers := maxPeers node; minimalConfirmAck := minimalConfirmAck node |}.


(** ** Vocabulary of the statements *)

(** A message object with the given [type] and [body] and no other property. *)
Definition plain (t : string) (b : Body) : Msg :=
  {| msg_type := Some t; msg_mainnet := None; msg_versionMax := None;
     msg_versionUsing := None; msg_versionMin := None; msg_extensions := None;
     msg_body := b |}.

(** The [extensions] property, when present, fits the 16-bit write. *)
Definition extensions_fit (msg : Msg) : Prop :=
  match msg_extensions msg with
  | Some e => (-32768 <= e <= 32767)%Z
  | None => True
  end.

(** "Removes the address if already present": the first occurrence. *)
Fixpoint remove_first (a : string) (l : list string) : list string :=
  match l with
  | [] => []
  | x :: l' => if decide (x = a) then l' else x :: remove_first a l'
  end.

(** "Drops the last entry when the length exceeds the capacity". *)
Definition drop_last_over (capacity : nat) (l : list string) : list string :=
  if capacity <? length l then removelast l else l.

(** An empty directory of the given capacity. *)
Definition empty_node (capacity : nat) : NanoNode :=
  {| peers := []; maxPeers := capacity; minimalConfirmAck := true |}.

(** A stand-in for the two libraries, to run the definitions on concrete
    inputs: the digest is the input cut or zero-padded to the digest
    length, the signature of a digest is the digest followed by the key,
    and the key is its own public key. *)
Definition sample_crypto : Crypto :=
  {| blake2b := fun n data => take n (data ++ replicate n x00);
     sign_detached := fun digest key => digest ++ key;
     sign_detached_verify := fun digest sig key => bool_decide (sig = digest ++ key) |}.

(** A receive block with every required field and its work, and no
    [signature] property. *)
Definition unsigned_receive : gmap string string :=
  {[ "type" := "receive";
     "previous" := "00112233445566778899aabbccddeeff00112233445566778899aabbccddeeff";
     "source" := "ffeeddccbbaa99887766554433221100ffeeddccbbaa99887766554433221100";
     "work" := "0102030405060708" ]}.

(** The header as [renderMessage] leaves it before it looks at the body;
    [tag] is the index of the type in [MESSAGE_TYPES]. *)
Definition header_of (msg : Msg) (tag : nat) : Buffer :=
  let header : Buffer :=
    [ x52;
      match msg_mainnet msg with
      | None | Some true => x43
      | Some false => x41
      end;
      byte_of_Z (or_default (msg_versionMax msg) 7);
      byte_of_Z (or_default (msg_versionUsing msg) 7);
      byte_of_Z (or_default (msg_versionMin msg) 1);
      byte_of_Z (Z.of_nat tag);
      x00; x00 ] in
  match msg_extensions msg with
  | Some e => <[7 := byte_of_Z e]> (<[6 := byte_of_Z (e / 256)]> header)
  | None => header
  end.

(** "A string of hexadecimal characters". *)
Definition is_hex (c : ascii) : bool :=
  match unhex c with
  | Some _ => true
  | None => false
  end.

Definition hex_digits (s : string) : bool := forallb is_hex (chars s).

(** The five block variants. *)
Definition variants : list string := ["send"; "receive"; "open"; "change"; "state"].

(** The mandated length of a field. *)
Definition field_length (field : string) : nat :=
  match prop field REQUIRED_FIELDS with
  | Some spec => length_ spec
  | None => 0
  end.

(** The block object of type [t] whose fields, signature and work are the
    hex forms of the given bytes; [vals] assigns bytes to field names. *)
Definition block_object (t : string) (fields : list string) (vals : string -> Buffer)
    (sig work : Buffer) : gmap string string :=
  <["work" := toHex work]>
    (<["signature" := toHex sig]>
       (foldl (fun block field => <[field := toHex (vals field)]> block)
              {["type" := t]} fields)).

(** The same block object without a [signature] property. *)
Definition unsigned_block_object (t : string) (fields : list string)
    (vals : string -> Buffer) (work : Buffer) : gmap string string :=
  <["work" := toHex work]>
    (foldl (fun block field => <[field := toHex (vals field)]> block)
           {["type" := t]} fields).

(** The work field of a rendered block message: its last 8 bytes. *)
Definition wire_work (bytes : Buffer) : Buffer := drop (length bytes - 8) bytes.

(** The type bytes of the five variants, and the length of a frame of a
    bulk_pull response: the type byte, the fields, the signature, the work. *)
Definition variant_bytes : list byte := [x02; x03; x04; x05; x06].

Definition frame_length (t : byte) : nat :=
  default 0 (BLOCK_LENGTHS !! N.to_nat (Byte.to_N t)) + 1 + 64 + 8.

(** A complete block frame. *)
Definition is_frame (f : Buffer) : Prop :=
  exists t, f !! 0 = Some t /\ t ∈ variant_bytes /\ length f = frame_length t.

(** The beginning of a frame, not yet complete: nothing at all, or a type
    byte followed by fewer bytes than its frame has. *)
Definition partial_frame (p : Buffer) : Prop :=
  p = [] \/ exists t, p !! 0 = Some t /\ t ∈ variant_bytes /\ length p < frame_length t.

Section Decoded.
Context `{Crypto}.

(** The block that [parseChain] pushes for a complete frame. *)
Definition decoded (f : Buffer) : ParsedBody :=
  match parseMessage (BULK_PULL_PREFIX ++ f) false with
  | Ok msg => body msg
  | Err _ => PNone
  end.
End Decoded.

(** A receive frame of 137 bytes. *)
Definition receive_frame : Buffer :=
  x03 :: replicate 32 x11 ++ replicate 32 x22 ++ replicate 64 x33 ++ replicate 8 x44.

(** ** The rest of the module *)

(** [s.lastIndexOf(c)]; [None] is -1. *)
Fixpoint lastIndexOf_from (c : ascii) (l : list ascii) (i : nat) (found : option nat)
    : option nat :=
  match l with
  | [] => found
  | x :: l' => lastIndexOf_from c l' (S i) (if Ascii.eqb x c then Some i else found)
  end.

Definition lastIndexOf (c : ascii) (s : string) : option nat :=
  lastIndexOf_from c (chars s) 0 None.

(** The result of [parseIp] on a string; a [port] of [None] is [NaN]. *)
Record AddrParts : Type := { addr_address : string; addr_port : option Z }.

(** [parseIp(buf)] for a string: the text before the last colon and the
    number after it. Without a colon, [slice(0, -1)] drops the last
    character and the port is parsed from the whole string. *)
Definition parseIp_string (buf : string) : AddrParts :=
  let l := chars buf in
  match lastIndexOf ":" buf with
  | Some portColon =>
      {| addr_address := str (take portColon l);
         addr_port := parseInt (str (drop (S portColon) l)) |}
  | None =>
      {| addr_address := str (take (length l - 1) l);
         addr_port := parseInt buf |}
  end.

(** [rinfo.address + ':' + rinfo.port], the key under which the handler
    of the [message] event records a sender. *)
Definition peerAddress (address : string) (port : Z) : string :=
  address +:+ ":" +:+ dec port.

(** The result of [pullStats]; [matchProportion] is the quotient
    [matches / returnCount] of the two counters kept here ([NaN] when both
    are 0). *)
Record Stats (A : Type) : Type := {
  stats_blocks : option (list A);
  stats_matches : nat;
  stats_returnCount : nat
}.
Arguments stats_blocks {A} _.
Arguments stats_matches {A} _.
Arguments stats_returnCount {A} _.

(** The [for] loop of [pullStats] from index [i] on; [rest] is
    [nonEmpties] from that index. *)
Fixpoint pullStats_loop {A} (rest : list (list A)) (i : nat)
    (maxLen : nat) (longIndex : option nat) (matches : nat) : nat * option nat * nat :=
  match rest with
  | [] => (maxLen, longIndex, matches)
  | r :: rest' =>
      if maxLen <? length r then pullStats_loop rest' (S i) (length r) (Some i) 1
      else if length r =? maxLen then pullStats_loop rest' (S i) maxLen longIndex (S matches)
      else pullStats_loop rest' (S i) maxLen longIndex matches
  end.

(** [pullStats(responses)] *)
Definition pullStats {A} (responses : list (list A)) : Stats A :=
  let nonEmpties := List.filter (fun response => 0 <? length response) responses in
  let '(maxLen, longIndex, matches) := pullStats_loop nonEmpties 0 0 None 0 in
  {| stats_blocks := match longIndex with
                     | Some i => nonEmpties !! i
                     | None => None
                     end;
     stats_matches := matches;
     stats_returnCount := length nonEmpties |}.

(** What [publish] hands to [client.send] for one peer. *)
Record Datagram : Type := {
  dg_message : option Buffer;
  dg_port : option Z;
  dg_address : string
}.

(** The first argument of [publish]: a rendered buffer or a message
    object. *)
Inductive Publication : Type :=
| Rendered_buffer (b : Buffer)
| To_render (msg : Msg).

(** [publish(msg, accountKey, callback)]: the datagrams handed to the
    socket, one per peer in the order of the list, and the value returned. *)
Definition publish `{Crypto} (node : NanoNode) (msg : Publication)
    (accountKey : option string) : result (list Datagram * option string) :=
  do msgBuffer <- match msg with
                  | Rendered_buffer b => Ok {| message := Some b; hash := None |}
                  | To_render m => renderMessage m accountKey
                  end;
  Ok (map (fun address =>
             let addrParts := parseIp_string address in
             {| dg_message := message msgBuffer;
                dg_port := addr_port addrParts;
                dg_address := addr_address addrParts |})
          (peers node),
      hash msgBuffer).

(** The events of the sockets of [fetchAccount], each with the index of
    its peer. *)
Inductive SocketEvent : Type :=
| EvData (data : Buffer)
| EvEnd
| EvError
| EvTimeout.

(** The variables of one call of [fetchAccount]: [blocks] and [remaining]
    of each connection, the shared [responses], [retCount] and [retLimit],
    and the statistics the callback has been called with. *)
Record Fetch : Type := {
  conns : list (list ParsedBody * option Buffer);
  fetch_responses : list (list ParsedBody);
  retCount : nat;
  retLimit : nat;
  callback_calls : list (Stats ParsedBody)
}.

Definition fetch_start (node : NanoNode) : Fetch :=
  {| conns := map (fun _ => ([], Some (alloc 0))) (peers node);
     fetch_responses := [];
     retCount := 0;
     retLimit := length (peers node);
     callback_calls := [] |}.

(** [clientReturn()], with a callback given. *)
Definition clientReturn (st : Fetch) : Fetch :=
  let retCount := S (retCount st) in
  {| conns := conns st;
     fetch_responses := fetch_responses st;
     retCount := retCount;
     retLimit := retLimit st;
     callback_calls :=
       if retCount =? retLimit st
       then callback_calls st ++ [pullStats (fetch_responses st)]
       else callback_calls st |}.

(** One event on the socket of peer [i]; an exception in the [data]
    handler is the [Err] case. *)
Definition fetch_event `{Crypto} (st : Fetch) (ev : nat * SocketEvent) : result Fetch :=
  let '(i, e) := ev in
  match e with
  | EvData data =>
      match conns st !! i with
      | Some (its_blocks, its_remaining) =>
          do conn <- on_data {| blocks := its_blocks; remaining := its_remaining;
                                responses := fetch_responses st |} data;
          Ok {| conns := <[i := (blocks conn, remaining conn)]> (conns st);
                fetch_responses := responses conn;
                retCount := retCount st;
                retLimit := retLimit st;
                callback_calls := callback_calls st |}
      | None => Ok st
      end
  | EvEnd | EvError | EvTimeout => Ok (clientReturn st)
  end.


(** * Properties *)

(** ** The tables and the helpers on concrete inputs *)

Example split_address :
  split (RClass [("."%char, "."%char); (":"%char, ":"%char)]) "1.2.3.4:7075"
  = ["1"; "2"; "3"; "4"; "7075"].
Proof. reflexivity. Qed.

Example parseInt_examples :
  parseInt "7075" = Some 7075%Z /\ parseInt "" = None /\ parseInt " -12x" = Some (-12)%Z
  /\ parseInt "x1" = None.
Proof. repeat split. Qed.

Example dec_hex_examples :
  dec 7075 = "7075" /\ hex 41755 = "a31b" /\ hex 0 = "0" /\ dec 0 = "0".
Proof. repeat split. Qed.

Example blockFields_table :
  blockFields "send" = Some ["previous"; "destination"; "balance"]
  /\ blockFields "receive" = Some ["previous"; "source"]
  /\ blockFields "open" = Some ["source"; "representative"; "account"]
  /\ blockFields "change" = Some ["previous"; "representative"]
  /\ blockFields "state" = Some ["account"; "previous"; "representative"; "balance"; "link"]
  /\ blockFields "invalid" = Some []
  /\ blockFields "toString" = None.
Proof. repeat split. Qed.

Example zero_address_is_the_sentinel :
  parseIp (alloc 18) 0 = Ok "[::]:0".
Proof. reflexivity. Qed.

Example zero_runs_collapse :
  let shorten s := replace COLONS [Lit "::"] (replace ZERO_RUN [Ref 1; Lit "::"; Ref 3] s) in
  shorten "0:0:0:0:0:0:0:0" = "::"
  /\ shorten "1:0:0:0:0:0:0:1" = "1::1"
  /\ shorten "0:0:0:0:ffff:506:708:a31b" = "::ffff:506:708:a31b"
  /\ shorten "fe80:0:0:0:1:0:0:1" = "fe80::1:0:0:1"
  /\ shorten "1:2:3:4:5:6:7:8" = "1:2:3:4:5:6:7:8"
  /\ replace ZERO_RUN [Ref 1; Lit "::"; Ref 3] "1:0:0:0:0:0:0:1" = "1::::1".
Proof. repeat split. Qed.

Example patterns_on_examples :
  test IPV6_PATTERN "[::1]:7075" = true
  /\ test IPV6_PATTERN "1.2.3.4:7075" = false
  /\ test IPV6_PATTERN "[::1]:" = false
  /\ test HEX64CHAR_PATTERN
       "0123456789abcdef0123456789ABCDEF0123456789abcdef0123456789ABCDEF" = true
  /\ test HEX64CHAR_PATTERN
       "0123456789abcdef0123456789ABCDEF0123456789abcdef0123456789ABCDEFF" = false
  /\ test HEX64CHAR_PATTERN
       "g123456789abcdef0123456789ABCDEF0123456789abcdef0123456789ABCDEF" = false.
Proof. repeat split. Qed.

Example fromHex_examples :
  fromHex "00ff1A" = [x00; xff; x1a] /\ fromHex "abc" = [xab] /\ fromHex "12zz34" = [x12]
  /\ toHex [x00; xff; x1a] = "00ff1a".
Proof. repeat split. Qed.

(** ** The peer list *)

Lemma splice_is_remove_first (a : string) (l : list string) :
  match indexOf a l with
  | Some i => delete i l
  | None => l
  end = remove_first a l.
Proof.
  induction l as [|x l IH]; simpl; [reflexivity|].
  destruct (decide (x = a)) as [->|Hne]; [reflexivity|].
  destruct (indexOf a l) as [i|]; simpl in *; congruence.
Qed.

Lemma observe_peers (node : NanoNode) (a : string) :
  peers (observe node a)
  = drop_last_over (maxPeers node) (a :: remove_first a (peers node)).
Proof.
  unfold observe, drop_last_over. cbn [peers maxPeers].
  rewrite splice_is_remove_first. reflexivity.
Qed.

Lemma observe_maxPeers (node : NanoNode) (a : string) :
  maxPeers (observe node a) = maxPeers node.
Proof. reflexivity. Qed.

(** C4, as the code has it: an observation removes the first occurrence
    of the address, puts the address in front and drops the last entry
    when the list has become longer than the capacity; after A, B, A, C
    (pairwise distinct) on an empty directory of capacity 2 the directory
    is [C, A], most recent first. *)
Theorem observe_moves_to_front (node : NanoNode) (a A B C : string) :
  A <> B -> A <> C -> B <> C ->
  peers (observe node a)
  = drop_last_over (maxPeers node) (a :: remove_first a (peers node))
  /\ peers (foldl observe (empty_node 2) [A; B; A; C]) = [C; A].
Proof.
  intros HAB HAC HBC. split; [apply observe_peers|].
  cbn [foldl]. rewrite !observe_peers, !observe_maxPeers.
  cbn [peers maxPeers empty_node remove_first drop_last_over length Nat.ltb Nat.leb removelast].
  repeat (destruct (decide _); try congruence; cbn).
  reflexivity.
Qed.

Lemma observe_moves_to_front_witness :
  peers (observe new_node "10.0.0.1:7075")
  = drop_last_over 200 ["10.0.0.1:7075"; "rai.raiblocks.net:7075"]
  /\ peers (foldl observe (empty_node 2) ["a:1"; "b:2"; "a:1"; "c:3"]) = ["c:3"; "a:1"].
Proof.
  apply (observe_moves_to_front new_node "10.0.0.1:7075" "a:1" "b:2" "c:3"); discriminate.
Defined.

(** C4 as stated fails: the directory after A, B, A, C is not [A, C]. *)
Lemma observe_A_B_A_C_is_not_A_C :
  peers (foldl observe (empty_node 2) ["A"; "B"; "A"; "C"]) = ["C"; "A"]
  /\ peers (foldl observe (empty_node 2) ["A"; "B"; "A"; "C"]) <> ["A"; "C"].
Proof. split; [reflexivity | discriminate]. Qed.

(** ** Rendering: the header and the branches without a block *)

Lemma writeInt16BE_fits (e : Z) (off : nat) (buf : Buffer) :
  (-32768 <= e <= 32767)%Z -> S off < length buf ->
  writeInt16BE e off buf
  = Ok (<[S off := byte_of_Z e]> (<[off := byte_of_Z (e / 256)]> buf)).
Proof.
  intros He Hoff. unfold writeInt16BE.
  replace ((-32768 <=? e)%Z) with true by (symmetry; apply Z.leb_le; lia).
  replace ((e <=? 32767)%Z) with true by (symmetry; apply Z.leb_le; lia).
  replace (S off <? length buf) with true by (symmetry; apply Nat.ltb_lt; lia).
  reflexivity.
Qed.

Ltac render_header :=
  match goal with
  | Hfit : extensions_fit ?msg |- _ =>
      unfold extensions_fit in Hfit;
      destruct (msg_extensions msg) as [e|];
      [ rewrite (writeInt16BE_fits e 6) by (assumption || (cbn; lia)) |];
      cbn [rbind]
  end.

Lemma render_frontier_req `{Crypto} (msg : Msg) (key : option string) :
  msg_type msg = Some "frontier_req" -> extensions_fit msg ->
  (forall b, msg_body msg <> BBuffer b) ->
  renderMessage msg key = Ok {| message := Some DEFAULT_FRONTIER_REQ; hash := None |}.
Proof.
  intros Hty Hfit Hbody. unfold renderMessage. rewrite Hty. cbn [mbind option_bind].
  change (indexOf "frontier_req" MESSAGE_TYPES) with (Some 8).
  render_header; destruct (msg_body msg) as [|b|s|l|o|t]; try reflexivity;
    try (exfalso; apply (Hbody b); reflexivity);
    cbn; rewrite ?andb_false_r; reflexivity.
Qed.

(** C7, what the code does: a frontier_req message is rendered as the
    36-byte default body alone; the header that was built is not part of
    the result. *)
Theorem frontier_req_is_body_only `{Crypto} :
  renderMessage (plain "frontier_req" BAbsent) None
  = Ok {| message := Some (alloc 32 ++ [xff; xff; xff; xff]); hash := None |}
  /\ length DEFAULT_FRONTIER_REQ = 36
  /\ take 8 DEFAULT_FRONTIER_REQ = alloc 8.
Proof. repeat split. Qed.

(** C10: a recognized type whose body matches no branch is rendered as
    [{ message: undefined, hash: null }] and nothing is thrown: publish,
    confirm_req or bulk_pull with a missing (or otherwise falsy) body, and
    invalid, not_a_type, confirm_ack or bulk_push with any body that is not
    a buffer. *)
Theorem render_without_branch `{Crypto} (msg : Msg) (key : option string) (t : string) :
  msg_type msg = Some t -> extensions_fit msg ->
  (t ∈ ["publish"; "confirm_req"; "bulk_pull"] /\ truthy (msg_body msg) = false)
  \/ (t ∈ ["invalid"; "not_a_type"; "confirm_ack"; "bulk_push"]
      /\ forall b, msg_body msg <> BBuffer b) ->
  renderMessage msg key = Ok {| message := None; hash := None |}.
Proof.
  intros Hty Hfit Hcase. unfold renderMessage. rewrite Hty. cbn [mbind option_bind].
  destruct Hcase as [[Ht Hfalsy]|[Ht Hbody]];
    repeat (apply elem_of_cons in Ht as [->|Ht]); try (apply elem_of_nil in Ht; contradiction).
  all: match goal with
       | |- context [indexOf ?t MESSAGE_TYPES] =>
           let v := eval vm_compute in (indexOf t MESSAGE_TYPES) in
           change (indexOf t MESSAGE_TYPES) with v
       end.
  all: render_header.
  all: destruct (msg_body msg) as [|b|s|l|o|p]; try discriminate;
    try (exfalso; apply (Hbody b); reflexivity).
  all: cbn in *; rewrite ?Hfalsy, ?andb_false_r; try reflexivity.
Qed.

Lemma render_without_branch_witness :
  @renderMessage sample_crypto (plain "publish" BAbsent) None
  = Ok {| message := None; hash := None |}
  /\ @renderMessage sample_crypto (plain "bulk_pull" BAbsent) None
     = Ok {| message := None; hash := None |}
  /\ @renderMessage sample_crypto (plain "bulk_push" (BString "00ff")) None
     = Ok {| message := None; hash := None |}.
Proof.
  split; [|split].
  - apply (@render_without_branch sample_crypto _ _ "publish"); [reflexivity | exact I |].
    left. split; [set_solver | reflexivity].
  - apply (@render_without_branch sample_crypto _ _ "bulk_pull"); [reflexivity | exact I |].
    left. split; [set_solver | reflexivity].
  - apply (@render_without_branch sample_crypto _ _ "bulk_push"); [reflexivity | exact I |].
    right. split; [set_solver | discriminate].
Defined.

(** ** Rendering a block that has no signature *)

(** C6, what the code does: with no [signature] property and no signing
    key, [signature] stays [undefined] and [Buffer.concat] throws a
    [TypeError]; no message is produced. With a key the same block is
    rendered. *)
Theorem unsigned_block_throws `{Crypto} :
  renderMessage (plain "publish" (BObject unsigned_receive)) None = Err TypeError
  /\ renderMessage (plain "confirm_req" (BObject unsigned_receive)) None = Err TypeError
  /\ renderMessage (plain "publish" (BObject unsigned_receive)) (Some "") = Err TypeError
  /\ exists bytes h,
       renderMessage (plain "publish" (BObject (<["signature" := toHex (alloc 64)]> unsigned_receive)))
         None = Ok {| message := Some bytes; hash := Some h |}.
Proof.
  split; [|split; [|split]]; try (vm_compute; reflexivity).
  eexists _, _. vm_compute. reflexivity.
Qed.

(** ** Votes *)

(** C2, what the code does: in full mode the parser calls the bare
    identifier [parseMessage], which is bound nowhere, so every
    confirm_ack message ends in a [ReferenceError], whatever its
    signature; nothing is verified and nothing is returned. *)
Theorem full_mode_vote_never_parses `{Crypto}
    (mainnet : bool) (v1 v2 v3 e1 e2 : byte) (rest : Buffer) :
  parseMessage
    ([x52; if mainnet then x43 else x41; v1; v2; v3; x05; e1; e2] ++ rest) false
  = Err (ReferenceError "parseMessage").
Proof.
  unfold parseMessage, parseMessage_body.
  destruct mainnet; reflexivity.
Qed.

(** In minimal mode the same message parses, as far as the account. *)
Lemma minimal_mode_vote_parses `{Crypto}
    (mainnet : bool) (v1 v2 v3 e1 e2 : byte) (rest : Buffer) :
  exists m,
    parseMessage
      ([x52; if mainnet then x43 else x41; v1; v2; v3; x05; e1; e2] ++ rest) true = Ok m
    /\ account m = Some (toHex (take 32 rest))
    /\ body m = PBytes rest.
Proof.
  unfold parseMessage, parseMessage_body.
  destruct mainnet; eexists; (split; [reflexivity|]); cbn [account body];
    unfold slice; cbn [drop app length Nat.sub];
    (split; [reflexivity|]); f_equal; apply take_ge; cbn; lia.
Qed.

(** ** Keepalive *)

(** C3 for a single peer: the round trip holds. *)
Lemma keepalive_single_peer `{Crypto} :
  exists bytes m,
    renderMessage (plain "keepalive" (BArray ["1.2.3.4:7075"])) None
    = Ok {| message := Some bytes; hash := None |}
    /\ length bytes = 152
    /\ parseMessage bytes true = Ok m
    /\ body m = PPeers ["1.2.3.4:7075"].
Proof.
  eexists _, _. split; [vm_compute; reflexivity|].
  split; [reflexivity|]. split; [vm_compute; reflexivity|]. reflexivity.
Qed.

(** C3, what the code does from the second peer on: the renderer places
    peer [index] at [16 * index], the parser reads entries of 18 bytes,
    so the second peer comes back as a different address. *)
Theorem keepalive_second_peer_is_misplaced `{Crypto} :
  exists bytes m,
    renderMessage (plain "keepalive" (BArray ["1.2.3.4:7075"; "5.6.7.8:7075"])) None
    = Ok {| message := Some bytes; hash := None |}
    /\ length bytes = 152
    /\ slice 34 42 bytes = [xff; xff; x05; x06; x07; x08; xa3; x1b]
    /\ parseMessage bytes true = Ok m
    /\ body m = PPeers ["1.2.3.4:7075"; "[::ffff:506:708:a31b]:0"].
Proof.
  eexists _, _. split; [vm_compute; reflexivity|].
  split; [reflexivity|]. split; [reflexivity|].
  split; [vm_compute; reflexivity|]. reflexivity.
Qed.

(** ** The account pattern of bulk_pull *)

Lemma rmatch_repeat_S {A} (lo hi : nat) (r : regex) (i : nat) (rest : list ascii)
    (caps : captures) (k : nat -> list ascii -> captures -> option A) :
  rmatch (RRepeat (S lo) (S hi) r) i rest caps k
  = rmatch r i rest caps (fun i' rest' caps' => rmatch (RRepeat lo hi r) i' rest' caps' k).
Proof. reflexivity. Qed.

Lemma rmatch_class {A} (cls : list (ascii * ascii)) (i : nat) (rest : list ascii)
    (caps : captures) (k : nat -> list ascii -> captures -> option A) :
  rmatch (RClass cls) i rest caps k
  = match rest with
    | x :: rest' => if in_class cls x then k (S i) rest' caps else None
    | [] => None
    end.
Proof. reflexivity. Qed.

Lemma rmatch_exactly_class {A} (n : nat) (cls : list (ascii * ascii)) :
  forall (i : nat) (rest : list ascii) (caps : captures)
         (k : nat -> list ascii -> captures -> option A),
    rmatch (RRepeat n n (RClass cls)) i rest caps k
    = if (n <=? length rest) && forallb (in_class cls) (take n rest)
      then k (n + i) (drop n rest) caps
      else None.
Proof.
  induction n as [|n IH]; intros i rest caps k.
  - reflexivity.
  - rewrite rmatch_repeat_S, rmatch_class. destruct rest as [|c rest]; [reflexivity|].
    cbn [length take drop forallb].
    destruct (in_class cls c); [|rewrite andb_false_r; reflexivity].
    rewrite IH. cbn [andb]. change (S n <=? S (length rest)) with (n <=? length rest).
    replace (n + S i) with (S n + i) by lia. reflexivity.
Qed.

Lemma rsearch_anchored_later (r : regex) (rest : list ascii) :
  forall i, rsearch (RSeq RBol r) (S i) rest = None.
Proof.
  induction rest as [|c rest IH]; intros i; cbn [rsearch rmatch Nat.eqb or_else];
    [reflexivity | apply IH].
Qed.

Lemma rmatch_seq {A} (r1 r2 : regex) (i : nat) (rest : list ascii)
    (caps : captures) (k : nat -> list ascii -> captures -> option A) :
  rmatch (RSeq r1 r2) i rest caps k
  = rmatch r1 i rest caps (fun i' rest' caps' => rmatch r2 i' rest' caps' k).
Proof. reflexivity. Qed.

Lemma rmatch_bol {A} (i : nat) (rest : list ascii)
    (caps : captures) (k : nat -> list ascii -> captures -> option A) :
  rmatch RBol i rest caps k = if i =? 0 then k i rest caps else None.
Proof. reflexivity. Qed.

Lemma rmatch_eol {A} (i : nat) (rest : list ascii)
    (caps : captures) (k : nat -> list ascii -> captures -> option A) :
  rmatch REol i rest caps k = match rest with [] => k i rest caps | _ :: _ => None end.
Proof. reflexivity. Qed.

Lemma rsearch_unfold (r : regex) (i : nat) (rest : list ascii) :
  rsearch r i rest
  = or_else (rmatch r i rest [] (fun e _ caps => Some (i, e, caps)))
            (match rest with
             | [] => None
             | _ :: rest' => rsearch r (S i) rest'
             end).
Proof. destruct rest; reflexivity. Qed.

Lemma test_HEX64CHAR_PATTERN (s : string) :
  test HEX64CHAR_PATTERN s
  = (length (chars s) =? 64)
    && forallb (in_class [("A", "F"); ("-", "-"); ("a", "f"); ("0", "9")]%char) (chars s).
Proof.
  unfold test, HEX64CHAR_PATTERN. set (l := chars s).
  rewrite rsearch_unfold.
  replace (match l with [] => None | _ :: rest' => rsearch _ 1 rest' end)
    with (@None (nat * nat * captures))
    by (destruct l; [reflexivity | symmetry; apply rsearch_anchored_later]).
  rewrite rmatch_seq, rmatch_bol, rmatch_seq, rmatch_exactly_class.
  cbn [Nat.eqb].
  destruct (64 <=? length l) eqn:Hle; cbn [andb].
  - apply Nat.leb_le in Hle.
    destruct (forallb _ (take 64 l)) eqn:Hall.
    + rewrite rmatch_eol. destruct (drop 64 l) as [|x xs] eqn:Hdrop.
      * assert (length l = 64).
        { apply (f_equal length) in Hdrop. rewrite length_drop in Hdrop. cbn in Hdrop. lia. }
        rewrite take_ge in Hall by lia. rewrite Hall.
        replace (length l =? 64) with true by (symmetry; apply Nat.eqb_eq; lia).
        reflexivity.
      * assert (length l <> 64).
        { apply (f_equal length) in Hdrop. rewrite length_drop in Hdrop. cbn in Hdrop. lia. }
        replace (length l =? 64) with false by (symmetry; apply Nat.eqb_neq; lia).
        reflexivity.
    + destruct (length l =? 64) eqn:Hlen; [|reflexivity].
      apply Nat.eqb_eq in Hlen. rewrite take_ge in Hall by lia. rewrite Hall. reflexivity.
  - apply Nat.leb_gt in Hle.
    replace (length l =? 64) with false by (symmetry; apply Nat.eqb_neq; lia).
    reflexivity.
Qed.

Lemma is_hex_in_class (c : ascii) :
  is_hex c = true ->
  in_class [("A", "F"); ("-", "-"); ("a", "f"); ("0", "9")]%char c = true.
Proof.
  destruct c as [[] [] [] [] [] [] [] []]; vm_compute; intros Hc; congruence.
Qed.

Lemma outside_class (c : ascii) :
  is_hex c = false -> c <> "-"%char ->
  in_class [("A", "F"); ("-", "-"); ("a", "f"); ("0", "9")]%char c = false.
Proof.
  destruct c as [[] [] [] [] [] [] [] []]; vm_compute; intros Hc Hd; congruence.
Qed.

Lemma chars_length (s : string) : length (chars s) = String.length s.
Proof. induction s as [|c s IH]; cbn; [reflexivity | f_equal; exact IH]. Qed.

Lemma fromHex_length (s : string) :
  hex_digits s = true -> length (fromHex s) = String.length s / 2.
Proof.
  revert s.
  enough (Hboth : forall s,
             (hex_digits s = true -> length (fromHex s) = String.length s / 2)
             /\ (forall c, hex_digits (String c s) = true ->
                           length (fromHex (String c s)) = String.length (String c s) / 2))
    by (intros s; apply Hboth).
  induction s as [|c2 s [IH1 IH2]].
  - split; [reflexivity | intros c _; reflexivity].
  - split; [apply IH2|]. intros c1 Hhex.
    unfold hex_digits, is_hex in Hhex. cbn [chars list_ascii_of_string forallb] in Hhex.
    cbn [fromHex].
    destruct (unhex c1); [|discriminate]. destruct (unhex c2); [|discriminate].
    cbn [andb] in Hhex. cbn [length String.length]. rewrite IH1 by exact Hhex.
    change (S (S (String.length s))) with (2 + String.length s).
    replace (2 + String.length s) with (1 * 2 + String.length s) by lia.
    rewrite Nat.div_add_l by lia. lia.
Qed.

Lemma test_accepts_hex64 (s : string) :
  String.length s = 64 -> hex_digits s = true -> test HEX64CHAR_PATTERN s = true.
Proof.
  intros Hlen Hhex. rewrite test_HEX64CHAR_PATTERN, chars_length, Hlen. cbn [Nat.eqb andb].
  apply forallb_forall. intros c Hc. apply is_hex_in_class.
  unfold hex_digits in Hhex. rewrite forallb_forall in Hhex. apply Hhex, Hc.
Qed.

Lemma test_rejects (s : string) :
  String.length s <> 64
  \/ (exists c, c ∈ chars s /\ is_hex c = false /\ c <> "-"%char) ->
  test HEX64CHAR_PATTERN s = false.
Proof.
  intros Hbad. rewrite test_HEX64CHAR_PATTERN, chars_length.
  destruct Hbad as [Hlen|(c & Hin & Hc & Hd)].
  - apply Nat.eqb_neq in Hlen. rewrite Hlen. reflexivity.
  - apply andb_false_iff. right. apply not_true_is_false. intros Hall.
    rewrite forallb_forall in Hall. apply list_elem_of_In in Hin.
    specialize (Hall c Hin). rewrite (outside_class c Hc Hd) in Hall. discriminate.
Qed.

(** C9, as the code has it: a buffer body bypasses the encoding and a
    missing or falsy body gives an undefined message; any other body that
    is not a string, or is a string whose length is not 64 or that holds a
    character other than a hexadecimal digit or a hyphen, fails with
    invalid_account; a string of exactly 64 hexadecimal digits is rendered
    as the header followed by the 32-byte key twice. *)
Theorem bulk_pull_rendering `{Crypto} (msg : Msg) (key : option string) :
  msg_type msg = Some "bulk_pull" -> extensions_fit msg ->
  match msg_body msg with
  | BBuffer b =>
      renderMessage msg key = Ok {| message := Some (header_of msg 6 ++ b); hash := None |}
  | BString s =>
      (s = "" -> renderMessage msg key = Ok {| message := None; hash := None |})
      /\ (String.length s = 64 -> hex_digits s = true ->
          renderMessage msg key
          = Ok {| message := Some (header_of msg 6 ++ fromHex s ++ fromHex s); hash := None |}
          /\ length (header_of msg 6) = 8 /\ length (fromHex s) = 32)
      /\ (s <> "" ->
          String.length s <> 64
          \/ (exists c, c ∈ chars s /\ is_hex c = false /\ c <> "-"%char) ->
          renderMessage msg key = Err (ParseError "invalid_account"))
  | BAbsent | BPrimitive false =>
      renderMessage msg key = Ok {| message := None; hash := None |}
  | BArray _ | BObject _ | BPrimitive true =>
      renderMessage msg key = Err (ParseError "invalid_account")
  end.
Proof.
  intros Hty Hfit. unfold renderMessage, header_of. rewrite Hty. cbn [mbind option_bind].
  change (indexOf "bulk_pull" MESSAGE_TYPES) with (Some 6).
  render_header.
  all: destruct (msg_body msg) as [|b|s|l|o|[]]; try reflexivity.
  all: split; [intros ->; reflexivity|].
  all: split;
    [ intros Hlen Hhex; split;
      [ destruct s; [discriminate|]; cbn;
        rewrite (test_accepts_hex64 _ Hlen Hhex); reflexivity
      | split; [reflexivity | rewrite fromHex_length, Hlen by exact Hhex; reflexivity] ]
    | intros Hne Hbad; destruct s; [congruence|]; cbn;
      rewrite (test_rejects _ Hbad); reflexivity ].
Qed.

Lemma bulk_pull_rendering_witness :
  let account := "0123456789abcdef0123456789ABCDEF0123456789abcdef0123456789ABCDEF" in
  @renderMessage sample_crypto (plain "bulk_pull" (BString account)) None
  = Ok {| message := Some ([x52; x43; x07; x07; x01; x06; x00; x00]
                             ++ fromHex account ++ fromHex account);
          hash := None |}
  /\ length (fromHex account) = 32.
Proof.
  intros account.
  pose proof (@bulk_pull_rendering sample_crypto (plain "bulk_pull" (BString account)) None
                eq_refl I) as (_ & Hok & _).
  destruct (Hok eq_refl eq_refl) as (Hr & _ & Hl). split; [exact Hr | exact Hl].
Defined.

(** C9 as stated fails: a bulk_pull message without a body is not a
    string of 64 hexadecimal characters, and rendering it does not fail. *)
Lemma bulk_pull_without_body_does_not_fail :
  @renderMessage sample_crypto (plain "bulk_pull" BAbsent) None
  = Ok {| message := None; hash := None |}
  /\ @renderMessage sample_crypto (plain "bulk_pull" BAbsent) None
     <> Err (ParseError "invalid_account").
Proof. split; [reflexivity | discriminate]. Qed.

(** The hyphen of the pattern: 64 hyphens pass the test and decode to no
    byte at all. *)
Lemma bulk_pull_hyphens `{Crypto} :
  renderMessage
    (plain "bulk_pull"
       (BString "----------------------------------------------------------------")) None
  = Ok {| message := Some [x52; x43; x07; x07; x01; x06; x00; x00]; hash := None |}.
Proof. vm_compute. reflexivity. Qed.

(** ** Hex strings and slices *)

Lemma fromHex_toHex (buf : Buffer) : fromHex (toHex buf) = buf.
Proof.
  induction buf as [|b buf IH]; [reflexivity|].
  cbn [toHex fromHex]. rewrite IH.
  destruct b; reflexivity.
Qed.

Lemma slice_middle (a b c : Buffer) (n m : nat) :
  n = length a -> m = n + length b -> slice n m (a ++ b ++ c) = b.
Proof.
  intros -> ->. unfold slice.
  rewrite drop_app_length. replace (length a + length b - length a) with (length b) by lia.
  apply take_app_length.
Qed.

Lemma slice_end (a b : Buffer) (n m : nat) :
  n = length a -> m = n + length b -> slice n m (a ++ b) = b.
Proof.
  intros Hn Hm. rewrite <- (app_nil_r b) at 1. apply slice_middle; assumption.
Qed.

Lemma Buffer_concat_all (l : list Buffer) : Buffer_concat (map Some l) = Ok (concat l).
Proof.
  induction l as [|b l IH]; [reflexivity|]. cbn. rewrite IH. reflexivity.
Qed.

Lemma Buffer_concat_app (l1 l2 : list (option Buffer)) (b1 : Buffer) :
  Buffer_concat l1 = Ok b1 ->
  Buffer_concat (l1 ++ l2) = do b2 <- Buffer_concat l2; Ok (b1 ++ b2).
Proof.
  revert b1. induction l1 as [|[x|] l1 IH]; intros b1 H1; cbn in *.
  - injection H1 as <-. destruct (Buffer_concat l2); reflexivity.
  - destruct (Buffer_concat l1) as [r|e] eqn:Hr; [|discriminate].
    injection H1 as <-. rewrite (IH r eq_refl).
    destruct (Buffer_concat l2); cbn; [rewrite app_assoc|]; reflexivity.
  - discriminate.
Qed.

(** ** Blocks: rendering and parsing the fields *)

Lemma fold_fields_other (g : string -> string) (fs : list string) :
  forall (b0 : gmap string string) (k : string),
    k ∉ fs -> foldl (fun b f => <[f := g f]> b) b0 fs !! k = b0 !! k.
Proof.
  induction fs as [|f fs IH]; intros b0 k Hk; [reflexivity|].
  cbn [foldl]. rewrite IH by set_solver.
  apply lookup_insert_ne. set_solver.
Qed.

Lemma fold_fields_lookup (g : string -> string) (fs : list string) :
  forall (b0 : gmap string string) (k : string),
    k ∈ fs -> foldl (fun b f => <[f := g f]> b) b0 fs !! k = Some (g k).
Proof.
  induction fs as [|f fs IH]; intros b0 k Hk; [apply elem_of_nil in Hk; contradiction|].
  cbn [foldl]. destruct (decide (k ∈ fs)) as [Hin|Hout].
  - apply IH, Hin.
  - rewrite fold_fields_other by exact Hout.
    apply elem_of_cons in Hk as [->|Hk]; [|contradiction]. apply lookup_insert_eq.
Qed.

Section Blocks.
Context `{Crypto}.
Variables (vals : string -> Buffer) (fields : list string).
Hypothesis known : Forall (fun f => is_Some (prop f REQUIRED_FIELDS)) fields.
Hypothesis lengths : forall f, f ∈ fields -> length (vals f) = field_length f.

Lemma render_values (body : gmap string string) (fs : list string) :
  fs ⊆ fields ->
  (forall f, f ∈ fs -> body !! f = Some (toHex (vals f))) ->
  mapM (field_value body) fs = Ok (map vals fs).
Proof.
  induction fs as [|f fs IH]; intros Hsub Hbody; [reflexivity|].
  assert (Hf : f ∈ fields) by set_solver.
  pose proof (lengths f Hf) as Hlen. unfold field_length in Hlen.
  pose proof known as Hknown. rewrite Forall_forall in Hknown.
  destruct (Hknown f Hf) as [spec Hspec]. rewrite Hspec in Hlen.
  cbn [mapM map]. unfold field_value at 1.
  rewrite Hbody by set_solver. cbn zeta. rewrite fromHex_toHex, Hspec, Hlen, Nat.eqb_refl.
  cbn [rbind].
  rewrite IH; [reflexivity | set_solver | intros; apply Hbody; set_solver].
Qed.

Lemma parse_fields (buf : Buffer) (fs : list string) :
  forall (pre post : Buffer) (b0 : gmap string string),
    fs ⊆ fields ->
    buf = pre ++ concat (map vals fs) ++ post ->
    foldM (read_field buf) fs (b0, length pre)
    = Ok (foldl (fun b f => <[f := toHex (vals f)]> b) b0 fs,
          length pre + length (concat (map vals fs))).
Proof.
  induction fs as [|f fs IH]; intros pre post b0 Hsub Hbuf.
  - cbn. rewrite Nat.add_0_r. reflexivity.
  - assert (Hf : f ∈ fields) by set_solver.
    pose proof (lengths f Hf) as Hlen. unfold field_length in Hlen.
    pose proof known as Hknown. rewrite Forall_forall in Hknown.
    destruct (Hknown f Hf) as [spec Hspec]. rewrite Hspec in Hlen.
    cbn [foldM foldl map concat]. unfold read_field at 1. rewrite Hspec. cbn zeta.
    cbn [rbind].
    assert (Hslice : slice (length pre) (length pre + length_ spec) buf = vals f).
    { rewrite Hbuf. cbn [map concat]. rewrite <- app_assoc.
      apply slice_middle; [reflexivity | congruence]. }
    rewrite Hslice.
    replace (length pre + length_ spec) with (length (pre ++ vals f))
      by (rewrite length_app; congruence).
    rewrite (IH (pre ++ vals f) post).
    + rewrite !length_app. f_equal. f_equal. lia.
    + set_solver.
    + rewrite Hbuf. cbn [map concat]. rewrite <- !app_assoc. reflexivity.
Qed.
End Blocks.

(** The wire form of the work value of a block of type [t]. *)
Lemma work_order (t : string) (work : Buffer) :
  t ∈ variants ->
  match indexOf t BIG_ENDIAN_WORK with
  | None => rev work
  | Some _ => work
  end = if String.eqb t "state" then work else rev work.
Proof.
  intros Ht. unfold variants in Ht.
  repeat (apply elem_of_cons in Ht as [->|Ht]); try reflexivity.
  apply elem_of_nil in Ht. contradiction.
Qed.

Lemma variant_fields (t : string) (fields : list string) :
  t ∈ variants -> blockFields t = Some fields ->
  Forall (fun f => is_Some (prop f REQUIRED_FIELDS)) fields
  /\ ("type" ∉ fields) /\ ("signature" ∉ fields) /\ ("work" ∉ fields)
  /\ ("hash" ∉ fields)
  /\ has_property t BLOCK_TYPES = true
  /\ (exists i, indexOf t BLOCK_TYPES_INDEX = Some i /\ BLOCK_TYPES_INDEX !! i = Some t
                /\ 2 <= i <= 6
                /\ BLOCK_LENGTHS !! i = Some (sum_list (map field_length fields))).
Proof.
  intros Ht Hfs. unfold variants in Ht.
  repeat (apply elem_of_cons in Ht as [->|Ht]); try (apply elem_of_nil in Ht; contradiction).
  all: vm_compute in Hfs; injection Hfs as <-.
  all: split; [repeat (constructor; [eexists; reflexivity|]); constructor|].
  all: do 4 (split; [rewrite !not_elem_of_cons; repeat split;
                     (discriminate || apply not_elem_of_nil)|]).
  all: split; [reflexivity|].
  all: eexists; split; [reflexivity|]; split; [reflexivity|]; split; [lia|reflexivity].
Qed.

Section BlockMessages.
Context `{Crypto}.
Variables (t : string) (fields : list string) (vals : string -> Buffer) (sig work : Buffer).
Hypothesis variant : t ∈ variants.
Hypothesis fields_of_t : blockFields t = Some fields.
Hypothesis lengths : forall f, f ∈ fields -> length (vals f) = field_length f.

Lemma block_object_type : block_object t fields vals sig work !! "type" = Some t.
Proof.
  destruct (variant_fields t fields variant fields_of_t) as (_ & Hty & _).
  unfold block_object. rewrite !lookup_insert_ne by discriminate.
  rewrite fold_fields_other by exact Hty. apply lookup_singleton_eq.
Qed.

Lemma block_object_field (f : string) :
  f ∈ fields -> block_object t fields vals sig work !! f = Some (toHex (vals f)).
Proof.
  intros Hf.
  destruct (variant_fields t fields variant fields_of_t) as (_ & _ & Hsig & Hwork & _).
  unfold block_object. rewrite !lookup_insert_ne by (intros <-; contradiction).
  apply (fold_fields_lookup (fun f => toHex (vals f))), Hf.
Qed.

Lemma payload_length :
  length (concat (map vals fields)) = sum_list (map field_length fields).
Proof.
  clear variant fields_of_t. induction fields as [|f fs IH]; [reflexivity|].
  cbn [map concat sum_list_with sum_list]. rewrite length_app, lengths by set_solver.
  unfold sum_list in *. cbn [map sum_list_with]. rewrite IH; [reflexivity|].
  intros g Hg. apply lengths. set_solver.
Qed.

(** What [render_block] returns for a complete block object. *)
Lemma render_block_complete (header : Buffer) (key : option string) (i : nat) :
  length header = 8 -> length work = 8 ->
  indexOf t BLOCK_TYPES_INDEX = Some i ->
  render_block header (block_object t fields vals sig work) key
  = Ok {| message :=
            Some (<[7 := byte_of_Z (Z.of_nat i)]> (<[6 := byte_of_Z (Z.of_nat i / 256)]> header)
                    ++ concat (map vals fields) ++ sig
                    ++ (if String.eqb t "state" then work else rev work));
          hash := Some (toHex (blake2b 32 (concat (map vals fields)))) |}.
Proof.
  intros Hheader Hwork Hi.
  destruct (variant_fields t fields variant fields_of_t)
    as (Hknown & _ & _ & _ & _ & Hprop & (i' & Hi' & _ & Hrange & _)).
  assert (i' = i) as -> by congruence.
  unfold render_block. rewrite block_object_type, Hprop, Hi.
  rewrite writeInt16BE_fits by lia. cbn [rbind]. rewrite fields_of_t.
  rewrite (render_values vals fields Hknown lengths)
    by (try reflexivity; intros; apply block_object_field; assumption).
  cbn [rbind].
  replace (block_object t fields vals sig work !! "signature") with (Some (toHex sig))
    by (unfold block_object; rewrite lookup_insert_ne by discriminate;
        symmetry; apply lookup_insert_eq).
  replace (block_object t fields vals sig work !! "work") with (Some (toHex work))
    by (unfold block_object; symmetry; apply lookup_insert_eq).
  cbn [rbind]. rewrite !fromHex_toHex, (work_order t work variant).
  replace (length (if String.eqb t "state" then work else rev work) =? 8) with true
    by (destruct (String.eqb t "state"); rewrite ?length_rev, Hwork; reflexivity).
  change ([Some ?h] ++ ?l) with (Some h :: l).
  cbn [Buffer_concat].
  rewrite (Buffer_concat_app _ _ _ (Buffer_concat_all _)). cbn [Buffer_concat rbind].
  rewrite app_nil_r. reflexivity.
Qed.

(** What [parse_block] returns on the bytes of a complete block. *)
Lemma parse_block_complete (header wire : Buffer) (i : nat) :
  length header = 8 -> length sig = 64 -> length wire = 8 ->
  BLOCK_TYPES_INDEX !! i = Some t ->
  parse_block (header ++ concat (map vals fields) ++ sig ++ wire) (Z.of_nat i)
  = Ok (<["work" := toHex (if String.eqb t "state" then wire else rev wire)]>
          (<["signature" := toHex sig]>
             (<["hash" := toHex (blake2b 32 (concat (map vals fields)))]>
                (foldl (fun b f => <[f := toHex (vals f)]> b) {["type" := t]} fields)))).
Proof.
  intros Hheader Hsig Hwire Hi.
  destruct (variant_fields t fields variant fields_of_t) as (Hknown & _).
  unfold parse_block. rewrite Nat2Z.id, Hi, fields_of_t.
  replace 8 with (length header) at 1 by exact Hheader.
  rewrite (parse_fields vals fields Hknown lengths _ fields header (sig ++ wire))
    by reflexivity.
  cbn [rbind]. set (payload := concat (map vals fields)).
  replace (length (header ++ payload ++ sig ++ wire) =? length header + length payload + 72)
    with true by (symmetry; apply Nat.eqb_eq; rewrite !length_app; lia).
  set (pos := length header + length payload).
  rewrite (slice_middle header payload (sig ++ wire) 8 pos) by (subst pos; lia).
  replace (header ++ payload ++ sig ++ wire) with ((header ++ payload) ++ sig ++ wire)
    by (rewrite <- app_assoc; reflexivity).
  rewrite (slice_middle (header ++ payload) sig wire pos (pos + 64))
    by (subst pos; rewrite ?length_app; lia).
  replace ((header ++ payload) ++ sig ++ wire) with ((header ++ payload ++ sig) ++ wire)
    by (rewrite <- !app_assoc; reflexivity).
  rewrite (slice_end (header ++ payload ++ sig) wire (pos + 64) (pos + 72))
    by (subst pos; rewrite ?length_app; lia).
  rewrite (work_order t wire variant). reflexivity.
Qed.
End BlockMessages.

(** ** Block messages: the round trip *)

Lemma header_write (a b c d e f g h x y : byte) :
  <[7 := y]> (<[6 := x]> [a; b; c; d; e; f; g; h]) = [a; b; c; d; e; f; x; y].
Proof. reflexivity. Qed.

Lemma block_index_bytes (i : nat) :
  2 <= i <= 6 ->
  byte_of_Z (Z.of_nat i / 256) = x00 /\ Z_of_byte (byte_of_Z (Z.of_nat i)) = Z.of_nat i.
Proof.
  intros Hi. do 7 (destruct i as [|i]; [try lia; split; reflexivity|]). lia.
Qed.

(** The parser on a message whose type byte is publish or confirm_req. *)
Lemma parseMessage_block `{Crypto} (mainnet : bool) (v1 v2 v3 e : byte) (publish : bool)
    (rest : Buffer) (minimal : bool) :
  let buf := [x52; if mainnet then x43 else x41; v1; v2; v3;
              if publish then x03 else x04; x00; e] ++ rest in
  parseMessage buf minimal
  = do block <- parse_block buf (Z_of_byte e);
    Ok {| mainnet := mainnet; versionMax := v1; versionUsing := v2; versionMin := v3;
          type := if publish then "publish" else "confirm_req";
          extensions := Z_of_byte e; body := PBlock block;
          account := None; signature := None; sequence := None; block := None |}.
Proof.
  destruct mainnet, publish; reflexivity.
Qed.

Lemma block_message_round_trip `{Crypto} (msg : Msg) (key : option string) (minimal : bool)
    (mtype t : string) (fields : list string) (vals : string -> Buffer) (sig work : Buffer) :
  mtype ∈ ["publish"; "confirm_req"] -> t ∈ variants ->
  msg_type msg = Some mtype -> extensions_fit msg ->
  blockFields t = Some fields ->
  (forall f, f ∈ fields -> length (vals f) = field_length f) ->
  length sig = 64 -> length work = 8 ->
  msg_body msg = BObject (block_object t fields vals sig work) ->
  exists header m,
    renderMessage msg key
    = Ok {| message := Some (header ++ concat (map vals fields) ++ sig
                               ++ (if String.eqb t "state" then work else rev work));
            hash := Some (toHex (blake2b 32 (concat (map vals fields)))) |}
    /\ length header = 8
    /\ parseMessage (header ++ concat (map vals fields) ++ sig
                       ++ (if String.eqb t "state" then work else rev work)) minimal
       = Ok m
    /\ type m = mtype
    /\ body m = PBlock (<["hash" := toHex (blake2b 32 (concat (map vals fields)))]>
                          (block_object t fields vals sig work)).
Proof.
  intros Hmtype Ht Hty Hfit Hfields Hlengths Hsig Hwork Hbody.
  destruct (variant_fields t fields Ht Hfields)
    as (_ & _ & _ & _ & _ & _ & (i & Hi & Hi' & Hrange & _)).
  destruct (block_index_bytes i Hrange) as [Hhi Hlo].
  assert (Hwire : length (if String.eqb t "state" then work else rev work) = 8)
    by (destruct (String.eqb t "state"); rewrite ?length_rev; exact Hwork).
  assert (Hunrev : (if String.eqb t "state"
                    then (if String.eqb t "state" then work else rev work)
                    else rev (if String.eqb t "state" then work else rev work)) = work)
    by (destruct (String.eqb t "state"); rewrite ?rev_involutive; reflexivity).
  assert (Hblock : forall hash : string,
             <["work" := toHex work]>
               (<["signature" := toHex sig]>
                  (<["hash" := hash]>
                     (foldl (fun b f => <[f := toHex (vals f)]> b) {["type" := t]} fields)))
             = <["hash" := hash]> (block_object t fields vals sig work)).
  { intros hash. unfold block_object.
    rewrite (insert_insert_ne _ "hash" "work") by discriminate.
    rewrite (insert_insert_ne _ "hash" "signature") by discriminate. reflexivity. }
  unfold renderMessage. rewrite Hty, Hbody. cbn [mbind option_bind].
  destruct (msg_mainnet msg) as [[|]|];
    repeat (apply elem_of_cons in Hmtype as [->|Hmtype]);
    try (apply elem_of_nil in Hmtype; contradiction).
  all: first [ progress change (indexOf "publish" MESSAGE_TYPES) with (Some 3)
             | progress change (indexOf "confirm_req" MESSAGE_TYPES) with (Some 4) ].
  all: render_header; cbn [truthy andb orb bool_decide decide_rel]; rewrite ?header_write.
  all: rewrite (render_block_complete t fields vals sig work Ht Hfields Hlengths _ key i)
         by (reflexivity || assumption).
  all: rewrite header_write, Hhi.
  all: eexists _, _; (split; [reflexivity|]); (split; [reflexivity|]).
  all: first [ rewrite (parseMessage_block true _ _ _ _ true)
             | rewrite (parseMessage_block true _ _ _ _ false)
             | rewrite (parseMessage_block false _ _ _ _ true)
             | rewrite (parseMessage_block false _ _ _ _ false) ].
  all: cbv zeta; rewrite Hlo.
  all: rewrite (parse_block_complete t fields vals sig Ht Hfields Hlengths)
         by (reflexivity || assumption).
  all: cbn [rbind type body]; rewrite Hunrev, Hblock.
  all: split; [reflexivity|]; split; reflexivity.
Qed.

(** C1: a block of any of the five variants, with every required field
    at its mandated length, a 64-byte signature and an 8-byte work value,
    rendered as a publish (or confirm_req) message and parsed back, gives
    the same block object, with the hash the renderer returned added to
    it: the same fields, signature and work, and the same hash. *)
Theorem block_round_trip `{Crypto} (msg : Msg) (key : option string) (minimal : bool)
    (mtype t : string) (fields : list string) (vals : string -> Buffer) (sig work : Buffer) :
  mtype ∈ ["publish"; "confirm_req"] -> t ∈ variants ->
  msg_type msg = Some mtype -> extensions_fit msg ->
  blockFields t = Some fields ->
  (forall f, f ∈ fields -> length (vals f) = field_length f) ->
  length sig = 64 -> length work = 8 ->
  msg_body msg = BObject (block_object t fields vals sig work) ->
  exists bytes h m,
    renderMessage msg key = Ok {| message := Some bytes; hash := Some h |}
    /\ parseMessage bytes minimal = Ok m
    /\ type m = mtype
    /\ body m = PBlock (<["hash" := h]> (block_object t fields vals sig work)).
Proof.
  intros Hmtype Ht Hty Hfit Hfields Hlengths Hsig Hwork Hbody.
  destruct (block_message_round_trip msg key minimal mtype t fields vals sig work
              Hmtype Ht Hty Hfit Hfields Hlengths Hsig Hwork Hbody)
    as (header & m & Hrender & _ & Hparse & Htype & Hm).
  exists (header ++ concat (map vals fields) ++ sig
            ++ (if String.eqb t "state" then work else rev work)),
    (toHex (blake2b 32 (concat (map vals fields)))), m.
  repeat split; assumption.
Qed.

Lemma block_round_trip_witness :
  let vals := fun f => replicate (field_length f) x2a in
  let block := block_object "send" ["previous"; "destination"; "balance"] vals
                 (replicate 64 x07) [x01; x02; x03; x04; x05; x06; x07; x08] in
  exists bytes h m,
    @renderMessage sample_crypto (plain "publish" (BObject block)) None
    = Ok {| message := Some bytes; hash := Some h |}
    /\ @parseMessage sample_crypto bytes false = Ok m
    /\ type m = "publish"
    /\ body m = PBlock (<["hash" := h]> block).
Proof.
  intros vals block.
  apply (@block_round_trip sample_crypto _ None false "publish" "send"
           ["previous"; "destination"; "balance"] vals).
  - apply list_elem_of_here.
  - apply list_elem_of_here.
  - reflexivity.
  - exact I.
  - reflexivity.
  - intros f _. apply length_replicate.
  - reflexivity.
  - reflexivity.
  - reflexivity.
Defined.

Lemma wire_work_of_message (header payload sig wire : Buffer) :
  length wire = 8 -> wire_work (header ++ payload ++ sig ++ wire) = wire.
Proof.
  intros Hwire. unfold wire_work. rewrite !app_assoc.
  apply drop_app_length'. rewrite (length_app _ wire). lia.
Qed.

(** C8: from the same 8 bytes of work, the work field on the wire of a
    state block is those bytes in order and the work field of a block of
    any other variant is those bytes reversed, so the two are
    byte-reversals of each other; parsing either message gives back the
    hex form of the original bytes. *)
Theorem work_endianness `{Crypto} (key : option string) (minimal : bool)
    (t : string) (fields state_fields : list string)
    (vals state_vals : string -> Buffer) (sig state_sig work : Buffer) :
  t ∈ variants -> t <> "state" ->
  blockFields t = Some fields -> blockFields "state" = Some state_fields ->
  (forall f, f ∈ fields -> length (vals f) = field_length f) ->
  (forall f, f ∈ state_fields -> length (state_vals f) = field_length f) ->
  length sig = 64 -> length state_sig = 64 -> length work = 8 ->
  exists bytes state_bytes h state_h m state_m block state_block,
    renderMessage (plain "publish" (BObject (block_object t fields vals sig work))) key
    = Ok {| message := Some bytes; hash := Some h |}
    /\ renderMessage
         (plain "publish"
            (BObject (block_object "state" state_fields state_vals state_sig work))) key
       = Ok {| message := Some state_bytes; hash := Some state_h |}
    /\ wire_work state_bytes = work
    /\ wire_work bytes = rev work
    /\ wire_work bytes = rev (wire_work state_bytes)
    /\ parseMessage bytes minimal = Ok m /\ body m = PBlock block
    /\ block !! "work" = Some (toHex work)
    /\ parseMessage state_bytes minimal = Ok state_m /\ body state_m = PBlock state_block
    /\ state_block !! "work" = Some (toHex work).
Proof.
  intros Ht Hns Hfields Hsfields Hlengths Hslengths Hsig Hssig Hwork.
  assert (Hpub : "publish" ∈ ["publish"; "confirm_req"]) by apply list_elem_of_here.
  assert (Hstate : "state" ∈ variants)
    by (unfold variants; do 4 apply list_elem_of_further; apply list_elem_of_here).
  destruct (block_message_round_trip (plain "publish" (BObject (block_object t fields vals sig work)))
              key minimal "publish" t fields vals sig work
              Hpub Ht eq_refl I Hfields Hlengths Hsig Hwork eq_refl)
    as (header & m & Hrender & _ & Hparse & _ & Hm).
  destruct (block_message_round_trip
              (plain "publish" (BObject (block_object "state" state_fields state_vals state_sig work)))
              key minimal "publish" "state" state_fields state_vals state_sig work
              Hpub Hstate eq_refl I Hsfields Hslengths Hssig Hwork eq_refl)
    as (sheader & sm & Hsrender & _ & Hsparse & _ & Hsm).
  apply String.eqb_neq in Hns. rewrite Hns in *. cbn [String.eqb Ascii.eqb Bool.eqb] in *.
  do 8 eexists.
  split; [exact Hrender|]. split; [exact Hsrender|].
  rewrite !wire_work_of_message by (rewrite ?length_rev; exact Hwork).
  split; [reflexivity|]. split; [reflexivity|]. split; [reflexivity|].
  split; [exact Hparse|]. split; [exact Hm|].
  split; [rewrite lookup_insert_ne by discriminate; apply lookup_insert_eq|].
  split; [exact Hsparse|]. split; [exact Hsm|].
  rewrite lookup_insert_ne by discriminate. apply lookup_insert_eq.
Qed.

Lemma work_endianness_witness :
  let vals := fun f => replicate (field_length f) x2a in
  let work := [x01; x02; x03; x04; x05; x06; x07; x08] in
  exists bytes state_bytes h state_h m state_m block state_block,
    @renderMessage sample_crypto
      (plain "publish"
         (BObject (block_object "send" ["previous"; "destination"; "balance"] vals
                     (replicate 64 x07) work))) None
    = Ok {| message := Some bytes; hash := Some h |}
    /\ @renderMessage sample_crypto
         (plain "publish"
            (BObject (block_object "state"
                        ["account"; "previous"; "representative"; "balance"; "link"] vals
                        (replicate 64 x09) work))) None
       = Ok {| message := Some state_bytes; hash := Some state_h |}
    /\ wire_work state_bytes = work
    /\ wire_work bytes = rev work
    /\ wire_work bytes = rev (wire_work state_bytes)
    /\ @parseMessage sample_crypto bytes false = Ok m /\ body m = PBlock block
    /\ block !! "work" = Some (toHex work)
    /\ @parseMessage sample_crypto state_bytes false = Ok state_m
    /\ body state_m = PBlock state_block
    /\ state_block !! "work" = Some (toHex work).
Proof.
  intros vals work.
  apply (@work_endianness sample_crypto None false "send").
  - unfold variants. apply list_elem_of_here.
  - discriminate.
  - reflexivity.
  - reflexivity.
  - intros f _. apply length_replicate.
  - intros f _. apply length_replicate.
  - reflexivity.
  - reflexivity.
  - reflexivity.
Defined.

(** ** Chain reassembly *)

Lemma read_fields_total (buf : Buffer) (fs : list string) :
  Forall (fun f => is_Some (prop f REQUIRED_FIELDS)) fs ->
  forall (b0 : gmap string string) (pos : nat),
    exists b, foldM (read_field buf) fs (b0, pos) = Ok (b, pos + sum_list (map field_length fs)).
Proof.
  induction 1 as [|f fs [spec Hspec] _ IH]; intros b0 pos.
  - exists b0. cbn. rewrite Nat.add_0_r. reflexivity.
  - cbn [foldM]. unfold read_field at 1. rewrite Hspec. cbn zeta. cbn [rbind].
    destruct (IH (<[f := toHex (slice pos (pos + length_ spec) buf)]> b0) (pos + length_ spec))
      as [b Hb].
    exists b. rewrite Hb. cbn [map]. unfold field_length at 2. rewrite Hspec.
    unfold sum_list. cbn [sum_list_with]. unfold id. rewrite Nat.add_assoc. reflexivity.
Qed.

Lemma variant_of_byte (t : byte) :
  t ∈ variant_bytes ->
  exists name fields i,
    name ∈ variants /\ blockFields name = Some fields
    /\ Z_of_byte t = Z.of_nat i /\ N.to_nat (Byte.to_N t) = i
    /\ BLOCK_TYPES_INDEX !! i = Some name
    /\ BLOCK_LENGTHS !! i = Some (sum_list (map field_length fields)).
Proof.
  intros Ht. unfold variant_bytes in Ht.
  repeat (apply elem_of_cons in Ht as [->|Ht]); try (apply elem_of_nil in Ht; contradiction).
  - exists "send", ["previous"; "destination"; "balance"], 2.
    repeat split; unfold variants; repeat constructor.
  - exists "receive", ["previous"; "source"], 3.
    repeat split; unfold variants; repeat constructor.
  - exists "open", ["source"; "representative"; "account"], 4.
    repeat split; unfold variants; repeat constructor.
  - exists "change", ["previous"; "representative"], 5.
    repeat split; unfold variants; repeat constructor.
  - exists "state", ["account"; "previous"; "representative"; "balance"; "link"], 6.
    repeat split; unfold variants; repeat constructor.
Qed.

Lemma frame_decodes `{Crypto} (f : Buffer) :
  is_frame f ->
  exists msg b, parseMessage (BULK_PULL_PREFIX ++ f) false = Ok msg
                /\ body msg = PBlock b /\ decoded f = PBlock b.
Proof.
  intros (t & Hhead & Ht & Hlen).
  destruct (variant_of_byte t Ht) as (name & fields & i & Hname & Hfields & Hz & Hn & Hidx & Hbl).
  destruct (variant_fields name fields Hname Hfields) as (Hknown & _).
  destruct f as [|t' payload]; [discriminate|]. injection Hhead as ->.
  unfold frame_length in Hlen. rewrite Hn, Hbl in Hlen. cbn [default length] in Hlen.
  assert (Hparse : exists msg b,
             parseMessage (BULK_PULL_PREFIX ++ t :: payload) false = Ok msg
             /\ body msg = PBlock b).
  { change (BULK_PULL_PREFIX ++ t :: payload)
      with ([x52; if true then x43 else x41; x05; x05; x01;
             if true then x03 else x04; x00; t] ++ payload).
    rewrite parseMessage_block. cbv zeta.
    unfold parse_block. rewrite Hz, Nat2Z.id, Hidx, Hfields.
    destruct (read_fields_total
                ([x52; if true then x43 else x41; x05; x05; x01;
                  if true then x03 else x04; x00; t] ++ payload)
                fields Hknown {["type" := name]} 8) as [b Hb].
    rewrite Hb. cbn [rbind].
    match goal with
    | |- context [length ?l =? ?n] =>
        replace (length l =? n) with true
          by (symmetry; apply Nat.eqb_eq; rewrite length_app; cbn [length];
              unfold sum_list, id in *; lia)
    end.
    eexists _, _. split; reflexivity. }
  destruct Hparse as (msg & b & Hmsg & Hb). exists msg, b.
  unfold decoded. rewrite Hmsg. auto.
Qed.

(** One turn of the loop. *)
Lemma parseChain_loop_step `{Crypto} (buf : Buffer) (offset : nat)
    (remaining : option Buffer) (output : list ParsedBody) :
  parseChain_loop buf offset remaining output
  = match buf !! offset with
    | None => Ok (output, remaining)
    | Some blockType =>
        match BLOCK_LENGTHS !! N.to_nat (Byte.to_N blockType) with
        | None =>
            match parseMessage (BULK_PULL_PREFIX ++ slice offset 0 buf) false with
            | Err e => Err e
            | Ok msg => Ok (output ++ [body msg], remaining)
            end
        | Some len =>
            if bool_decide (blockType = x01) then
              parseChain_loop buf (offset + (len + 1)) None output
            else if length buf <? offset + (len + 1 + 64 + 8) then
              parseChain_loop buf (offset + (len + 1 + 64 + 8))
                (Some (slice offset (length buf) buf)) output
            else
              match parseMessage
                      (BULK_PULL_PREFIX ++ slice offset (offset + (len + 1 + 64 + 8)) buf)
                      false with
              | Err e => Err e
              | Ok msg =>
                  parseChain_loop buf (offset + (len + 1 + 64 + 8)) remaining
                    (output ++ [body msg])
              end
        end
    end.
Proof.
  funelim (parseChain_loop buf offset remaining output);
    try match goal with Hcall : _ = parseChain_loop _ _ _ _ |- _ => clear Hcall end;
    repeat match goal with
           | Heq : ?a = _ |- context [match ?a with _ => _ end] => rewrite Heq
           | Heq : ?a = _ |- context [if ?a then _ else _] => rewrite Heq
           end;
    reflexivity.
Qed.

Lemma variant_byte_facts (t : byte) :
  t ∈ variant_bytes ->
  t <> x01 /\ exists len, BLOCK_LENGTHS !! N.to_nat (Byte.to_N t) = Some len
                          /\ frame_length t = len + 1 + 64 + 8.
Proof.
  intros Ht. unfold variant_bytes in Ht.
  repeat (apply elem_of_cons in Ht as [->|Ht]); try (apply elem_of_nil in Ht; contradiction).
  all: split; [discriminate | eexists; split; reflexivity].
Qed.

Section Loop.
Context `{Crypto}.

Lemma loop_end (buf : Buffer) (offset : nat) (rem : option Buffer) (out : list ParsedBody) :
  length buf <= offset -> parseChain_loop buf offset rem out = Ok (out, rem).
Proof.
  intros Hle. rewrite parseChain_loop_step, lookup_ge_None_2 by exact Hle. reflexivity.
Qed.

(** A complete frame at the offset is decoded and the loop goes on after it. *)
Lemma loop_frame (buf pre f tail : Buffer) (rem : option Buffer) (out : list ParsedBody) :
  is_frame f -> buf = pre ++ f ++ tail ->
  parseChain_loop buf (length pre) rem out
  = parseChain_loop buf (length (pre ++ f)) rem (out ++ [decoded f]).
Proof.
  intros Hf Hbuf. destruct (frame_decodes f Hf) as (msg & b & Hmsg & Hb & Hdec).
  destruct Hf as (t & Hhead & Ht & Hlen).
  destruct (variant_byte_facts t Ht) as (Hne & len & Hbl & Hfl).
  rewrite parseChain_loop_step.
  assert (Hat : buf !! length pre = Some t).
  { rewrite Hbuf, lookup_app_r, Nat.sub_diag by lia.
    destruct f; [discriminate|]. exact Hhead. }
  rewrite Hat, Hbl. rewrite bool_decide_eq_false_2 by exact Hne.
  replace (length buf <? length pre + (len + 1 + 64 + 8)) with false
    by (symmetry; apply Nat.ltb_ge; rewrite Hbuf, !length_app; lia).
  rewrite Hbuf at 1.
  rewrite (slice_middle pre f tail) by lia.
  rewrite Hmsg, Hdec, <- Hb, length_app. do 2 f_equal. lia.
Qed.

Lemma loop_frames (buf : Buffer) (frames : list Buffer) :
  forall (pre tail : Buffer) (rem : option Buffer) (out : list ParsedBody),
    Forall is_frame frames -> buf = pre ++ concat frames ++ tail ->
    parseChain_loop buf (length pre) rem out
    = parseChain_loop buf (length (pre ++ concat frames)) rem (out ++ map decoded frames).
Proof.
  induction frames as [|f frames IH]; intros pre tail rem out Hfs Hbuf.
  - cbn [concat map]. rewrite !app_nil_r. reflexivity.
  - apply Forall_cons in Hfs as [Hf Hfs]. cbn [concat map] in *.
    rewrite (loop_frame buf pre f (concat frames ++ tail))
      by (assumption || (rewrite Hbuf, <- app_assoc; reflexivity)).
    rewrite (IH (pre ++ f) tail)
      by (assumption || (rewrite Hbuf, <- !app_assoc; reflexivity)).
    rewrite <- !app_assoc. reflexivity.
Qed.

(** The beginning of a frame at the offset is held back. *)
Lemma loop_partial (buf pre p : Buffer) (rem : option Buffer) (out : list ParsedBody) :
  partial_frame p -> buf = pre ++ p ->
  parseChain_loop buf (length pre) rem out
  = Ok (out, match p with [] => rem | _ :: _ => Some p end).
Proof.
  intros [->|(t & Hhead & Ht & Hlen)] Hbuf.
  - apply loop_end. rewrite Hbuf, app_nil_r. lia.
  - destruct (variant_byte_facts t Ht) as (Hne & len & Hbl & Hfl).
    rewrite parseChain_loop_step.
    assert (Hat : buf !! length pre = Some t).
    { rewrite Hbuf, lookup_app_r, Nat.sub_diag by lia. exact Hhead. }
    rewrite Hat, Hbl. rewrite bool_decide_eq_false_2 by exact Hne.
    replace (length buf <? length pre + (len + 1 + 64 + 8)) with true
      by (symmetry; apply Nat.ltb_lt; rewrite Hbuf, !length_app; lia).
    rewrite loop_end by (rewrite Hbuf, !length_app; lia).
    rewrite Hbuf at 2. rewrite (slice_end pre p) by (rewrite ?Hbuf, ?length_app; lia).
    destruct p; [discriminate | reflexivity].
Qed.

(** [parseChain] on complete frames followed by the beginning of one. *)
Lemma parseChain_frames (frames : list Buffer) (p : Buffer) :
  Forall is_frame frames -> partial_frame p ->
  parseChain (concat frames ++ p) = Ok (map decoded frames, Some p).
Proof.
  intros Hfs Hp. unfold parseChain.
  change 0 with (length (@nil byte)).
  rewrite (loop_frames _ frames [] p) by (assumption || reflexivity).
  cbn [app].
  rewrite (loop_partial _ (concat frames) p) by (assumption || reflexivity).
  destruct p; reflexivity.
Qed.
End Loop.

Lemma frame_nonempty (f : Buffer) : is_frame f -> 0 < length f.
Proof. intros (t & Hhead & _). destruct f; [discriminate | cbn; lia]. Qed.

(** What has arrived of a stream of frames is some complete frames and
    the beginning of the next. *)
Lemma split_frames (frames : list Buffer) :
  Forall is_frame frames ->
  forall x, x `prefix_of` concat frames ->
    exists done p, x = concat done ++ p /\ done `prefix_of` frames /\ partial_frame p.
Proof.
  induction 1 as [|f frames Hf _ IH]; intros x Hx.
  - apply prefix_nil_inv in Hx as ->. exists [], []. repeat split.
    + apply prefix_nil.
    + left. reflexivity.
  - cbn [concat] in Hx. destruct (decide (length f <= length x)) as [Hle|Hlt].
    + destruct Hx as [k Hk].
      assert (Hxf : x = f ++ drop (length f) x).
      { rewrite <- (take_drop (length f) x) at 1. f_equal.
        apply (f_equal (take (length f))) in Hk.
        rewrite take_app_length, take_app_le in Hk by exact Hle. congruence. }
      destruct (IH (drop (length f) x)) as (done & p & Hdp & Hpre & Hp).
      { exists k. apply (app_inv_head f). rewrite app_assoc, <- Hxf. exact Hk. }
      exists (f :: done), p. repeat split.
      * cbn [concat]. rewrite <- app_assoc, <- Hdp. exact Hxf.
      * apply prefix_cons, Hpre.
      * exact Hp.
    + exists [], x. repeat split; [apply prefix_nil|].
      destruct x as [|b x]; [left; reflexivity|]. right.
      destruct Hf as (t & Hhead & Ht & Hlen). exists t.
      destruct Hx as [k Hk]. destruct f as [|t' f]; [discriminate|].
      injection Hhead as ->. injection Hk as -> _.
      repeat split; [assumption | lia].
Qed.

Lemma foldM_snoc {A S} (f : S -> A -> result S) (l : list A) (x : A) (s : S) :
  foldM f (l ++ [x]) s = do s' <- foldM f l s; f s' x.
Proof.
  revert s. induction l as [|y l IH]; intros s; cbn [foldM app rbind].
  - destruct (f s x); reflexivity.
  - destruct (f s y); cbn [rbind]; [apply IH | reflexivity].
Qed.

(** The state of a connection after any number of packets of a stream of
    complete frames. *)
Lemma feed_prefix `{Crypto} (frames : list Buffer) :
  Forall is_frame frames ->
  forall packets, concat packets `prefix_of` concat frames ->
    exists done p,
      concat packets = concat done ++ p /\ done `prefix_of` frames /\ partial_frame p
      /\ feed pull_start packets
         = Ok {| blocks := map decoded done; remaining := Some p; responses := [] |}.
Proof.
  intros Hfs packets. induction packets as [|packet packets IH] using rev_ind; intros Hpre.
  - exists [], []. repeat split; [apply prefix_nil | left; reflexivity].
  - rewrite concat_app in Hpre. cbn [concat] in Hpre. rewrite app_nil_r in Hpre.
    destruct IH as (done & p & Hdp & Hdone & Hp & Hfeed).
    { eapply prefix_app_l. exact Hpre. }
    destruct Hdone as [later ->].
    apply Forall_app in Hfs as [Hfs1 Hfs2].
    destruct (split_frames later Hfs2 (p ++ packet)) as (done' & p' & Hdp' & Hdone' & Hp').
    { rewrite Hdp, concat_app, <- app_assoc in Hpre.
      apply prefix_app_inv in Hpre. exact Hpre. }
    assert (Hfs' : Forall is_frame done').
    { destruct Hdone' as [k ->]. apply Forall_app in Hfs2 as [Hd _]. exact Hd. }
    exists (done ++ done'), p'. repeat split.
    + rewrite !concat_app. cbn [concat]. rewrite app_nil_r, Hdp, <- !app_assoc, Hdp'.
      reflexivity.
    + apply prefix_app, Hdone'.
    + exact Hp'.
    + unfold feed in *. rewrite foldM_snoc, Hfeed. cbn [rbind].
      unfold on_data. cbn [remaining blocks responses Buffer_concat rbind].
      rewrite app_nil_r, Hdp', (parseChain_frames done' p' Hfs' Hp'). cbn [rbind fst snd].
      rewrite map_app. reflexivity.
Qed.

Lemma frames_complete (frames done : list Buffer) (p : Buffer) :
  Forall is_frame frames -> done `prefix_of` frames -> partial_frame p ->
  concat done ++ p = concat frames -> done = frames /\ p = [].
Proof.
  intros Hfs [later ->] Hp Heq.
  rewrite concat_app in Heq. apply app_inv_head in Heq. subst p.
  destruct later as [|f later]; [rewrite app_nil_r; split; reflexivity|].
  exfalso. apply Forall_app in Hfs as [_ Hfs]. apply Forall_cons in Hfs as [Hf _].
  pose proof (frame_nonempty f Hf) as Hpos. cbn [concat] in Hp.
  destruct Hf as (t & Hhead & _ & Hlen).
  destruct f as [|t' f]; [cbn in Hpos; lia|]. injection Hhead as ->.
  destruct Hp as [Hnil|(t' & Hhead' & _ & Hshort)]; [discriminate|].
  injection Hhead' as <-. rewrite length_app in Hshort. lia.
Qed.

(** C5: for a stream of complete block frames cut into packets in any
    way, after any number of packets the connection has yielded exactly
    the blocks of the frames that have arrived in full and holds back the
    beginning of the next frame; after the last packet it has yielded
    exactly the blocks that parsing the whole stream at once gives, each
    frame decoding to a block. *)
Theorem chain_reassembly `{Crypto} (frames packets : list Buffer) :
  Forall is_frame frames -> concat packets = concat frames ->
  parseChain (concat frames) = Ok (map decoded frames, Some [])
  /\ feed pull_start packets
     = Ok {| blocks := map decoded frames; remaining := Some []; responses := [] |}
  /\ Forall (fun f => exists msg b,
                 parseMessage (BULK_PULL_PREFIX ++ f) false = Ok msg
                 /\ body msg = PBlock b /\ decoded f = PBlock b) frames
  /\ forall n, exists done p,
       concat (take n packets) = concat done ++ p
       /\ done `prefix_of` frames /\ partial_frame p
       /\ feed pull_start (take n packets)
          = Ok {| blocks := map decoded done; remaining := Some p; responses := [] |}.
Proof.
  intros Hfs Heq. split; [|split; [|split]].
  - rewrite <- (app_nil_r (concat frames)).
    apply parseChain_frames; [exact Hfs | left; reflexivity].
  - destruct (feed_prefix frames Hfs packets) as (done & p & Hdp & Hdone & Hp & Hfeed).
    { rewrite Heq. reflexivity. }
    rewrite Heq in Hdp. symmetry in Hdp.
    destruct (frames_complete frames done p Hfs Hdone Hp Hdp) as [-> ->]. exact Hfeed.
  - eapply Forall_impl; [exact Hfs|]. intros f Hf. apply frame_decodes, Hf.
  - intros n. apply (feed_prefix frames Hfs).
    rewrite <- Heq. rewrite <- (take_drop n packets) at 2. rewrite concat_app.
    apply prefix_app_r. reflexivity.
Qed.

Lemma receive_frame_is_frame : is_frame receive_frame.
Proof.
  exists x03. split; [reflexivity|]. split; [|reflexivity].
  unfold variant_bytes. apply list_elem_of_further, list_elem_of_here.
Qed.

Lemma chain_reassembly_witness :
  length receive_frame = 137
  /\ @feed sample_crypto pull_start [take 100 receive_frame; drop 100 receive_frame]
     = Ok {| blocks := [@decoded sample_crypto receive_frame];
             remaining := Some []; responses := [] |}.
Proof.
  split; [reflexivity|].
  apply (@chain_reassembly sample_crypto [receive_frame]
           [take 100 receive_frame; drop 100 receive_frame]).
  - constructor; [exact receive_frame_is_frame | constructor].
  - reflexivity.
Defined.

(** The 137-byte receive frame in packets of 100 and 37 bytes: no block
    after the first packet, one block after the second. *)
Example receive_frame_in_two_packets `{Crypto} :
  feed pull_start [take 100 receive_frame]
  = Ok {| blocks := []; remaining := Some (take 100 receive_frame); responses := [] |}
  /\ exists block,
       feed pull_start [take 100 receive_frame; drop 100 receive_frame]
       = Ok {| blocks := [PBlock block]; remaining := Some []; responses := [] |}
       /\ block !! "type" = Some "receive"
       /\ block !! "work" = Some "4444444444444444".
Proof.
  split; [vm_compute; reflexivity|].
  eexists. split; [vm_compute; reflexivity|]. split; vm_compute; reflexivity.
Qed.

(** ** Unsigned blocks, in general *)

(** Every complete block of the five variants that has no [signature]
    property ends in the [TypeError] of [Buffer.concat] when no key (or an
    empty key) is given. *)
Lemma render_unsigned_block `{Crypto} (msg : Msg) (key : option string)
    (mtype t : string) (fields : list string) (vals : string -> Buffer) (work : Buffer) :
  mtype ∈ ["publish"; "confirm_req"] -> t ∈ variants ->
  msg_type msg = Some mtype -> extensions_fit msg ->
  blockFields t = Some fields ->
  (forall f, f ∈ fields -> length (vals f) = field_length f) ->
  length work = 8 ->
  key = None \/ key = Some "" ->
  msg_body msg = BObject (unsigned_block_object t fields vals work) ->
  renderMessage msg key = Err TypeError.
Proof.
  intros Hmtype Ht Hty Hfit Hfields Hlengths Hwork Hkey Hbody.
  destruct (variant_fields t fields Ht Hfields)
    as (Hknown & Hnt & Hns & Hnw & _ & Hprop & (i & Hi & _ & Hrange & _)).
  set (body := unsigned_block_object t fields vals work) in *.
  assert (Hbt : body !! "type" = Some t).
  { unfold body, unsigned_block_object. rewrite lookup_insert_ne by discriminate.
    rewrite fold_fields_other by exact Hnt. apply lookup_singleton_eq. }
  assert (Hbf : forall f, f ∈ fields -> body !! f = Some (toHex (vals f))).
  { intros f Hf. unfold body, unsigned_block_object.
    rewrite lookup_insert_ne by (intros <-; contradiction).
    apply (fold_fields_lookup (fun f => toHex (vals f))), Hf. }
  assert (Hbs : body !! "signature" = None).
  { unfold body, unsigned_block_object. rewrite lookup_insert_ne by discriminate.
    rewrite fold_fields_other by exact Hns. apply lookup_singleton_ne. discriminate. }
  assert (Hbw : body !! "work" = Some (toHex work)).
  { unfold body, unsigned_block_object. apply lookup_insert_eq. }
  assert (Hblock : forall header, length header = 8 ->
             render_block header body key = Err TypeError).
  { intros header Hheader. unfold render_block.
    rewrite Hbt, Hprop, Hi, writeInt16BE_fits by lia. cbn [rbind]. rewrite Hfields.
    rewrite (render_values vals fields Hknown Hlengths) by (try reflexivity; exact Hbf).
    cbn [rbind]. rewrite Hbs, Hbw.
    replace (match key with
             | Some key0 =>
                 if String.eqb key0 "" then Ok None
                 else
                   check (length (fromHex key0) =? 32)
                     else ParseError "length_mismatch_private_key";
                   Ok (Some (sign_detached
                               (blake2bFinal
                                  (blake2bUpdate (blake2bInit 32) (concat (map vals fields))))
                               (fromHex key0)))
             | None => Ok None
             end) with (@Ok (option Buffer) None)
      by (destruct Hkey as [->| ->]; reflexivity).
    cbn [rbind]. rewrite fromHex_toHex, (work_order t work Ht).
    replace (length (if String.eqb t "state" then work else rev work) =? 8) with true
      by (destruct (String.eqb t "state"); rewrite ?length_rev, Hwork; reflexivity).
    change ([Some ?h] ++ ?l) with (Some h :: l). cbn [Buffer_concat].
    rewrite (Buffer_concat_app _ _ _ (Buffer_concat_all _)). reflexivity. }
  unfold renderMessage. rewrite Hty, Hbody. cbn [mbind option_bind].
  repeat (apply elem_of_cons in Hmtype as [->|Hmtype]);
    try (apply elem_of_nil in Hmtype; contradiction).
  all: first [ progress change (indexOf "publish" MESSAGE_TYPES) with (Some 3)
             | progress change (indexOf "confirm_req" MESSAGE_TYPES) with (Some 4) ].
  all: render_header; cbn [truthy andb orb bool_decide decide_rel]; apply Hblock; reflexivity.
Qed.

(** * Further properties *)

(** ** The peer list as a bounded, duplicate-free list *)

Lemma remove_first_absent (a : string) (l : list string) :
  a ∉ l -> remove_first a l = l.
Proof.
  induction l as [|x l IH]; intros Ha; [reflexivity|].
  apply not_elem_of_cons in Ha as [Hne Ha]. cbn.
  destruct (decide (x = a)); [congruence | rewrite IH by exact Ha; reflexivity].
Qed.

Lemma remove_first_present (a : string) (l : list string) :
  a ∈ l -> l ≡ₚ a :: remove_first a l.
Proof.
  induction l as [|x l IH]; intros Ha; [apply elem_of_nil in Ha; contradiction|].
  cbn. destruct (decide (x = a)) as [->|Hne]; [reflexivity|].
  apply elem_of_cons in Ha as [->|Ha]; [congruence|].
  rewrite (IH Ha) at 1. apply perm_swap.
Qed.

Lemma remove_first_sublist (a : string) (l : list string) : remove_first a l `sublist_of` l.
Proof.
  induction l as [|x l IH]; cbn; [reflexivity|].
  destruct (decide (x = a)); [apply sublist_cons, reflexivity|].
  apply sublist_skip, IH.
Qed.

Lemma remove_first_gone (a : string) (l : list string) :
  NoDup l -> a ∉ remove_first a l.
Proof.
  induction 1 as [|x l Hx Hl IH]; cbn; [apply not_elem_of_nil|].
  destruct (decide (x = a)) as [->|Hne]; [exact Hx|].
  apply not_elem_of_cons. split; [congruence | exact IH].
Qed.

Lemma removelast_sublist (l : list string) : removelast l `sublist_of` l.
Proof.
  induction l as [|x [|y l] IH]; [reflexivity | apply sublist_cons, reflexivity|].
  change (removelast (x :: y :: l)) with (x :: removelast (y :: l)).
  apply sublist_skip, IH.
Qed.

Lemma removelast_length (l : list string) : length (removelast l) = length l - 1.
Proof.
  induction l as [|x [|y l] IH]; [reflexivity | reflexivity|].
  change (removelast (x :: y :: l)) with (x :: removelast (y :: l)).
  cbn [length] in *. rewrite IH. lia.
Qed.

(** X1: an observation keeps the list free of duplicates and within the
    capacity, and leaves the observed address in front. *)
Theorem observe_keeps_directory (node : NanoNode) (a : string) :
  NoDup (peers node) -> length (peers node) <= maxPeers node -> 1 <= maxPeers node ->
  NoDup (peers (observe node a))
  /\ length (peers (observe node a)) <= maxPeers (observe node a)
  /\ head (peers (observe node a)) = Some a.
Proof.
  intros Hnd Hlen Hcap. rewrite observe_peers, observe_maxPeers.
  assert (Hnd' : NoDup (a :: remove_first a (peers node))).
  { apply NoDup_cons. split; [apply remove_first_gone, Hnd|].
    eapply sublist_NoDup; [exact Hnd | apply remove_first_sublist]. }
  assert (Hlen' : length (remove_first a (peers node)) <= length (peers node))
    by apply sublist_length, remove_first_sublist.
  unfold drop_last_over. destruct (Nat.ltb_spec (maxPeers node) (length (a :: remove_first a (peers node)))) as [Hover|Hfits].
  - split; [eapply sublist_NoDup; [exact Hnd' | apply removelast_sublist]|].
    split; [rewrite removelast_length; cbn [length] in *; lia|].
    destruct (remove_first a (peers node)) as [|y l]; [cbn in Hover; lia | reflexivity].
  - split; [exact Hnd'|]. split; [exact Hfits | reflexivity].
Qed.

Lemma observe_keeps_directory_witness :
  NoDup (peers (observe new_node "10.0.0.1:7075"))
  /\ length (peers (observe new_node "10.0.0.1:7075")) <= maxPeers (observe new_node "10.0.0.1:7075")
  /\ head (peers (observe new_node "10.0.0.1:7075")) = Some "10.0.0.1:7075".
Proof.
  apply (observe_keeps_directory new_node "10.0.0.1:7075").
  - cbn. apply NoDup_singleton.
  - cbn. lia.
  - cbn. lia.
Defined.

(** X2: observing a known address only reorders the list; observing a new one
    on a full list drops exactly the last entry, and on a list with room
    drops nothing. *)
Theorem observe_evicts_only_the_last (node : NanoNode) (a : string) :
  NoDup (peers node) -> length (peers node) <= maxPeers node ->
  (a ∈ peers node -> peers (observe node a) ≡ₚ peers node)
  /\ (a ∉ peers node -> length (peers node) < maxPeers node ->
      peers (observe node a) = a :: peers node)
  /\ (a ∉ peers node -> length (peers node) = maxPeers node ->
      peers (observe node a) = removelast (a :: peers node)).
Proof.
  intros Hnd Hlen. rewrite observe_peers. unfold drop_last_over. split; [|split].
  - intros Ha. pose proof (remove_first_present a (peers node) Ha) as Hperm.
    assert (Hl : length (a :: remove_first a (peers node)) = length (peers node))
      by (rewrite <- Hperm; reflexivity).
    rewrite Hl. replace (maxPeers node <? length (peers node)) with false
      by (symmetry; apply Nat.ltb_ge; lia).
    symmetry. exact Hperm.
  - intros Ha Hroom. rewrite remove_first_absent by exact Ha.
    replace (maxPeers node <? length (a :: peers node)) with false
      by (symmetry; apply Nat.ltb_ge; cbn; lia).
    reflexivity.
  - intros Ha Hfull. rewrite remove_first_absent by exact Ha.
    replace (maxPeers node <? length (a :: peers node)) with true
      by (symmetry; apply Nat.ltb_lt; cbn; lia).
    reflexivity.
Qed.

Lemma observe_evicts_only_the_last_witness :
  peers (observe {| peers := ["a:1"; "b:2"]; maxPeers := 2; minimalConfirmAck := true |} "c:3")
  = ["c:3"; "a:1"].
Proof.
  pose proof (observe_evicts_only_the_last
                {| peers := ["a:1"; "b:2"]; maxPeers := 2; minimalConfirmAck := true |} "c:3")
    as Hobs.
  destruct Hobs as (_ & _ & Hfull).
  - cbn. repeat constructor; rewrite ?not_elem_of_cons; repeat split;
      (discriminate || apply not_elem_of_nil).
  - cbn. lia.
  - apply Hfull; [|reflexivity].
    cbn. rewrite !not_elem_of_cons. repeat split; (discriminate || apply not_elem_of_nil).
Defined.

(** ** pullStats *)

(** The loop of [pullStats] on the non-empty responses of [l], in terms
    of [l]: the longest length seen, how many responses have it, and the
    first of them. *)
Lemma pullStats_loop_filter {A} (l : list (list A)) :
  forall (i maxLen : nat) (longIndex : option nat) (matches : nat),
    let ne := List.filter (fun r => 0 <? length r) l in
    let top := max_list (map length l) in
    exists li,
      pullStats_loop ne i maxLen longIndex matches
      = (max maxLen top, li,
         (if maxLen <? top then 0 else matches)
         + length (List.filter (fun r => (length r =? max maxLen top) && (0 <? length r)) l))
      /\ (top <= maxLen -> li = longIndex)
      /\ (maxLen < top ->
          exists j r before after,
            li = Some (i + j) /\ ne !! j = Some r /\ l = before ++ r :: after
            /\ length r = top /\ forall r', r' ∈ before -> length r' < top).
Proof.
  induction l as [|x l IH]; intros i maxLen longIndex matches ne top.
  - exists longIndex. subst ne top. cbn. rewrite Nat.max_0_r, Nat.add_0_r.
    split; [reflexivity|]. split; [reflexivity | lia].
  - subst ne top. cbn [List.filter map max_list id].
    set (top := max_list (map length l)) in *.
    destruct (Nat.ltb_spec 0 (length x)) as [Hpos|Hzero].
    + cbn [pullStats_loop].
      destruct (Nat.ltb_spec maxLen (length x)) as [Hlt|Hge].
      * destruct (IH (S i) (length x) (Some i) 1) as (li & Heq & Hsame & Hfirst).
        fold top in Heq, Hsame, Hfirst.
        exists li. rewrite Heq. split; [|split].
        -- replace (maxLen `max` (length x `max` top)) with (length x `max` top) by lia.
           replace (maxLen <? length x `max` top) with true
             by (symmetry; apply Nat.ltb_lt; lia).
           destruct (Nat.ltb_spec (length x) top) as [Hxt|Hxt].
           ++ replace (length x =? length x `max` top) with false
                by (symmetry; apply Nat.eqb_neq; lia).
              reflexivity.
           ++ replace (length x =? length x `max` top) with true
                by (symmetry; apply Nat.eqb_eq; lia).
              replace (0 <? length x) with true by (symmetry; apply Nat.ltb_lt; lia).
              cbn [andb length]. f_equal; try lia.
        -- lia.
        -- intros _. destruct (Nat.lt_ge_cases (length x) top) as [Hxt|Hxt].
           ++ destruct (Hfirst Hxt) as (j & r & before & after & -> & Hj & -> & Hr & Hb).
              exists (S j), r, (x :: before), after.
              split; [f_equal; lia|]. split; [exact Hj|]. split; [reflexivity|].
              split; [lia|]. intros r' [->|Hr']%elem_of_cons; [lia|].
              specialize (Hb r' Hr'). lia.
           ++ rewrite (Hsame Hxt). exists 0, x, [], l.
              split; [f_equal; lia|]. split; [reflexivity|]. split; [reflexivity|].
              split; [lia|]. intros r' Hr'. apply elem_of_nil in Hr'. contradiction.
      * destruct (Nat.eqb_spec (length x) maxLen) as [Heqx|Hnex].
        -- destruct (IH (S i) maxLen longIndex (S matches)) as (li & Heq & Hsame & Hfirst).
           fold top in Heq, Hsame, Hfirst.
           exists li. rewrite Heq. split; [|split].
           ++ replace (maxLen `max` (length x `max` top)) with (maxLen `max` top) by lia.
              replace (maxLen <? length x `max` top) with (maxLen <? top)
                by (destruct (Nat.ltb_spec maxLen top), (Nat.ltb_spec maxLen (length x `max` top)); lia).
              destruct (Nat.ltb_spec maxLen top) as [Hmt|Hmt].
              ** replace (length x =? maxLen `max` top) with false
                   by (symmetry; apply Nat.eqb_neq; lia).
                 reflexivity.
              ** replace (length x =? maxLen `max` top) with true
                   by (symmetry; apply Nat.eqb_eq; lia).
                 replace (0 <? length x) with true by (symmetry; apply Nat.ltb_lt; lia).
                 cbn [andb length]. f_equal; try lia.
           ++ intros Hle. apply Hsame. lia.
           ++ intros Hlt. assert (Hmt : maxLen < top) by lia.
              destruct (Hfirst Hmt) as (j & r & before & after & -> & Hj & -> & Hr & Hb).
              exists (S j), r, (x :: before), after.
              split; [f_equal; lia|]. split; [exact Hj|]. split; [reflexivity|].
              split; [lia|]. intros r' [->|Hr']%elem_of_cons; [lia|].
              specialize (Hb r' Hr'). lia.
        -- destruct (IH (S i) maxLen longIndex matches) as (li & Heq & Hsame & Hfirst).
           fold top in Heq, Hsame, Hfirst.
           exists li. rewrite Heq. split; [|split].
           ++ replace (maxLen `max` (length x `max` top)) with (maxLen `max` top) by lia.
              replace (maxLen <? length x `max` top) with (maxLen <? top)
                by (destruct (Nat.ltb_spec maxLen top), (Nat.ltb_spec maxLen (length x `max` top)); lia).
              replace (length x =? maxLen `max` top) with false
                by (symmetry; apply Nat.eqb_neq; lia).
              reflexivity.
           ++ intros Hle. apply Hsame. lia.
           ++ intros Hlt. assert (Hmt : maxLen < top) by lia.
              destruct (Hfirst Hmt) as (j & r & before & after & -> & Hj & -> & Hr & Hb).
              exists (S j), r, (x :: before), after.
              split; [f_equal; lia|]. split; [exact Hj|]. split; [reflexivity|].
              split; [lia|]. intros r' [->|Hr']%elem_of_cons; [lia|].
              specialize (Hb r' Hr'). lia.
    + assert (Hx0 : length x = 0) by lia.
      destruct (IH i maxLen longIndex matches) as (li & Heq & Hsame & Hfirst).
      fold top in Heq, Hsame, Hfirst.
      exists li. rewrite Heq, Hx0. cbn [Nat.max].
      replace (0 <? 0) with false by reflexivity. rewrite andb_false_r.
      split; [reflexivity|]. split; [exact Hsame|].
      intros Hlt. destruct (Hfirst Hlt) as (j & r & before & after & -> & Hj & -> & Hr & Hb).
      exists j, r, (x :: before), after.
      split; [reflexivity|]. split; [exact Hj|]. split; [reflexivity|].
      split; [exact Hr|]. intros r' [->|Hr']%elem_of_cons; [lia|]. apply Hb, Hr'.
Qed.

Lemma filter_length_ext {A} (f g : A -> bool) (l : list A) :
  (forall x, x ∈ l -> f x = g x) -> length (List.filter f l) = length (List.filter g l).
Proof.
  induction l as [|x l IH]; intros Hfg; [reflexivity|]. cbn.
  rewrite (Hfg x) by apply list_elem_of_here.
  destruct (g x); cbn; rewrite IH; try reflexivity;
    intros y Hy; apply Hfg, list_elem_of_further, Hy.
Qed.

Lemma filter_length_le {A} (f g : A -> bool) (l : list A) :
  (forall x, f x = true -> g x = true) ->
  length (List.filter f l) <= length (List.filter g l).
Proof.
  intros Hfg. induction l as [|x l IH]; [reflexivity|]. cbn.
  destruct (f x) eqn:Hf; [rewrite (Hfg x Hf); cbn; lia|].
  destruct (g x); cbn; lia.
Qed.

(** X3: when some response is not empty, [pullStats] returns the first of the
    longest responses, counts the responses of that length in [matches]
    and the non-empty ones in [returnCount]. *)
Theorem pullStats_first_longest {A} (responses : list (list A)) (r0 : list A) :
  r0 ∈ responses -> r0 <> [] ->
  exists r before after,
    stats_blocks (pullStats responses) = Some r
    /\ responses = before ++ r :: after
    /\ (forall r', r' ∈ before -> length r' < length r)
    /\ (forall r', r' ∈ responses -> length r' <= length r)
    /\ stats_matches (pullStats responses)
       = length (List.filter (fun r' => length r' =? length r) responses)
    /\ stats_returnCount (pullStats responses)
       = length (List.filter (fun r' => 0 <? length r') responses)
    /\ 1 <= stats_matches (pullStats responses) <= stats_returnCount (pullStats responses).
Proof.
  intros Hin Hne.
  set (top := max_list (map length responses)).
  assert (Htop : forall r', r' ∈ responses -> length r' <= top).
  { intros r' Hr'. apply max_list_elem_of_le, list_elem_of_fmap. exists r'. auto. }
  assert (Hpos : 0 < top).
  { specialize (Htop r0 Hin). destruct r0; [congruence | cbn in Htop; lia]. }
  destruct (pullStats_loop_filter responses 0 0 None 0) as (li & Heq & _ & Hfirst).
  fold top in Heq, Hfirst.
  destruct (Hfirst Hpos) as (j & r & before & after & -> & Hj & Hresp & Hr & Hb).
  exists r, before, after. unfold pullStats. rewrite Heq. cbn [stats_blocks stats_matches stats_returnCount].
  replace (0 <? top) with true in * by (symmetry; apply Nat.ltb_lt; exact Hpos).
  cbn [Nat.max Nat.add] in *.
  assert (Hcount : length (List.filter (fun r' => (length r' =? top) && (0 <? length r')) responses)
                   = length (List.filter (fun r' => length r' =? length r) responses)).
  { apply filter_length_ext. intros x _. rewrite Hr.
    destruct (Nat.eqb_spec (length x) top) as [Hx|Hx]; [|reflexivity].
    destruct (Nat.ltb_spec 0 (length x)); [reflexivity | lia]. }
  split; [exact Hj|]. split; [exact Hresp|].
  split; [intros r' Hr'; rewrite Hr; apply Hb, Hr'|].
  split; [intros r' Hr'; rewrite Hr; apply Htop, Hr'|].
  split; [exact Hcount|]. split; [reflexivity|]. split.
  - rewrite Hcount, Hresp. rewrite List.filter_app. cbn [List.filter].
    rewrite Nat.eqb_refl, length_app. cbn [length]. lia.
  - apply filter_length_le. intros x Hx. apply andb_true_iff in Hx. apply Hx.
Qed.

Lemma pullStats_first_longest_witness :
  exists r before after,
    stats_blocks (pullStats [[]; [1; 2]; [3]; [4; 5]]) = Some r
    /\ [[]; [1; 2]; [3]; [4; 5]] = before ++ r :: after
    /\ (forall r', r' ∈ before -> length r' < length r)
    /\ (forall r', r' ∈ [[]; [1; 2]; [3]; [4; 5]] -> length r' <= length r)
    /\ stats_matches (pullStats [[]; [1; 2]; [3]; [4; 5]])
       = length (List.filter (fun r' => length r' =? length r) [[]; [1; 2]; [3]; [4; 5]])
    /\ stats_returnCount (pullStats [[]; [1; 2]; [3]; [4; 5]])
       = length (List.filter (fun r' => 0 <? length r') [[]; [1; 2]; [3]; [4; 5]])
    /\ 1 <= stats_matches (pullStats [[]; [1; 2]; [3]; [4; 5]])
       <= stats_returnCount (pullStats [[]; [1; 2]; [3]; [4; 5]]).
Proof.
  apply (pullStats_first_longest [[]; [1; 2]; [3]; [4; 5]] [3]).
  - do 2 apply list_elem_of_further. apply list_elem_of_here.
  - discriminate.
Defined.

(** X4: when every response is empty (or there is none), [pullStats] returns
    no blocks and both counters are 0, so that [matchProportion] is 0/0. *)
Theorem pullStats_nothing {A} (responses : list (list A)) :
  (forall r, r ∈ responses -> r = []) ->
  pullStats responses
  = {| stats_blocks := None; stats_matches := 0; stats_returnCount := 0 |}.
Proof.
  intros Hall. unfold pullStats.
  assert (Hne : List.filter (fun r : list A => 0 <? length r) responses = []).
  { induction responses as [|x l IH]; [reflexivity|]. cbn.
    rewrite (Hall x) by apply list_elem_of_here. cbn.
    apply IH. intros r Hr. apply Hall, list_elem_of_further, Hr. }
  rewrite Hne. reflexivity.
Qed.

Lemma pullStats_nothing_witness :
  pullStats [@nil nat; []; []]
  = {| stats_blocks := None; stats_matches := 0; stats_returnCount := 0 |}.
Proof.
  apply (pullStats_nothing [@nil nat; []; []]).
  intros r Hr. repeat (apply elem_of_cons in Hr as [->|Hr]; [reflexivity|]).
  apply elem_of_nil in Hr. contradiction.
Defined.


(** ** The parser and the header *)

(** X5: a datagram that parses has a well-formed header, and the fields of
    the message are the bytes of that header: at least 8 bytes, the magic
    byte, one of the two network bytes, a type byte below 9. *)
Theorem parsed_message_header `{Crypto} (buf : Buffer) (minimal : bool) (m : Message) :
  parseMessage buf minimal = Ok m ->
  8 <= length buf
  /\ buf !! 0 = Some x52
  /\ buf !! 1 = Some (if mainnet m then x43 else x41)
  /\ buf !! 2 = Some (versionMax m)
  /\ buf !! 3 = Some (versionUsing m)
  /\ buf !! 4 = Some (versionMin m)
  /\ (exists t, buf !! 5 = Some t /\ MESSAGE_TYPES !! N.to_nat (Byte.to_N t) = Some (type m))
  /\ readUInt16BE 6 buf = Ok (extensions m).
Proof.
  unfold parseMessage, parseMessage_body. intros Hok.
  destruct (bool_decide (buf !! 0 = Some x52)) eqn:H0; [|discriminate].
  apply bool_decide_eq_true in H0.
  assert (Hnet : exists net : bool,
             buf !! 1 = Some (if net then x43 else x41)
             /\ (if bool_decide (buf !! 1 = Some x43) then Ok true
                 else if bool_decide (buf !! 1 = Some x41) then Ok false
                 else Err (ParseError "invalid_network")) = Ok net).
  { destruct (bool_decide (buf !! 1 = Some x43)) eqn:H1.
    - exists true. apply bool_decide_eq_true in H1. auto.
    - destruct (bool_decide (buf !! 1 = Some x41)) eqn:H1'; [|discriminate].
      exists false. apply bool_decide_eq_true in H1'. auto. }
  destruct Hnet as (net & H1 & Hnet). rewrite Hnet in Hok. cbn [rbind] in Hok.
  destruct (length MESSAGE_TYPES <=? _) eqn:Htag in Hok; [discriminate|].
  cbn [negb] in Hok. apply Nat.leb_gt in Htag.
  destruct (readUInt16BE 6 buf) as [ext|] eqn:Hext; [|discriminate]. cbn [rbind] in Hok.
  assert (Hlen : 8 <= length buf).
  { unfold readUInt16BE in Hext. destruct (buf !! 6); [|discriminate].
    destruct (buf !! 7) eqn:H7; [|discriminate]. apply lookup_lt_Some in H7. lia. }
  destruct (lookup_lt_is_Some_2 buf 2 ltac:(lia)) as [b2 H2].
  destruct (lookup_lt_is_Some_2 buf 3 ltac:(lia)) as [b3 H3].
  destruct (lookup_lt_is_Some_2 buf 4 ltac:(lia)) as [b4 H4].
  destruct (lookup_lt_is_Some_2 buf 5 ltac:(lia)) as [b5 H5].
  rewrite H2, H3, H4, H5 in *. cbn [default from_option id] in Hok.
  destruct (lookup_lt_is_Some_2 MESSAGE_TYPES (N.to_nat (Byte.to_N b5)) Htag) as [ty Hty].
  rewrite Hty in Hok. cbn [default from_option id] in Hok.
  assert (Hm : mainnet m = net /\ versionMax m = b2 /\ versionUsing m = b3
               /\ versionMin m = b4 /\ type m = ty /\ extensions m = ext).
  { repeat match type of Hok with
           | context [if ?c then _ else _] => destruct c eqn:?
           | context [rbind ?r _] => destruct r eqn:?; cbn [rbind] in Hok
           | context [match ?x with _ => _ end] => destruct x eqn:?
           end; try discriminate; injection Hok as <-; repeat split. }
  destruct Hm as (-> & -> & -> & -> & -> & ->).
  repeat split; try assumption. exists b5. split; [reflexivity | exact Hty].
Qed.

Lemma parsed_message_header_witness :
  let buf := [x52; x41; x07; x06; x01; x07; x01; x02; xaa; xbb] in
  let m := {| mainnet := false; versionMax := x07; versionUsing := x06; versionMin := x01;
              type := "bulk_push"; extensions := 258; body := PBytes [xaa; xbb];
              account := None; signature := None; sequence := None; block := None |} in
  8 <= length buf
  /\ buf !! 0 = Some x52
  /\ buf !! 1 = Some (if mainnet m then x43 else x41)
  /\ buf !! 2 = Some (versionMax m)
  /\ buf !! 3 = Some (versionUsing m)
  /\ buf !! 4 = Some (versionMin m)
  /\ (exists t, buf !! 5 = Some t /\ MESSAGE_TYPES !! N.to_nat (Byte.to_N t) = Some (type m))
  /\ readUInt16BE 6 buf = Ok (extensions m).
Proof.
  intros buf m. apply (@parsed_message_header sample_crypto buf true m). reflexivity.
Defined.

(** X6: the checks of the header come in this order, each with its own error:
    the magic byte, the network byte, the type byte, and only then the
    length, whose failure is the [RangeError] of the 16-bit read and no
    [ParseError]. *)
Theorem parse_header_errors `{Crypto} (buf : Buffer) (minimal : bool) :
  (buf !! 0 <> Some x52 -> parseMessage buf minimal = Err (ParseError "magic_number"))
  /\ (buf !! 0 = Some x52 -> buf !! 1 <> Some x43 -> buf !! 1 <> Some x41 ->
      parseMessage buf minimal = Err (ParseError "invalid_network"))
  /\ (buf !! 0 = Some x52 -> buf !! 1 = Some x43 \/ buf !! 1 = Some x41 ->
      (exists t, buf !! 5 = Some t /\ 9 <= N.to_nat (Byte.to_N t)) ->
      parseMessage buf minimal = Err (ParseError "invalid_type"))
  /\ (buf !! 0 = Some x52 -> buf !! 1 = Some x43 \/ buf !! 1 = Some x41 ->
      (forall t, buf !! 5 = Some t -> N.to_nat (Byte.to_N t) < 9) ->
      length buf < 8 ->
      parseMessage buf minimal = Err RangeError).
Proof.
  unfold parseMessage, parseMessage_body. split; [|split; [|split]].
  - intros H0. rewrite bool_decide_eq_false_2 by exact H0. reflexivity.
  - intros H0 H1 H1'. rewrite bool_decide_eq_true_2 by exact H0.
    rewrite !bool_decide_eq_false_2 by assumption. reflexivity.
  - intros H0 H1 (t & H5 & Ht). rewrite bool_decide_eq_true_2 by exact H0.
    assert (Hnet : exists net, (if bool_decide (buf !! 1 = Some x43) then Ok true
                 else if bool_decide (buf !! 1 = Some x41) then Ok false
                 else Err (ParseError "invalid_network")) = Ok net).
    { destruct H1 as [H1|H1]; rewrite H1; [exists true | exists false]; reflexivity. }
    destruct Hnet as [net ->]. cbn [rbind]. rewrite H5.
    replace (length MESSAGE_TYPES <=? N.to_nat (Byte.to_N t)) with true
      by (symmetry; apply Nat.leb_le; exact Ht).
    reflexivity.
  - intros H0 H1 H5 Hlen. rewrite bool_decide_eq_true_2 by exact H0.
    assert (Hnet : exists net, (if bool_decide (buf !! 1 = Some x43) then Ok true
                 else if bool_decide (buf !! 1 = Some x41) then Ok false
                 else Err (ParseError "invalid_network")) = Ok net).
    { destruct H1 as [H1|H1]; rewrite H1; [exists true | exists false]; reflexivity. }
    destruct Hnet as [net ->]. cbn [rbind].
    replace (length MESSAGE_TYPES <=? _) with false.
    + cbn [negb]. unfold readUInt16BE.
      rewrite (lookup_ge_None_2 buf 7) by lia. destruct (buf !! 6); reflexivity.
    + symmetry. apply Nat.leb_gt. destruct (buf !! 5) as [t|]; [apply H5; reflexivity|].
      cbn. lia.
Qed.

Lemma parse_header_errors_witness :
  @parseMessage sample_crypto [x00; x43] true = Err (ParseError "magic_number")
  /\ @parseMessage sample_crypto [x52; x42] true = Err (ParseError "invalid_network")
  /\ @parseMessage sample_crypto [x52; x43; x07; x07; x01; x09; x00; x00] true
     = Err (ParseError "invalid_type")
  /\ @parseMessage sample_crypto [x52; x43; x07; x07; x01; x03; x00] true = Err RangeError.
Proof.
  split; [|split; [|split]].
  - apply (@parse_header_errors sample_crypto [x00; x43] true). discriminate.
  - apply (@parse_header_errors sample_crypto [x52; x42] true);
      [reflexivity | discriminate | discriminate].
  - apply (@parse_header_errors sample_crypto [x52; x43; x07; x07; x01; x09; x00; x00] true);
      [reflexivity | left; reflexivity | exists x09; split; [reflexivity | cbn; lia]].
  - apply (@parse_header_errors sample_crypto [x52; x43; x07; x07; x01; x03; x00] true);
      [reflexivity | left; reflexivity | | cbn; lia].
    intros t Ht. injection Ht as <-. cbn. lia.
Defined.

(** ** Messages without a schema *)

Lemma Z_of_byte_of_Z (z : Z) : Z_of_byte (byte_of_Z z) = (z mod 256)%Z.
Proof.
  unfold Z_of_byte, byte_of_Z.
  pose proof (Z.mod_pos_bound z 256 ltac:(lia)) as Hb.
  destruct (Byte.of_N (Z.to_N (z mod 256))) as [b|] eqn:Hof.
  - apply Byte.to_of_N in Hof. rewrite Hof. apply Z2N.id. lia.
  - apply Byte.of_N_None_iff in Hof. lia.
Qed.

Lemma read_written_extensions (e : Z) (a b c d f g : byte) (rest : Buffer) :
  readUInt16BE 6 ([a; b; c; d; f; g; byte_of_Z (e / 256); byte_of_Z e] ++ rest)
  = Ok (e mod 65536)%Z.
Proof.
  unfold readUInt16BE. cbn [app lookup list_lookup]. rewrite !Z_of_byte_of_Z.
  f_equal. change 65536%Z with (256 * 256)%Z. rewrite Z.rem_mul_r by lia. lia.
Qed.





(** ** Block messages: the length check *)

Lemma block_index_facts (n : nat) :
  n < 7 ->
  exists name fields,
    BLOCK_TYPES_INDEX !! n = Some name /\ blockFields name = Some fields
    /\ Forall (fun f => is_Some (prop f REQUIRED_FIELDS)) fields
    /\ BLOCK_LENGTHS !! n = Some (sum_list (map field_length fields)).
Proof.
  intros Hn. do 7 (destruct n as [|n]; [eexists _, _; split; [reflexivity|];
    split; [reflexivity|]; split; [|reflexivity];
    repeat (constructor; [eexists; reflexivity|]); constructor|]).
  lia.
Qed.

Lemma parse_block_length `{Crypto} (buf : Buffer) (ext : Z) :
  match BLOCK_LENGTHS !! Z.to_nat ext with
  | Some len =>
      if length buf =? 8 + len + 72
      then exists b, parse_block buf ext = Ok b
      else parse_block buf ext = Err (ParseError "invalid_block_length")
  | None => parse_block buf ext = Err (ParseError "invalid_block_type")
  end.
Proof.
  unfold parse_block. destruct (Nat.lt_ge_cases (Z.to_nat ext) 7) as [Hlt|Hge].
  - destruct (block_index_facts _ Hlt) as (name & fields & Hname & Hfields & Hknown & Hlen).
    rewrite Hlen, Hname, Hfields.
    destruct (read_fields_total buf fields Hknown {["type" := name]} 8) as [b Hb].
    rewrite Hb. cbn [rbind].
    destruct (length buf =? 8 + sum_list (map field_length fields) + 72);
      [eexists; reflexivity | reflexivity].
  - rewrite (lookup_ge_None_2 BLOCK_LENGTHS), (lookup_ge_None_2 BLOCK_TYPES_INDEX)
      by (cbn; lia).
    reflexivity.
Qed.

Lemma parseMessage_block_header `{Crypto} (net : bool) (v1 v2 v3 e1 e2 : byte)
    (publish : bool) (rest : Buffer) (minimal : bool) :
  parseMessage ([x52; if net then x43 else x41; v1; v2; v3;
                 if publish then x03 else x04; e1; e2] ++ rest) minimal
  = do block <- parse_block ([x52; if net then x43 else x41; v1; v2; v3;
                              if publish then x03 else x04; e1; e2] ++ rest)
                  (Z_of_byte e1 * 256 + Z_of_byte e2);
    Ok {| mainnet := net; versionMax := v1; versionUsing := v2; versionMin := v3;
          type := if publish then "publish" else "confirm_req";
          extensions := (Z_of_byte e1 * 256 + Z_of_byte e2)%Z; body := PBlock block;
          account := None; signature := None; sequence := None; block := None |}.
Proof. destruct net, publish; reflexivity. Qed.

(** X8: a publish or confirm_req datagram parses exactly when the extensions
    field is the index of a block type and the bytes after the header are
    as many as that type's fields, the signature and the work take; one
    byte more or less is invalid_block_length, an index above 6 is
    invalid_block_type. *)
Theorem block_message_length_is_exact `{Crypto} (net publish : bool)
    (v1 v2 v3 e1 e2 : byte) (rest : Buffer) (minimal : bool) :
  let buf := [x52; if net then x43 else x41; v1; v2; v3;
              if publish then x03 else x04; e1; e2] ++ rest in
  match BLOCK_LENGTHS !! Z.to_nat (Z_of_byte e1 * 256 + Z_of_byte e2) with
  | Some len =>
      if length rest =? len + 64 + 8
      then exists m b, parseMessage buf minimal = Ok m /\ body m = PBlock b
      else parseMessage buf minimal = Err (ParseError "invalid_block_length")
  | None => parseMessage buf minimal = Err (ParseError "invalid_block_type")
  end.
Proof.
  intros buf. subst buf. rewrite parseMessage_block_header.
  pose proof (parse_block_length
                ([x52; if net then x43 else x41; v1; v2; v3;
                  if publish then x03 else x04; e1; e2] ++ rest)
                (Z_of_byte e1 * 256 + Z_of_byte e2)) as Hlen.
  destruct (BLOCK_LENGTHS !! _) as [len|]; [|rewrite Hlen; reflexivity].
  rewrite length_app in Hlen. cbn [length] in Hlen.
  replace (8 + length rest =? 8 + len + 72) with (length rest =? len + 64 + 8) in Hlen
    by (destruct (Nat.eqb_spec (length rest) (len + 64 + 8)),
                 (Nat.eqb_spec (8 + length rest) (8 + len + 72)); lia).
  destruct (length rest =? len + 64 + 8).
  - destruct Hlen as [b Hb]. rewrite Hb. eexists _, _. split; reflexivity.
  - rewrite Hlen. reflexivity.
Qed.

(** ** Keepalive datagrams *)

Lemma readUInt16_in_range (off : nat) (buf : Buffer) :
  S off < length buf ->
  (exists z, readUInt16BE off buf = Ok z) /\ (exists z, readUInt16LE off buf = Ok z).
Proof.
  intros Hoff. unfold readUInt16BE, readUInt16LE.
  destruct (lookup_lt_is_Some_2 buf off ltac:(lia)) as [a ->].
  destruct (lookup_lt_is_Some_2 buf (S off) ltac:(lia)) as [b ->].
  split; eexists; reflexivity.
Qed.

Lemma mapM_total {A B} (f : A -> result B) (l : list A) :
  (forall x, x ∈ l -> exists y, f x = Ok y) -> exists ys, mapM f l = Ok ys.
Proof.
  induction l as [|x l IH]; intros Hf; [exists []; reflexivity|].
  destruct (Hf x) as [y Hy]; [apply list_elem_of_here|].
  destruct IH as [ys Hys]; [intros z Hz; apply Hf, list_elem_of_further, Hz|].
  exists (y :: ys). cbn. rewrite Hy. cbn. rewrite Hys. reflexivity.
Qed.

Lemma parseIp_in_range (buf : Buffer) (offset : nat) :
  offset + 18 <= length buf -> exists s, parseIp buf offset = Ok s.
Proof.
  intros Hlen. unfold parseIp.
  destruct (readUInt16_in_range (offset + 16) buf ltac:(lia)) as [_ [port Hport]].
  rewrite Hport. destruct (bool_decide _); [eexists; reflexivity|].
  destruct (mapM_total (fun j => do g <- readUInt16BE (offset + 2 * j) buf; Ok (hex g))
              (seq 0 8)) as [groups Hgroups].
  { intros j Hj. apply elem_of_seq in Hj.
    destruct (readUInt16_in_range (offset + 2 * j) buf ltac:(lia)) as [[g Hg] _].
    rewrite Hg. eexists. reflexivity. }
  rewrite Hgroups. eexists. reflexivity.
Qed.

Lemma parse_peers_loop (buf : Buffer) (entries : list nat) :
  (forall n, n ∈ entries -> 8 + 18 * n + 18 <= length buf) ->
  forall peers0, exists peers,
    foldM (fun peers n =>
             do peer <- parseIp buf (8 + 18 * n);
             if String.eqb peer "[::]:0" then Ok peers else Ok (peers ++ [peer]))
          entries peers0 = Ok peers
    /\ length peers <= length peers0 + length entries.
Proof.
  induction entries as [|n entries IH]; intros Hin peers0.
  - exists peers0. split; [reflexivity | cbn; lia].
  - destruct (parseIp_in_range buf (8 + 18 * n)) as [peer Hpeer];
      [apply Hin, list_elem_of_here|].
    cbn [foldM]. rewrite Hpeer. cbn [rbind].
    destruct (String.eqb peer "[::]:0"); cbn [rbind].
    + destruct (IH ltac:(intros k Hk; apply Hin, list_elem_of_further, Hk) peers0)
        as (peers & Hp & Hl).
      exists peers. split; [exact Hp | cbn [length]; lia].
    + destruct (IH ltac:(intros k Hk; apply Hin, list_elem_of_further, Hk) (peers0 ++ [peer]))
        as (peers & Hp & Hl).
      exists peers. split; [exact Hp|]. rewrite length_app in Hl. cbn [length] in *. lia.
Qed.

(** X9: a keepalive datagram parses exactly when it is 152 bytes long, whatever
    the 144 bytes of its body are, and gives at most 8 peer strings. *)
Theorem keepalive_datagram_parses `{Crypto} (net : bool) (v1 v2 v3 e1 e2 : byte)
    (rest : Buffer) (minimal : bool) :
  let buf := [x52; if net then x43 else x41; v1; v2; v3; x02; e1; e2] ++ rest in
  if length rest =? 144
  then exists m peers,
         parseMessage buf minimal = Ok m /\ body m = PPeers peers /\ length peers <= 8
  else parseMessage buf minimal = Err (ParseError "invalid_block_length").
Proof.
  intros buf.
  assert (Hparse : parseMessage buf minimal
                   = (check (length buf =? 152) else ParseError "invalid_block_length";
                      do peers <- @parse_peers buf;
                      Ok {| mainnet := net; versionMax := v1; versionUsing := v2;
                            versionMin := v3; type := "keepalive";
                            extensions := (Z_of_byte e1 * 256 + Z_of_byte e2)%Z;
                            body := PPeers peers;
                            account := None; signature := None; sequence := None;
                            block := None |})).
  { subst buf. destruct net; reflexivity. }
  rewrite Hparse. subst buf. rewrite length_app. cbn [length].
  destruct (Nat.eqb_spec (length rest) 144) as [Hlen|Hlen].
  - replace (8 + length rest =? 152) with true by (symmetry; apply Nat.eqb_eq; lia).
    destruct (parse_peers_loop
                ([x52; if net then x43 else x41; v1; v2; v3; x02; e1; e2] ++ rest) (seq 0 8))
      with (peers0 := @nil string) as (peers & Hpeers & Hl).
    { intros n Hn. apply elem_of_seq in Hn. rewrite length_app. cbn [length]. lia. }
    unfold parse_peers. rewrite Hpeers. cbn [rbind].
    eexists _, peers. split; [reflexivity|]. split; [reflexivity | exact Hl].
  - replace (8 + length rest =? 152) with false by (symmetry; apply Nat.eqb_neq; lia).
    reflexivity.
Qed.

(** ** The end of a bulk_pull stream *)

Section Sentinel.
Context `{Crypto}.

(** The not_a_block byte at the offset sets [remaining] to [null] and the
    loop goes on behind it. *)
Lemma loop_sentinel (buf pre tail : Buffer) (rem : option Buffer) (out : list ParsedBody) :
  buf = pre ++ x01 :: tail ->
  parseChain_loop buf (length pre) rem out
  = parseChain_loop buf (length (pre ++ [x01])) None out.
Proof.
  intros Hbuf. rewrite parseChain_loop_step.
  assert (Hat : buf !! length pre = Some x01).
  { rewrite Hbuf, lookup_app_r, Nat.sub_diag by lia. reflexivity. }
  rewrite Hat. cbn [BLOCK_LENGTHS lookup list_lookup Byte.to_N N.to_nat Pos.to_nat
                    Pos.iter_op Nat.add].
  rewrite bool_decide_eq_true_2 by reflexivity. rewrite length_app. reflexivity.
Qed.

Lemma parseChain_sentinel (frames more : list Buffer) :
  Forall is_frame frames -> Forall is_frame more ->
  parseChain (concat frames ++ x01 :: concat more)
  = Ok (map decoded (frames ++ more), None).
Proof.
  intros Hfs Hmore. unfold parseChain.
  change 0 with (length (@nil byte)).
  rewrite (loop_frames _ frames [] (x01 :: concat more)) by (assumption || reflexivity).
  cbn [app].
  rewrite (loop_sentinel _ (concat frames) (concat more)) by reflexivity.
  rewrite (loop_frames _ more (concat frames ++ [x01]) [])
    by (assumption || (rewrite app_nil_r, <- app_assoc; reflexivity)).
  rewrite loop_end by (rewrite !length_app; cbn [length]; lia).
  rewrite map_app. reflexivity.
Qed.

(** A byte that is no index of [BLOCK_LENGTHS] where a frame should begin:
    the slice is empty and the 7-byte prefix alone does not parse. *)
Lemma loop_unknown_type (buf pre tail : Buffer) (t : byte)
    (rem : option Buffer) (out : list ParsedBody) :
  BLOCK_LENGTHS !! N.to_nat (Byte.to_N t) = None -> buf = pre ++ t :: tail ->
  parseChain_loop buf (length pre) rem out = Err RangeError.
Proof.
  intros Ht Hbuf. rewrite parseChain_loop_step.
  assert (Hat : buf !! length pre = Some t).
  { rewrite Hbuf, lookup_app_r, Nat.sub_diag by lia. reflexivity. }
  rewrite Hat, Ht.
  assert (Hslice : slice (length pre) 0 buf = []).
  { unfold slice. replace (0 - length pre) with 0 by lia. apply take_0. }
  rewrite Hslice. reflexivity.
Qed.
End Sentinel.

(** X10: frames, then the not_a_block byte, then more frames: every frame is
    decoded, also those behind the byte, and [remaining] is [null]. *)
Theorem chain_goes_on_after_sentinel `{Crypto} (frames more : list Buffer) :
  Forall is_frame frames -> Forall is_frame more ->
  parseChain (concat frames ++ x01 :: concat more)
  = Ok (map decoded frames ++ map decoded more, None).
Proof.
  intros Hfs Hmore. rewrite <- map_app. apply parseChain_sentinel; assumption.
Qed.

Lemma chain_goes_on_after_sentinel_witness :
  @parseChain sample_crypto (receive_frame ++ x01 :: receive_frame)
  = Ok ([@decoded sample_crypto receive_frame; @decoded sample_crypto receive_frame], None).
Proof.
  rewrite <- (app_nil_r receive_frame) at 1 2.
  apply (@chain_goes_on_after_sentinel sample_crypto [receive_frame] [receive_frame]);
    (constructor; [exact receive_frame_is_frame | constructor]).
Defined.

(** X11: a byte of 7 or more where a frame should begin makes [parseChain]
    throw a [RangeError], whatever follows it and however many complete
    frames come before. *)
Theorem chain_unknown_type_byte `{Crypto} (frames : list Buffer) (t : byte) (tail : Buffer) :
  Forall is_frame frames -> 7 <= N.to_nat (Byte.to_N t) ->
  parseChain (concat frames ++ t :: tail) = Err RangeError.
Proof.
  intros Hfs Ht. unfold parseChain.
  change 0 with (length (@nil byte)).
  rewrite (loop_frames _ frames [] (t :: tail)) by (assumption || reflexivity).
  cbn [app]. apply (loop_unknown_type _ (concat frames) tail t); [|reflexivity].
  apply lookup_ge_None_2. exact Ht.
Qed.

Lemma chain_unknown_type_byte_witness :
  @parseChain sample_crypto (receive_frame ++ [x07; x00]) = Err RangeError.
Proof.
  rewrite <- (app_nil_r receive_frame) at 1.
  apply (@chain_unknown_type_byte sample_crypto [receive_frame] x07 [x00]).
  - constructor; [exact receive_frame_is_frame | constructor].
  - vm_compute. lia.
Defined.

Lemma frames_before_sentinel (frames done : list Buffer) (p q : Buffer) :
  Forall is_frame frames -> done `prefix_of` frames -> partial_frame p ->
  concat done ++ p ++ q = concat frames ++ [x01] -> q <> [] ->
  exists later, frames = done ++ later /\ p ++ q = concat later ++ [x01].
Proof.
  intros Hfs [later ->] Hp Heq Hq. exists later. split; [reflexivity|].
  rewrite concat_app, <- app_assoc in Heq. apply app_inv_head in Heq. exact Heq.
Qed.

(** X12: a stream of complete frames closed by the not_a_block byte, cut into
    packets in any way with a last packet that is not empty: the
    connection ends with all the blocks, [remaining] is [null] and the
    blocks are pushed to [responses] once. Any further data on that
    connection is a [TypeError]. *)
Theorem pull_ends_at_sentinel `{Crypto} (frames init : list Buffer) (last : Buffer) :
  Forall is_frame frames -> last <> [] ->
  concat init ++ last = concat frames ++ [x01] ->
  feed pull_start (init ++ [last])
  = Ok {| blocks := map decoded frames; remaining := None;
          responses := [map decoded frames] |}
  /\ forall data, feed pull_start (init ++ [last; data]) = Err TypeError.
Proof.
  intros Hfs Hlast Heq.
  assert (Hpre : concat init `prefix_of` concat frames).
  { destruct (exists_last Hlast) as (l' & b & ->).
    rewrite app_assoc in Heq. apply app_inj_tail in Heq as [Heq _].
    exists l'. symmetry. exact Heq. }
  destruct (feed_prefix frames Hfs init Hpre) as (done & p & Hdp & Hdone & Hp & Hfeed).
  destruct (frames_before_sentinel frames done p last Hfs Hdone Hp) as (later & -> & Hlater).
  { rewrite app_assoc, <- Hdp. exact Heq. }
  { exact Hlast. }
  apply Forall_app in Hfs as [Hfs1 Hfs2].
  assert (Hone : feed pull_start (init ++ [last])
                 = Ok {| blocks := map decoded (done ++ later); remaining := None;
                         responses := [map decoded (done ++ later)] |}).
  { unfold feed in *. rewrite foldM_snoc, Hfeed. cbn [rbind].
    unfold on_data. cbn [remaining blocks responses Buffer_concat rbind].
    rewrite app_nil_r, Hlater.
    change (concat later ++ [x01]) with (concat later ++ x01 :: concat []).
    rewrite (parseChain_sentinel later [] Hfs2 (List.Forall_nil _)). cbn [rbind fst snd].
    rewrite app_nil_r, map_app. reflexivity. }
  split; [exact Hone|].
  intros data. change [last; data] with ([last] ++ [data]).
  rewrite app_assoc. unfold feed in *. rewrite foldM_snoc, Hone. reflexivity.
Qed.

Lemma pull_ends_at_sentinel_witness :
  @feed sample_crypto pull_start ([take 100 receive_frame] ++ [drop 100 receive_frame ++ [x01]])
  = Ok {| blocks := [@decoded sample_crypto receive_frame]; remaining := None;
          responses := [[@decoded sample_crypto receive_frame]] |}
  /\ forall data,
       @feed sample_crypto pull_start
         ([take 100 receive_frame] ++ [drop 100 receive_frame ++ [x01]; data])
       = Err TypeError.
Proof.
  apply (@pull_ends_at_sentinel sample_crypto [receive_frame] [take 100 receive_frame]
           (drop 100 receive_frame ++ [x01])).
  - constructor; [exact receive_frame_is_frame | constructor].
  - discriminate.
  - reflexivity.
Defined.

(** ** Rendering a block: the checks, in order *)

Lemma mapM_app_err {A B} (f : A -> result B) (pre post : list A) (x : A) (e : Error) :
  (forall a, a ∈ pre -> exists y, f a = Ok y) -> f x = Err e ->
  mapM f (pre ++ x :: post) = Err e.
Proof.
  intros Hpre Hx. induction pre as [|a pre IH]; cbn [app mapM].
  - rewrite Hx. reflexivity.
  - destruct (Hpre a) as [y Hy]; [apply list_elem_of_here|].
    rewrite Hy. cbn [rbind].
    rewrite IH by (intros b Hb; apply Hpre, list_elem_of_further, Hb). reflexivity.
Qed.

(** A publish or confirm_req message whose body is an object is rendered
    by the block branch, on a header of 8 bytes. *)
Lemma renderMessage_block `{Crypto} (msg : Msg) (key : option string) (mtype : string)
    (o : gmap string string) :
  mtype ∈ ["publish"; "confirm_req"] ->
  msg_type msg = Some mtype -> extensions_fit msg -> msg_body msg = BObject o ->
  exists header, length header = 8 /\ renderMessage msg key = render_block header o key.
Proof.
  intros Hmtype Hty Hfit Hbody.
  unfold renderMessage. rewrite Hty, Hbody. cbn [mbind option_bind].
  repeat (apply elem_of_cons in Hmtype as [->|Hmtype]);
    try (apply elem_of_nil in Hmtype; contradiction).
  all: first [ progress change (indexOf "publish" MESSAGE_TYPES) with (Some 3)
             | progress change (indexOf "confirm_req" MESSAGE_TYPES) with (Some 4) ].
  all: render_header; cbn [truthy andb orb bool_decide decide_rel];
    eexists; (split; [|reflexivity]); reflexivity.
Qed.

Lemma field_value_present `{Crypto} (body : gmap string string) (g v : string) :
  is_Some (prop g REQUIRED_FIELDS) ->
  body !! g = Some v -> length (fromHex v) = field_length g ->
  field_value body g = Ok (fromHex v).
Proof.
  intros [spec Hspec] Hv Hlen. unfold field_value, field_length in *.
  rewrite Hv, Hspec in *. cbn zeta. rewrite Hlen, Nat.eqb_refl. reflexivity.
Qed.

(** X13: the fields are checked in the order of [blockFields], and the first
    one that is missing or has the wrong length names the error: with
    every field before [f] present at its length, a missing [f] is
    [missing_field_f] and an [f] of another length is
    [length_mismatch_f], whatever the rest of the block holds. *)
Theorem first_bad_field_is_reported `{Crypto} (msg : Msg) (key : option string)
    (mtype t : string) (pre post : list string) (f : string) (body : gmap string string) :
  mtype ∈ ["publish"; "confirm_req"] -> t ∈ variants ->
  msg_type msg = Some mtype -> extensions_fit msg ->
  msg_body msg = BObject body -> body !! "type" = Some t ->
  blockFields t = Some (pre ++ f :: post) ->
  (forall g, g ∈ pre -> exists v, body !! g = Some v /\ length (fromHex v) = field_length g) ->
  match body !! f with
  | None => renderMessage msg key = Err (ParseError ("missing_field_" +:+ f))
  | Some v =>
      length (fromHex v) <> field_length f ->
      renderMessage msg key = Err (ParseError ("length_mismatch_" +:+ f))
  end.
Proof.
  intros Hmtype Ht Hty Hfit Hbody Hbt Hfields Hpre.
  destruct (renderMessage_block msg key mtype body Hmtype Hty Hfit Hbody)
    as (header & Hheader & ->).
  destruct (variant_fields t _ Ht Hfields)
    as (Hknown & _ & _ & _ & _ & Hprop & (i & Hi & _ & Hrange & _)).
  rewrite Forall_forall in Hknown.
  assert (Hgo : forall e, field_value body f = Err e ->
                          render_block header body key = Err e).
  { intros e He. unfold render_block.
    rewrite Hbt, Hprop, Hi, writeInt16BE_fits by lia. cbn [rbind]. rewrite Hfields.
    rewrite (mapM_app_err (field_value body) pre post f e); [reflexivity | | exact He].
    intros g Hg. destruct (Hpre g Hg) as (v & Hv & Hlen).
    exists (fromHex v). apply field_value_present; [|assumption..].
    apply Hknown. apply elem_of_app. left. exact Hg. }
  destruct (body !! f) as [v|] eqn:Hf.
  - intros Hlen. apply Hgo. unfold field_value. rewrite Hf. cbn zeta.
    destruct (Hknown f) as [spec Hspec]; [apply elem_of_app; right; apply list_elem_of_here|].
    unfold field_length in Hlen. rewrite Hspec in *.
    replace (length (fromHex v) =? length_ spec) with false
      by (symmetry; apply Nat.eqb_neq; exact Hlen).
    reflexivity.
  - apply Hgo. unfold field_value. rewrite Hf. reflexivity.
Qed.

Lemma first_bad_field_is_reported_witness :
  @renderMessage sample_crypto
    (plain "publish"
       (BObject {[ "type" := "send";
                   "previous" :=
                     "00112233445566778899aabbccddeeff00112233445566778899aabbccddeeff";
                   "balance" := "00" ]})) None
  = Err (ParseError "missing_field_destination").
Proof.
  apply (@first_bad_field_is_reported sample_crypto
           (plain "publish"
              (BObject {[ "type" := "send";
                          "previous" :=
                            "00112233445566778899aabbccddeeff00112233445566778899aabbccddeeff";
                          "balance" := "00" ]}))
           None "publish" "send" ["previous"] ["balance"] "destination" _
           ltac:(apply list_elem_of_here) ltac:(apply list_elem_of_here)
           eq_refl I eq_refl eq_refl eq_refl).
  intros g Hg. apply list_elem_of_singleton in Hg as ->.
  eexists. split; reflexivity.
Defined.

(** X14: with no key given, a work value that is not 8 bytes long is
    [length_mismatch_work], whether the block has a signature or not: the
    length of the work is checked before the message is put together. *)
Theorem work_length_is_checked `{Crypto} (msg : Msg) (mtype t : string)
    (fields : list string) (body : gmap string string) (w : string) :
  mtype ∈ ["publish"; "confirm_req"] -> t ∈ variants ->
  msg_type msg = Some mtype -> extensions_fit msg ->
  msg_body msg = BObject body -> body !! "type" = Some t ->
  blockFields t = Some fields ->
  (forall g, g ∈ fields ->
             exists v, body !! g = Some v /\ length (fromHex v) = field_length g) ->
  body !! "work" = Some w -> length (fromHex w) <> 8 ->
  renderMessage msg None = Err (ParseError "length_mismatch_work").
Proof.
  intros Hmtype Ht Hty Hfit Hbody Hbt Hfields Hall Hw Hlen.
  destruct (renderMessage_block msg None mtype body Hmtype Hty Hfit Hbody)
    as (header & Hheader & ->).
  destruct (variant_fields t _ Ht Hfields)
    as (Hknown & _ & _ & _ & _ & Hprop & (i & Hi & _ & Hrange & _)).
  rewrite Forall_forall in Hknown.
  destruct (mapM_total (field_value body) fields) as [values Hvalues].
  { intros g Hg. destruct (Hall g Hg) as (v & Hv & Hl).
    exists (fromHex v). apply field_value_present; [apply Hknown, Hg | assumption..]. }
  unfold render_block.
  rewrite Hbt, Hprop, Hi, writeInt16BE_fits by lia. cbn [rbind]. rewrite Hfields, Hvalues.
  cbn [rbind]. rewrite Hw.
  assert (Hshort : (length (if String.eqb t "state" then fromHex w else rev (fromHex w)) =? 8)
                   = false).
  { apply Nat.eqb_neq. destruct (String.eqb t "state"); rewrite ?length_rev; exact Hlen. }
  destruct (body !! "signature"); cbn [rbind];
    rewrite (work_order t _ Ht), Hshort; reflexivity.
Qed.

Lemma work_length_is_checked_witness :
  @renderMessage sample_crypto
    (plain "publish" (BObject (<["work" := "01020304050607"]> unsigned_receive))) None
  = Err (ParseError "length_mismatch_work").
Proof.
  apply (@work_length_is_checked sample_crypto
           (plain "publish" (BObject (<["work" := "01020304050607"]> unsigned_receive)))
           "publish" "receive" ["previous"; "source"] _ "01020304050607"
           ltac:(apply list_elem_of_here)
           ltac:(unfold variants; apply list_elem_of_further, list_elem_of_here)
           eq_refl I eq_refl eq_refl eq_refl).
  - intros g Hg.
    apply elem_of_cons in Hg as [->|Hg]; [eexists; split; reflexivity|].
    apply list_elem_of_singleton in Hg as ->. eexists; split; reflexivity.
  - reflexivity.
  - vm_compute. lia.
Defined.

(** X15: a complete block without a [signature] property, rendered with a
    key that is not the empty string: a key of 32 bytes signs the hash of
    the fields and the signature is placed between the fields and the
    work; a key of any other length is [length_mismatch_private_key]. *)
Theorem block_is_signed_with_the_key `{Crypto} (msg : Msg) (key : string)
    (mtype t : string) (fields : list string) (vals : string -> Buffer) (work : Buffer) :
  mtype ∈ ["publish"; "confirm_req"] -> t ∈ variants ->
  msg_type msg = Some mtype -> extensions_fit msg ->
  blockFields t = Some fields ->
  (forall f, f ∈ fields -> length (vals f) = field_length f) ->
  length work = 8 -> key <> "" ->
  msg_body msg = BObject (unsigned_block_object t fields vals work) ->
  let payload := concat (map vals fields) in
  if length (fromHex key) =? 32
  then exists header,
         length header = 8
         /\ renderMessage msg (Some key)
            = Ok {| message :=
                      Some (header ++ payload
                              ++ sign_detached (blake2b 32 payload) (fromHex key)
                              ++ (if String.eqb t "state" then work else rev work));
                    hash := Some (toHex (blake2b 32 payload)) |}
  else renderMessage msg (Some key) = Err (ParseError "length_mismatch_private_key").
Proof.
  intros Hmtype Ht Hty Hfit Hfields Hlengths Hwork Hkey Hbody payload.
  destruct (renderMessage_block msg (Some key) mtype _ Hmtype Hty Hfit Hbody)
    as (header & Hheader & ->).
  destruct (variant_fields t fields Ht Hfields)
    as (Hknown & Hnt & Hns & Hnw & _ & Hprop & (i & Hi & _ & Hrange & _)).
  set (body := unsigned_block_object t fields vals work) in *.
  assert (Hbt : body !! "type" = Some t).
  { unfold body, unsigned_block_object. rewrite lookup_insert_ne by discriminate.
    rewrite fold_fields_other by exact Hnt. apply lookup_singleton_eq. }
  assert (Hbf : forall f, f ∈ fields -> body !! f = Some (toHex (vals f))).
  { intros f Hf. unfold body, unsigned_block_object.
    rewrite lookup_insert_ne by (intros <-; contradiction).
    apply (fold_fields_lookup (fun f => toHex (vals f))), Hf. }
  assert (Hbs : body !! "signature" = None).
  { unfold body, unsigned_block_object. rewrite lookup_insert_ne by discriminate.
    rewrite fold_fields_other by exact Hns. apply lookup_singleton_ne. discriminate. }
  assert (Hbw : body !! "work" = Some (toHex work)).
  { unfold body, unsigned_block_object. apply lookup_insert_eq. }
  unfold render_block.
  rewrite Hbt, Hprop, Hi, writeInt16BE_fits by lia. cbn [rbind]. rewrite Hfields.
  rewrite (render_values vals fields Hknown Hlengths) by (try reflexivity; exact Hbf).
  cbn [rbind]. rewrite Hbs, Hbw.
  apply String.eqb_neq in Hkey. rewrite Hkey.
  destruct (length (fromHex key) =? 32); [|reflexivity].
  cbn [rbind]. rewrite fromHex_toHex, (work_order t work Ht).
  replace (length (if String.eqb t "state" then work else rev work) =? 8) with true
    by (destruct (String.eqb t "state"); rewrite ?length_rev, Hwork; reflexivity).
  change ([Some ?h] ++ ?l) with (Some h :: l). cbn [Buffer_concat].
  rewrite (Buffer_concat_app _ _ _ (Buffer_concat_all _)). cbn [Buffer_concat rbind].
  rewrite app_nil_r. eexists. split; [|reflexivity].
  rewrite !length_insert. exact Hheader.
Qed.

Lemma block_is_signed_with_the_key_witness :
  let vals := fun f => replicate (field_length f) x2a in
  let payload := concat (map vals ["previous"; "source"]) in
  exists header,
    length header = 8
    /\ @renderMessage sample_crypto
         (plain "publish"
            (BObject (unsigned_block_object "receive" ["previous"; "source"] vals
                        [x01; x02; x03; x04; x05; x06; x07; x08])))
         (Some "00112233445566778899aabbccddeeff00112233445566778899aabbccddeeff")
       = Ok {| message :=
                 Some (header ++ payload
                         ++ @sign_detached sample_crypto (@blake2b sample_crypto 32 payload)
                              (fromHex
                                 "00112233445566778899aabbccddeeff00112233445566778899aabbccddeeff")
                         ++ rev [x01; x02; x03; x04; x05; x06; x07; x08]);
               hash := Some (toHex (@blake2b sample_crypto 32 payload)) |}.
Proof.
  intros vals payload.
  apply (@block_is_signed_with_the_key sample_crypto _
           "00112233445566778899aabbccddeeff00112233445566778899aabbccddeeff"
           "publish" "receive" ["previous"; "source"] vals
           [x01; x02; x03; x04; x05; x06; x07; x08]).
  - apply list_elem_of_here.
  - unfold variants. apply list_elem_of_further, list_elem_of_here.
  - reflexivity.
  - exact I.
  - reflexivity.
  - intros f _. apply length_replicate.
  - reflexivity.
  - discriminate.
  - reflexivity.
Defined.

(** ** Peer addresses as strings *)

Lemma chars_app (a b : string) : chars (a +:+ b) = chars a ++ chars b.
Proof.
  unfold chars. induction a as [|c a IH]; [reflexivity|].
  cbn. rewrite <- IH. reflexivity.
Qed.

Lemma str_chars (s : string) : str (chars s) = s.
Proof. apply string_of_list_ascii_of_string. Qed.



(** The value of a decimal numeral read from the left, as
    [digits_value] reads its characters. *)
Lemma digits_value_numeral (d : Decimal.uint) (acc : Z) :
  (0 <= acc)%Z ->
  digits_value acc (chars (DecimalString.NilEmpty.string_of_uint d))
  = match Z.to_N acc with
    | N0 => Z.of_N (Pos.of_uint d)
    | Npos p => Zpos (Pos.of_uint_acc d p)
    end.
Proof.
  revert acc. induction d as [|d IH|d IH|d IH|d IH|d IH|d IH|d IH|d IH|d IH|d IH];
    intros acc Hacc.
  1: { cbn. destruct acc; cbn; lia || reflexivity. }
  1: { change (chars (DecimalString.NilEmpty.string_of_uint (Decimal.D0 d)))
         with ("0"%char :: chars (DecimalString.NilEmpty.string_of_uint d)).
       cbn [digits_value]. change (is_digit "0") with true. cbv iota.
       rewrite IH by (cbn; lia).
       change (Z.of_N (N_of_ascii "0" - 48)) with 0%Z.
       destruct acc as [|p|p]; [reflexivity | | lia].
       cbn [Z.to_N Pos.of_uint_acc].
       replace (Z.to_N (Z.pos p * 10 + 0)) with (Npos (10 * p)) by lia. reflexivity. }
  all: match goal with
       | |- context [DecimalString.NilEmpty.string_of_uint (?D ?x)] =>
           let s := eval cbv in (DecimalString.NilEmpty.string_of_uint (D Decimal.Nil)) in
           match s with
           | String ?c _ =>
               change (chars (DecimalString.NilEmpty.string_of_uint (D x)))
                 with (c :: chars (DecimalString.NilEmpty.string_of_uint x));
               cbn [digits_value]; change (is_digit c) with true; cbv iota;
               rewrite IH by (cbn; lia);
               let v := eval cbv in (Z.of_N (N_of_ascii c - 48)) in
               change (Z.of_N (N_of_ascii c - 48)) with v
           end
       end.
  all: destruct acc as [|p|p]; [reflexivity | | lia].
  all: cbn [Z.to_N Pos.of_uint Pos.of_uint_acc].
  all: match goal with
       | |- context [Z.to_N (Z.pos ?q * 10 + ?k)] =>
           let kp := eval cbv in (Z.to_pos k) in
           replace (Z.to_N (Z.pos q * 10 + k)) with (Npos (kp + 10 * q)) by lia
       end.
  all: reflexivity.
Qed.

Lemma numeral_digits (d : Decimal.uint) :
  forallb is_digit (chars (DecimalString.NilEmpty.string_of_uint d)) = true.
Proof. induction d; [reflexivity | exact IHd..]. Qed.

Lemma parseInt_numeral (d : Decimal.uint) :
  parseInt (DecimalString.NilZero.string_of_uint d) = Some (Z.of_N (N.of_uint d)).
Proof.
  assert (Hgo : forall c rest,
             is_digit c = true ->
             parseInt (String c rest) = Some (digits_value 0 (c :: chars rest))).
  { intros c rest Hc. unfold parseInt. change (chars (String c rest)) with (c :: chars rest).
    assert (Hsp : is_space c = false).
    { clear -Hc. destruct c as [[] [] [] [] [] [] [] []]; try discriminate; reflexivity. }
    cbn [skip_spaces]. rewrite Hsp.
    assert (Hsign : c <> "-"%char /\ c <> "+"%char) by (split; intros ->; discriminate).
    destruct Hsign as [Hm Hp].
    destruct c as [[] [] [] [] [] [] [] []]; try discriminate; try contradiction;
      rewrite ?Hc; try reflexivity;
      match goal with |- Some (1 * ?x)%Z = _ => destruct x; reflexivity end. }
  destruct d; try reflexivity.
  all: unfold DecimalString.NilZero.string_of_uint, N.of_uint.
  all: match goal with
       | |- parseInt (DecimalString.NilEmpty.string_of_uint ?x) = _ =>
           pose proof (digits_value_numeral x 0 ltac:(lia)) as Hv;
           cbn [Z.to_N] in Hv; rewrite <- Hv
       end.
  all: apply Hgo; reflexivity.
Qed.

Lemma port_reads_back (port : Z) :
  (0 <= port)%Z ->
  parseInt (dec port) = Some port
  /\ forallb (fun x => negb (Ascii.eqb x ":")) (chars (dec port)) = true.
Proof.
  intros Hport. unfold dec. split.
  - rewrite parseInt_numeral, DecimalN.Unsigned.of_to. f_equal. lia.
  - assert (Hd : forall d, forallb is_digit (chars (DecimalString.NilZero.string_of_uint d))
                           = true).
    { intros d. destruct d; try reflexivity; apply numeral_digits. }
    specialize (Hd (N.to_uint (Z.to_N port))).
    rewrite forallb_forall in *. intros x Hx. specialize (Hd x Hx).
    destruct (Ascii.eqb_spec x ":") as [->|]; [discriminate | reflexivity].
Qed.




(** ** fetchAccount: when the callback runs *)

Section Fetching.
Context `{Crypto}.

(** One event leaves [retLimit] alone, counts a return, and keeps the
    callback run exactly when [retCount] has reached [retLimit]. *)
Lemma fetch_event_counts (st st' : Fetch) (ev : nat * SocketEvent) :
  fetch_event st ev = Ok st' ->
  retLimit st' = retLimit st
  /\ retCount st' = retCount st + (match snd ev with EvData _ => 0 | _ => 1 end)
  /\ callback_calls st'
     = callback_calls st
         ++ match snd ev with
            | EvData _ => []
            | _ => if S (retCount st) =? retLimit st
                   then [pullStats (fetch_responses st)] else []
            end.
Proof.
  destruct ev as [i [data| | |]]; cbn [fetch_event snd].
  - destruct (conns st !! i) as [[its_blocks its_remaining]|].
    + destruct (on_data _ data) as [conn|e]; cbn [rbind]; [|discriminate].
      intros [= <-]. cbn. rewrite Nat.add_0_r, app_nil_r. auto.
    + intros [= <-]. rewrite Nat.add_0_r, app_nil_r. auto.
  - intros [= <-]. unfold clientReturn. cbn [retLimit retCount callback_calls].
    split; [reflexivity|]. split; [lia|].
    destruct (S (retCount st) =? retLimit st); rewrite ?app_nil_r; reflexivity.
  - intros [= <-]. unfold clientReturn. cbn [retLimit retCount callback_calls].
    split; [reflexivity|]. split; [lia|].
    destruct (S (retCount st) =? retLimit st); rewrite ?app_nil_r; reflexivity.
  - intros [= <-]. unfold clientReturn. cbn [retLimit retCount callback_calls].
    split; [reflexivity|]. split; [lia|].
    destruct (S (retCount st) =? retLimit st); rewrite ?app_nil_r; reflexivity.
Qed.

Lemma fetch_events_count (evs : list (nat * SocketEvent)) :
  forall st st',
    foldM fetch_event evs st = Ok st' ->
    length (callback_calls st)
    = (if (1 <=? retLimit st) && (retLimit st <=? retCount st) then 1 else 0) ->
    retLimit st' = retLimit st
    /\ retCount st'
       = retCount st
         + length (List.filter (fun ev => match snd ev with EvData _ => false | _ => true end)
                     evs)
    /\ length (callback_calls st')
       = (if (1 <=? retLimit st') && (retLimit st' <=? retCount st') then 1 else 0).
Proof.
  induction evs as [|ev evs IH]; intros st st' Hrun Hinv.
  - injection Hrun as <-. cbn. rewrite Nat.add_0_r. auto.
  - cbn [foldM] in Hrun. destruct (fetch_event st ev) as [st1|e] eqn:Hev; [|discriminate].
    cbn [rbind] in Hrun.
    destruct (fetch_event_counts st st1 ev Hev) as (Hlim & Hcount & Hcalls).
    destruct (IH st1 st' Hrun) as (Hlim' & Hcount' & Hcalls').
    { rewrite Hcalls, length_app, Hinv, Hlim, Hcount.
      destruct (snd ev); cbn [length]; rewrite ?Nat.add_0_r; try reflexivity.
      all: destruct (Nat.eqb_spec (S (retCount st)) (retLimit st));
        destruct (Nat.leb_spec 1 (retLimit st));
        destruct (Nat.leb_spec (retLimit st) (retCount st));
        destruct (Nat.leb_spec (retLimit st) (retCount st + 1));
        cbn [andb length]; lia. }
    split; [congruence|]. split; [|exact Hcalls'].
    rewrite Hcount', Hcount. cbn [List.filter].
    destruct (snd ev); cbn [length]; lia.
Qed.
End Fetching.

(** X17: whatever the sockets of a [fetchAccount] do and in whatever order,
    as long as no [data] handler throws: [retCount] counts the [end],
    [error] and timeout events of all connections together, and the
    callback has run once if the node has a peer and that count has
    reached the number of peers, and not at all otherwise. One connection
    that ends and then times out counts twice; with no peer the callback
    never runs. *)
Theorem fetch_callback_runs_once `{Crypto} (node : NanoNode)
    (evs : list (nat * SocketEvent)) (st : Fetch) :
  foldM fetch_event evs (fetch_start node) = Ok st ->
  let returned :=
    length (List.filter (fun ev => match snd ev with EvData _ => false | _ => true end) evs) in
  retCount st = returned
  /\ length (callback_calls st)
     = if (1 <=? length (peers node)) && (length (peers node) <=? returned) then 1 else 0.
Proof.
  intros Hrun returned.
  destruct (fetch_events_count evs (fetch_start node) st Hrun) as (Hlim & Hcount & Hcalls).
  { cbn [fetch_start callback_calls retLimit retCount length].
    destruct (length (peers node)); reflexivity. }
  cbn [fetch_start retLimit retCount] in Hlim, Hcount. cbn [Nat.add] in Hcount.
  split; [exact Hcount|]. rewrite Hcalls, Hlim, Hcount. reflexivity.
Qed.

Lemma fetch_callback_runs_once_witness :
  let node := {| peers := ["10.0.0.1:7075"; "10.0.0.2:7075"]; maxPeers := 200;
                 minimalConfirmAck := true |} in
  exists st,
    foldM (@fetch_event sample_crypto) [(0, EvEnd); (0, EvTimeout)] (fetch_start node) = Ok st
    /\ retCount st = 2
    /\ length (callback_calls st) = 1.
Proof.
  intros node. eexists. split; [reflexivity|].
  apply (@fetch_callback_runs_once sample_crypto node [(0, EvEnd); (0, EvTimeout)]).
  reflexivity.
Defined.

(** ** The keepalive handler: who is probed *)

Lemma slice_lookup (a b k : nat) (buf l : Buffer) :
  slice a b buf = l -> k < length l -> buf !! (a + k) = l !! k.
Proof.
  intros <- Hk. unfold slice in *. rewrite length_take in Hk.
  rewrite lookup_take_lt by lia. rewrite lookup_drop. reflexivity.
Qed.

Lemma slice_take (a n k : nat) (buf : Buffer) :
  k <= n -> slice a (a + k) buf = take k (slice a (a + n) buf).
Proof.
  intros Hk. unfold slice. rewrite take_take.
  replace (a + k - a) with k by lia. replace (a + n - a) with n by lia.
  f_equal. lia.
Qed.

(** The first character of a decimal numeral is a digit. *)
Lemma dec_head (z : Z) : exists c rest, dec z = String c rest /\ is_digit c = true.
Proof.
  unfold dec. destruct (N.to_uint (Z.to_N z)); eexists _, _; split; reflexivity.
Qed.

Lemma rsearch_bol (r : regex) (rest : list ascii) :
  forall i, 0 < i -> rsearch (RSeq RBol r) i rest = None.
Proof.
  induction rest as [|c rest IH]; intros i Hi; cbn [rsearch rmatch].
  - replace (i =? 0) with false by (symmetry; apply Nat.eqb_neq; lia). reflexivity.
  - replace (i =? 0) with false by (symmetry; apply Nat.eqb_neq; lia).
    cbn [or_else]. apply IH. lia.
Qed.

(** A string that does not begin with a bracket does not have the form of
    an IPv6 address. *)
Lemma ipv6_needs_bracket (c : ascii) (rest : string) :
  c <> "["%char -> test IPV6_PATTERN (String c rest) = false.
Proof.
  intros Hc. unfold test, IPV6_PATTERN.
  change (chars (String c rest)) with (c :: chars rest).
  cbn [rsearch]. rewrite rsearch_bol by lia.
  cbn [rmatch Nat.eqb]. apply Ascii.eqb_neq in Hc. rewrite Hc. reflexivity.
Qed.

Section Probes.
Context `{Crypto}.



(** An entry that holds the IPv4 mask, four address bytes and the port. *)
Lemma parseIp_ipv4 (buf : Buffer) (offset : nat) (a0 a1 a2 a3 p0 p1 : byte) :
  slice offset (offset + 18) buf = IPV4MASK ++ [a0; a1; a2; a3; p0; p1] ->
  parseIp buf offset
  = Ok (peerAddress
          (dec (Z_of_byte a0) +:+ "." +:+ dec (Z_of_byte a1) +:+ "."
             +:+ dec (Z_of_byte a2) +:+ "." +:+ dec (Z_of_byte a3))
          (Z_of_byte p1 * 256 + Z_of_byte p0)).
Proof.
  intros Hentry. unfold parseIp.
  rewrite (slice_take offset 18 12) by lia. rewrite Hentry.
  rewrite bool_decide_eq_true_2 by reflexivity.
  assert (Hat : forall k, k < 18 ->
                  buf !! (offset + k) = (IPV4MASK ++ [a0; a1; a2; a3; p0; p1]) !! k).
  { intros k Hk. apply (slice_lookup offset (offset + 18)); [exact Hentry | exact Hk]. }
  cbn [seq map]. unfold readUInt16LE.
  replace (S (offset + 16)) with (offset + 17) by lia.
  replace (S (offset + 12)) with (offset + 13) by lia.
  replace (S (offset + 13)) with (offset + 14) by lia.
  replace (S (offset + 14)) with (offset + 15) by lia.
  rewrite !Hat by lia. reflexivity.
Qed.
End Probes.



(** ** Keepalive with one IPv4 peer: the round trip *)

Lemma digit_is_no_separator (c : ascii) :
  is_digit c = true -> in_class [(".", "."); (":", ":")]%char c = false.
Proof. destruct c as [[] [] [] [] [] [] [] []]; try discriminate; reflexivity. Qed.

(** [split] on dots and colons: digits are collected, a separator ends
    the piece. *)
Lemma split_from_digits (ds rest cur : list ascii) (q : nat) :
  forallb is_digit ds = true ->
  split_from (RClass [(".", "."); (":", ":")]%char) q (ds ++ rest) 0 cur
  = split_from (RClass [(".", "."); (":", ":")]%char) (q + length ds) rest 0 (rev ds ++ cur).
Proof.
  revert q cur. induction ds as [|d ds IH]; intros q cur Hds.
  - cbn [app length rev]. rewrite Nat.add_0_r. reflexivity.
  - cbn [forallb] in Hds. apply andb_true_iff in Hds as [Hd Hds].
    cbn [app split_from rmatch]. rewrite (digit_is_no_separator d Hd).
    rewrite IH by exact Hds. cbn [length rev]. rewrite <- app_assoc. cbn [app].
    f_equal. lia.
Qed.

Lemma split_from_separator (c : ascii) (rest cur : list ascii) (q : nat) :
  in_class [(".", "."); (":", ":")]%char c = true ->
  split_from (RClass [(".", "."); (":", ":")]%char) q (c :: rest) 0 cur
  = str (rev cur) :: split_from (RClass [(".", "."); (":", ":")]%char) (S q) rest 0 [].
Proof.
  intros Hc. cbn [split_from rmatch]. rewrite Hc.
  replace (q <? S q) with true by (symmetry; apply Nat.ltb_lt; lia).
  replace (S q - q - 1) with 0 by lia. reflexivity.
Qed.

Lemma dec_digits (z : Z) : forallb is_digit (chars (dec z)) = true.
Proof.
  unfold dec. destruct (N.to_uint (Z.to_N z)); try reflexivity; apply numeral_digits.
Qed.

Lemma split_peer_address (a0 a1 a2 a3 port : Z) :
  split (RClass [(".", "."); (":", ":")]%char)
    (peerAddress (dec a0 +:+ "." +:+ dec a1 +:+ "." +:+ dec a2 +:+ "." +:+ dec a3) port)
  = [dec a0; dec a1; dec a2; dec a3; dec port].
Proof.
  unfold split, peerAddress. rewrite !chars_app.
  change (chars ".") with ["."%char]. change (chars ":") with [":"%char].
  rewrite <- !app_assoc. cbn [app].
  repeat (rewrite split_from_digits by apply dec_digits;
          rewrite split_from_separator by reflexivity;
          rewrite app_nil_r, rev_involutive, str_chars;
          f_equal).
  rewrite <- (app_nil_r (chars (dec port))).
  rewrite split_from_digits by apply dec_digits.
  cbn [split_from]. rewrite app_nil_r, rev_involutive, str_chars. reflexivity.
Qed.

Lemma address_is_not_ipv6 (a0 : Z) (tail : string) (port : Z) :
  test IPV6_PATTERN (peerAddress (dec a0 +:+ tail) port) = false
  /\ peerAddress (dec a0 +:+ tail) port <> "[::]:0".
Proof.
  destruct (dec_head a0) as (c & rest & Hdec & Hdigit).
  assert (Hc : c <> "["%char) by (intros ->; discriminate).
  unfold peerAddress. rewrite Hdec. split.
  - apply ipv6_needs_bracket, Hc.
  - intros [= -> _]. contradiction.
Qed.

(** An entry of 18 zero bytes is the empty IPv6 address. *)
Lemma parseIp_zeros (pre post : Buffer) :
  parseIp (pre ++ alloc 18 ++ post) (length pre) = Ok "[::]:0".
Proof.
  assert (Hat : forall k, k < 18 -> (pre ++ alloc 18 ++ post) !! (length pre + k) = Some x00).
  { intros k Hk. rewrite lookup_app_r by lia.
    replace (length pre + k - length pre) with k by lia.
    rewrite lookup_app_l by (cbn; lia). apply lookup_replicate_2. exact Hk. }
  unfold parseIp.
  rewrite (slice_middle pre (take 12 (alloc 18)) (drop 12 (alloc 18) ++ post))
    by reflexivity || (cbn; lia).
  - rewrite bool_decide_eq_false_2 by discriminate.
    cbn [seq mapM]. unfold readUInt16BE, readUInt16LE.
    replace (length pre + 2 * 0) with (length pre + 0) by lia.
    replace (S (length pre + 0)) with (length pre + 1) by lia.
    replace (length pre + 2 * 1) with (length pre + 2) by lia.
    replace (S (length pre + 2)) with (length pre + 3) by lia.
    replace (length pre + 2 * 2) with (length pre + 4) by lia.
    replace (S (length pre + 4)) with (length pre + 5) by lia.
    replace (length pre + 2 * 3) with (length pre + 6) by lia.
    replace (S (length pre + 6)) with (length pre + 7) by lia.
    replace (length pre + 2 * 4) with (length pre + 8) by lia.
    replace (S (length pre + 8)) with (length pre + 9) by lia.
    replace (length pre + 2 * 5) with (length pre + 10) by lia.
    replace (S (length pre + 10)) with (length pre + 11) by lia.
    replace (length pre + 2 * 6) with (length pre + 12) by lia.
    replace (S (length pre + 12)) with (length pre + 13) by lia.
    replace (length pre + 2 * 7) with (length pre + 14) by lia.
    replace (S (length pre + 14)) with (length pre + 15) by lia.
    replace (S (length pre + 16)) with (length pre + 17) by lia.
    rewrite !Hat by lia. vm_compute. reflexivity.
Qed.

Lemma put_first_peer (header : Buffer) (a0 a1 a2 a3 port : Z) :
  length header = 8 ->
  (0 <= a0)%Z -> (0 <= a1)%Z -> (0 <= a2)%Z -> (0 <= a3)%Z -> (0 <= port < 65536)%Z ->
  put_peer 8 (header ++ alloc 144)
    (0, peerAddress (dec a0 +:+ "." +:+ dec a1 +:+ "." +:+ dec a2 +:+ "." +:+ dec a3) port)
  = Ok (header ++ IPV4MASK
          ++ [byte_of_Z a0; byte_of_Z a1; byte_of_Z a2; byte_of_Z a3;
              byte_of_Z port; byte_of_Z (port / 256)]
          ++ alloc 126).
Proof.
  intros Hheader H0 H1 H2 H3 Hport.
  do 9 (destruct header as [|? header]; try discriminate). clear Hheader.
  unfold put_peer.
  change (dec a0 +:+ "." +:+ dec a1 +:+ "." +:+ dec a2 +:+ "." +:+ dec a3)
    with (dec a0 +:+ ("." +:+ dec a1 +:+ "." +:+ dec a2 +:+ "." +:+ dec a3)) at 1.
  rewrite (proj1 (address_is_not_ipv6 a0 _ port)). cbn [negb].
  rewrite split_peer_address. cbn [length Nat.eqb].
  change (imap (fun i val => (i, val)) [dec a0; dec a1; dec a2; dec a3; dec port])
    with [(0, dec a0); (1, dec a1); (2, dec a2); (3, dec a3); (4, dec port)].
  cbn [foldM].
  rewrite (proj1 (port_reads_back a0 H0)). cbn [rbind Nat.eqb Nat.add Nat.mul].
  rewrite (proj1 (port_reads_back a1 H1)). cbn [rbind Nat.eqb Nat.add Nat.mul].
  rewrite (proj1 (port_reads_back a2 H2)). cbn [rbind Nat.eqb Nat.add Nat.mul].
  rewrite (proj1 (port_reads_back a3 H3)). cbn [rbind Nat.eqb Nat.add Nat.mul].
  rewrite (proj1 (port_reads_back port ltac:(lia))). cbn [rbind Nat.eqb Nat.add Nat.mul].
  unfold writeUInt16LE.
  replace ((0 <=? port)%Z) with true by (symmetry; apply Z.leb_le; lia).
  replace ((port <=? 65535)%Z) with true by (symmetry; apply Z.leb_le; lia).
  reflexivity.
Qed.

(** X19: a keepalive message with one peer, an IPv4 address and a port in
    their decimal forms: rendered and parsed back, the peer list is that
    one peer again. *)
Theorem keepalive_one_peer_round_trip `{Crypto} (msg : Msg) (key : option string)
    (minimal : bool) (a0 a1 a2 a3 port : Z) :
  msg_type msg = Some "keepalive" -> extensions_fit msg ->
  (0 <= a0 < 256)%Z -> (0 <= a1 < 256)%Z -> (0 <= a2 < 256)%Z -> (0 <= a3 < 256)%Z ->
  (0 <= port < 65536)%Z ->
  let peer :=
    peerAddress (dec a0 +:+ "." +:+ dec a1 +:+ "." +:+ dec a2 +:+ "." +:+ dec a3) port in
  msg_body msg = BArray [peer] ->
  exists bytes m,
    renderMessage msg key = Ok {| message := Some bytes; hash := None |}
    /\ length bytes = 152
    /\ parseMessage bytes minimal = Ok m
    /\ type m = "keepalive"
    /\ body m = PPeers [peer].
Proof.
  intros Hty Hfit H0 H1 H2 H3 Hport peer Hbody.
  assert (Hrender : exists net v1 v2 v3 e1 e2,
             renderMessage msg key
             = Ok {| message :=
                       Some ([x52; if net : bool then x43 else x41; v1; v2; v3; x02; e1; e2]
                               ++ IPV4MASK
                               ++ [byte_of_Z a0; byte_of_Z a1; byte_of_Z a2; byte_of_Z a3;
                                   byte_of_Z port; byte_of_Z (port / 256)]
                               ++ alloc 126);
                     hash := None |}).
  { unfold renderMessage. rewrite Hty, Hbody. cbn [mbind option_bind].
    change (indexOf "keepalive" MESSAGE_TYPES) with (Some 2).
    unfold peer.
    destruct (msg_mainnet msg) as [[|]|]; render_header; rewrite ?header_write;
      cbn [truthy andb orb bool_decide decide_rel length Nat.leb];
      change (imap (fun i a => (i, a)) [?p]) with [(0, p)]; cbn [foldM];
      (rewrite put_first_peer by (reflexivity || lia)); cbn [rbind];
      first [ exists true; eexists _, _, _, _, _; reflexivity
            | exists false; eexists _, _, _, _, _; reflexivity ]. }
  destruct Hrender as (net & v1 & v2 & v3 & e1 & e2 & Hrender).
  set (header := [x52; if net then x43 else x41; v1; v2; v3; x02; e1; e2]) in *.
  set (entry := IPV4MASK ++ [byte_of_Z a0; byte_of_Z a1; byte_of_Z a2; byte_of_Z a3;
                             byte_of_Z port; byte_of_Z (port / 256)]).
  set (bytes := header ++ IPV4MASK
                  ++ [byte_of_Z a0; byte_of_Z a1; byte_of_Z a2; byte_of_Z a3;
                      byte_of_Z port; byte_of_Z (port / 256)] ++ alloc 126) in *.
  assert (Hparse : parseMessage bytes minimal
                   = (check (length bytes =? 152) else ParseError "invalid_block_length";
                      do peers <- @parse_peers bytes;
                      Ok {| mainnet := net; versionMax := v1; versionUsing := v2;
                            versionMin := v3; type := "keepalive";
                            extensions := (Z_of_byte e1 * 256 + Z_of_byte e2)%Z;
                            body := PPeers peers;
                            account := None; signature := None; sequence := None;
                            block := None |})).
  { subst bytes header. destruct net; reflexivity. }
  assert (Hfirst : parseIp bytes 8 = Ok peer).
  { rewrite (parseIp_ipv4 bytes 8 (byte_of_Z a0) (byte_of_Z a1) (byte_of_Z a2) (byte_of_Z a3)
               (byte_of_Z port) (byte_of_Z (port / 256))) by reflexivity.
    rewrite !Z_of_byte_of_Z. subst peer.
    rewrite (Z.mod_small a0), (Z.mod_small a1), (Z.mod_small a2), (Z.mod_small a3) by lia.
    rewrite (Z.mod_small (port / 256)) by (split; [apply Z.div_pos; lia |
                                           apply Z.div_lt_upper_bound; lia]).
    replace (port / 256 * 256 + port mod 256)%Z with port
      by (pose proof (Z.div_mod port 256 ltac:(lia)); lia).
    reflexivity. }
  assert (Hrest : forall k, 1 <= k < 8 -> parseIp bytes (8 + 18 * k) = Ok "[::]:0").
  { intros k Hk.
    assert (Hsplit : bytes = (header ++ entry ++ alloc (18 * (k - 1)))
                               ++ alloc 18 ++ alloc (126 - 18 * k)).
    { subst bytes entry. rewrite <- !app_assoc. do 3 f_equal.
      unfold alloc. rewrite <- !replicate_add. f_equal. lia. }
    rewrite Hsplit.
    replace (8 + 18 * k) with (length (header ++ entry ++ alloc (18 * (k - 1))))
      by (unfold header, entry, alloc; rewrite !length_app, length_replicate;
          change (length IPV4MASK) with 12; cbn [length]; lia).
    apply parseIp_zeros. }
  exists bytes. eexists. split; [exact Hrender|]. split; [reflexivity|].
  rewrite Hparse. change (length bytes =? 152) with true. cbv iota.
  unfold parse_peers. cbn [seq foldM].
  change (parseIp bytes (8 + 18 * 0)) with (parseIp bytes 8). rewrite Hfirst. cbn [rbind].
  destruct (address_is_not_ipv6 a0
              ("." +:+ dec a1 +:+ "." +:+ dec a2 +:+ "." +:+ dec a3) port) as [_ Hne].
  apply String.eqb_neq in Hne. fold peer in Hne. rewrite Hne. cbn [rbind].
  do 7 (rewrite Hrest by lia; cbn [rbind String.eqb Ascii.eqb Bool.eqb]).
  split; [reflexivity|]. split; reflexivity.
Qed.

Lemma keepalive_one_peer_round_trip_witness :
  exists bytes m,
    @renderMessage sample_crypto (plain "keepalive" (BArray ["192.168.1.20:54000"])) None
    = Ok {| message := Some bytes; hash := None |}
    /\ length bytes = 152
    /\ @parseMessage sample_crypto bytes true = Ok m
    /\ type m = "keepalive"
    /\ body m = PPeers ["192.168.1.20:54000"].
Proof.
  apply (@keepalive_one_peer_round_trip sample_crypto
           (plain "keepalive" (BArray ["192.168.1.20:54000"])) None true
           192 168 1 20 54000); (reflexivity || exact I || lia).
Defined.

(** ** Every rendered keepalive parses *)

Section KeepaliveFrame.
Context `{Crypto}.

(** The writes of one peer keep the length of the message and stay
    clear of the header. *)
Lemma put_parts_frame (hl index : nat) (parts : list (nat * string)) :
  8 <= hl ->
  forall message message',
    foldM (fun message '(i, val) =>
             let pos := hl + 16 * index + 12 + i in
             match parseInt val with
             | None => Err (ParseError "invalid_address")
             | Some val =>
                 if i =? 4 then writeUInt16LE val pos message
                 else Ok (<[pos := byte_of_Z val]> message)
             end) parts message = Ok message' ->
    length message' = length message /\ take 8 message' = take 8 message.
Proof.
  intros Hhl. induction parts as [|[i val] parts IH]; intros message message' Hrun.
  - injection Hrun as <-. auto.
  - cbn [foldM] in Hrun. cbv zeta in Hrun.
    destruct (parseInt val) as [v|]; [|discriminate].
    destruct (i =? 4).
    + unfold writeUInt16LE in Hrun.
      destruct (negb _); [discriminate|]. destruct (negb _); [discriminate|].
      cbn [rbind] in Hrun. destruct (IH _ _ Hrun) as [Hlen Htake].
      rewrite Hlen, Htake, !length_insert, !take_insert_ge by lia. auto.
    + cbn [rbind] in Hrun. destruct (IH _ _ Hrun) as [Hlen Htake].
      rewrite Hlen, Htake, !length_insert, !take_insert_ge by lia. auto.
Qed.

Lemma put_peers_frame (entries : list (nat * string)) :
  forall message message',
    foldM (put_peer 8) entries message = Ok message' ->
    length message' = length message /\ take 8 message' = take 8 message.
Proof.
  induction entries as [|[index address] entries IH]; intros message message' Hrun.
  - injection Hrun as <-. auto.
  - cbn [foldM] in Hrun.
    destruct (put_peer 8 message (index, address)) as [message1|] eqn:Hput; [|discriminate].
    cbn [rbind] in Hrun. destruct (IH _ _ Hrun) as [Hlen Htake].
    unfold put_peer in Hput.
    destruct (negb _); [|discriminate]. destruct (_ =? 5); [|discriminate].
    cbv zeta in Hput.
    destruct (put_parts_frame 8 index _ ltac:(lia) _ _ Hput) as [Hlen1 Htake1].
    rewrite Hlen, Htake, Hlen1, Htake1, !length_insert, !take_insert_ge by lia. auto.
Qed.

(** The parser on a datagram whose type byte is keepalive. *)
Lemma parseMessage_keepalive (net : bool) (v1 v2 v3 e1 e2 : byte) (rest : Buffer)
    (minimal : bool) :
  let buf := [x52; if net then x43 else x41; v1; v2; v3; x02; e1; e2] ++ rest in
  parseMessage buf minimal
  = (check (length buf =? 152) else ParseError "invalid_block_length";
     do peers <- parse_peers buf;
     Ok {| mainnet := net; versionMax := v1; versionUsing := v2; versionMin := v3;
           type := "keepalive"; extensions := (Z_of_byte e1 * 256 + Z_of_byte e2)%Z;
           body := PPeers peers;
           account := None; signature := None; sequence := None; block := None |}).
Proof. destruct net; reflexivity. Qed.
End KeepaliveFrame.

(** X20: whatever peers a keepalive message is given, if it is rendered at
    all the result is 152 bytes long, has no hash, and parses as a
    keepalive message with at most 8 peers. *)
Theorem rendered_keepalive_parses `{Crypto} (msg : Msg) (key : option string)
    (minimal : bool) (r : Rendered) :
  msg_type msg = Some "keepalive" -> (forall b, msg_body msg <> BBuffer b) ->
  renderMessage msg key = Ok r ->
  exists bytes m peers,
    message r = Some bytes /\ hash r = None /\ length bytes = 152
    /\ parseMessage bytes minimal = Ok m
    /\ type m = "keepalive" /\ body m = PPeers peers /\ length peers <= 8.
Proof.
  intros Hty Hbody Hrender.
  assert (Hbytes : exists (net : bool) v1 v2 v3 e1 e2 rest,
             r = {| message := Some ([x52; if net then x43 else x41; v1; v2; v3; x02; e1; e2]
                                       ++ rest);
                    hash := None |}
             /\ length rest = 144).
  { unfold renderMessage in Hrender. rewrite Hty in Hrender.
    cbn [mbind option_bind] in Hrender.
    change (indexOf "keepalive" MESSAGE_TYPES) with (Some 2) in Hrender.
    cbv beta iota zeta in Hrender.
    match type of Hrender with
    | rbind ?h _ = _ =>
        assert (Hheader : exists (net : bool) v1 v2 v3 e1 e2,
                   h = Err RangeError
                   \/ h = Ok [x52; if net then x43 else x41; v1; v2; v3; x02; e1; e2])
    end.
    { destruct (msg_extensions msg) as [e|].
      - unfold writeInt16BE. destruct (negb _).
        + exists true, x00, x00, x00, x00, x00. left. reflexivity.
        + cbn [length Nat.ltb Nat.leb negb].
          destruct (msg_mainnet msg) as [[|]|];
            [exists true | exists false | exists true];
            eexists _, _, _, _, _; right; reflexivity.
      - destruct (msg_mainnet msg) as [[|]|];
          [exists true | exists false | exists true];
          eexists _, _, _, _, _; right; reflexivity. }
    destruct Hheader as (net & v1 & v2 & v3 & e1 & e2 & [Hh|Hh]);
      rewrite Hh in Hrender; [discriminate|]. cbn [rbind] in Hrender.
    exists net, v1, v2, v3, e1, e2.
    rewrite !(bool_decide_eq_false_2 (Some "keepalive" = Some "publish")) in Hrender
      by discriminate.
    rewrite !(bool_decide_eq_false_2 (Some "keepalive" = Some "confirm_req")) in Hrender
      by discriminate.
    rewrite !(bool_decide_eq_true_2 (Some "keepalive" = Some "keepalive")) in Hrender
      by reflexivity.
    cbn [orb] in Hrender.
    destruct (msg_body msg) as [|b|s|l|o|p] eqn:Hb;
      try (exfalso; apply (Hbody b); reflexivity);
      rewrite ?andb_false_r in Hrender; cbv beta iota in Hrender;
      try (injection Hrender as <-; exists (alloc 144); split; reflexivity).
    destruct (length l <=? 8); [|discriminate].
    match type of Hrender with
    | rbind ?f _ = _ => destruct f as [message'|] eqn:Hput; [|discriminate]
    end.
    cbn [rbind] in Hrender. injection Hrender as <-.
    cbn [length] in Hput. destruct (put_peers_frame _ _ _ Hput) as [Hlen Htake].
    exists (drop 8 message'). split.
    - f_equal. f_equal. rewrite <- (take_drop 8 message') at 1. rewrite Htake. reflexivity.
    - rewrite length_drop, Hlen. reflexivity. }
  destruct Hbytes as (net & v1 & v2 & v3 & e1 & e2 & rest & -> & Hrest).
  eexists. cbn [message hash].
  rewrite (parseMessage_keepalive net v1 v2 v3 e1 e2 rest minimal). cbv zeta.
  rewrite length_app, Hrest. cbn [length Nat.add Nat.eqb].
  destruct (parse_peers_loop
              ([x52; if net then x43 else x41; v1; v2; v3; x02; e1; e2] ++ rest) (seq 0 8))
    with (peers0 := @nil string) as (peers & Hpeers & Hl).
  { intros n Hn. apply elem_of_seq in Hn. rewrite length_app. cbn [length]. lia. }
  unfold parse_peers. rewrite Hpeers. cbn [rbind].
  eexists _, peers. repeat (split; [reflexivity|]). exact Hl.
Qed.

Lemma rendered_keepalive_parses_witness :
  exists r bytes m peers,
    @renderMessage sample_crypto
      (plain "keepalive" (BArray ["1.2.3.4:7075"; "5.6.7.8:7075"])) None = Ok r
    /\ message r = Some bytes /\ hash r = None /\ length bytes = 152
    /\ @parseMessage sample_crypto bytes true = Ok m
    /\ type m = "keepalive" /\ body m = PPeers peers /\ length peers <= 8.
Proof.
  assert (Hr : exists r,
             @renderMessage sample_crypto
               (plain "keepalive" (BArray ["1.2.3.4:7075"; "5.6.7.8:7075"])) None = Ok r)
    by (eexists; vm_compute; reflexivity).
  destruct Hr as [r Hr].
  destruct (@rendered_keepalive_parses sample_crypto
              (plain "keepalive" (BArray ["1.2.3.4:7075"; "5.6.7.8:7075"])) None true r eq_refl
              ltac:(discriminate) Hr) as (bytes & m & peers & Hrest).
  exists r, bytes, m, peers. split; [exact Hr | exact Hrest].
Defined.

(** ** Votes in minimal mode, and the hash that [publish] returns *)

(** X21: in minimal mode a confirm_ack datagram is never looked into: it
    parses whatever follows the header, even nothing; the account is the
    hex form of the first 32 bytes that are there, the body is everything
    after the header, and no signature, sequence or block is set. *)
Theorem minimal_vote_is_not_looked_into `{Crypto}
    (net : bool) (v1 v2 v3 e1 e2 : byte) (rest : Buffer) :
  parseMessage ([x52; if net then x43 else x41; v1; v2; v3; x05; e1; e2] ++ rest) true
  = Ok {| mainnet := net; versionMax := v1; versionUsing := v2; versionMin := v3;
          type := "confirm_ack"; extensions := (Z_of_byte e1 * 256 + Z_of_byte e2)%Z;
          body := PBytes rest; account := Some (toHex (take 32 rest));
          signature := None; sequence := None; block := None |}.
Proof.
  transitivity
    (Ok {| mainnet := net; versionMax := v1; versionUsing := v2; versionMin := v3;
           type := "confirm_ack"; extensions := (Z_of_byte e1 * 256 + Z_of_byte e2)%Z;
           body := PBytes (take (length rest - 0) rest);
           account := Some (toHex (take 32 rest));
           signature := None; sequence := None; block := None |}).
  - unfold parseMessage, parseMessage_body.
    destruct net;
      cbv beta iota zeta delta -[toHex take drop Z.mul Z.add Z_of_byte length Nat.sub];
      cbn [length drop Nat.sub]; reflexivity.
  - rewrite Nat.sub_0_r, firstn_all. reflexivity.
Qed.


